(** * Multi-objective reservoir scheduling: the optimisation core

    A shallow embedding of [scheduleLAYER/schedule_manager.py] and
    [scheduleLAYER/strategy.py], and of the worker that calls them,
    [ComputeWorker.run_schedule_optimization] of
    [mainLAYER/compute_thread.py], with the arguments that the main window
    and the schedule tab hand to it.

    Numbers.  Python floats and numpy float64 entries are values of [fnum]:
    an exact rational or one of the IEEE specials [+inf], [-inf], [nan].
    Arithmetic on finite values is exact (no rounding, no overflow, no
    signed zero); the specials follow IEEE 754, which is what numpy does
    for a division by zero: a warning and [inf] or [nan], never an
    exception.  Exact arithmetic proves more than float64 does: an
    identity between two differently computed sums, a strict inequality
    between nearly equal values.  Where a property compares computed
    values it is therefore stated through what rounding to nearest keeps:
    the equality of one expression with itself, signs, the bounds 0 and 1,
    weak orderings and the first minimum of a vector.  The reference
    directions are the exact fractions of the specification.

    Arrays.  A numpy vector is a [list fnum]; a 2-D array is the list of
    its rows.  numpy arrays are rectangular: [rect k M] says that every
    row of [M] has [k] entries.  A list of rows does not record the number
    of columns of an array without rows, so a reduction along the rows of
    such an array returns the empty vector here, also where numpy would
    refuse a zero-length axis.

    Exceptions.  A Python function that can raise returns a [result].

    pymoo.  [minimize], [get_reference_directions] and
    [fast_non_dominated_sort] belong to the pymoo library; the functions
    that call them take them as arguments.  The reference-direction
    generator and the non-dominated sorting described in the specification
    are given as well, and stand in for them in the sample calls. *)

From Stdlib Require Import QArith Qabs Qround Lqa.
From stdpp Require Import gmap strings list pretty.

Set Default Proof Using "Type".

(** ** Python exceptions and the error monad *)

Inductive exn :=
| ValueError (msg : string)
| IndexError (msg : string)
| InvalidParameterError (msg : string).

Inductive result (A : Type) :=
| Ok (a : A)
| Raise (e : exn).
Arguments Ok {A} a.
Arguments Raise {A} e.

Global Instance result_ret : MRet result := λ A a, Ok a.
Global Instance result_bind : MBind result := λ A B f m,
  match m with
  | Ok a => f a
  | Raise e => Raise e
  end.

Definition raises {A} (m : result A) : Prop := ∃ e, m = Raise e.

(** [traverse f l]: evaluate [f] on the elements from left to right, stopping
    at the first exception. *)
Fixpoint traverse {A B} (f : A → result B) (l : list A) : result (list B) :=
  match l with
  | [] => Ok []
  | a :: l' => b ← f a; bs ← traverse f l'; Ok (b :: bs)
  end.

(** ** Floating-point values *)

Inductive fnum :=
| Fin (q : Q)
| PInf
| NInf
| NaN.

Definition is_finite (x : fnum) : bool :=
  match x with Fin _ => true | _ => false end.
Definition is_nan (x : fnum) : bool :=
  match x with NaN => true | _ => false end.

Definition Qltb (a b : Q) : bool := negb (Qle_bool b a).
Definition of_Z (n : Z) : fnum := Fin (inject_Z n).
Definition of_nat (n : nat) : fnum := of_Z (Z.of_nat n).
Definition fzero : fnum := Fin 0.
Definition fone : fnum := Fin 1.
Definition inf_of_sign (positive : bool) : fnum :=
  if positive then PInf else NInf.

Definition fneg (x : fnum) : fnum :=
  match x with
  | Fin a => Fin (- a)
  | PInf => NInf
  | NInf => PInf
  | NaN => NaN
  end.

Definition fadd (x y : fnum) : fnum :=
  match x, y with
  | NaN, _ | _, NaN => NaN
  | Fin a, Fin b => Fin (a + b)
  | PInf, NInf | NInf, PInf => NaN
  | PInf, _ | _, PInf => PInf
  | NInf, _ | _, NInf => NInf
  end.

Definition fsub (x y : fnum) : fnum := fadd x (fneg y).

Definition fmul (x y : fnum) : fnum :=
  match x, y with
  | NaN, _ | _, NaN => NaN
  | Fin a, Fin b => Fin (a * b)
  | Fin a, PInf | PInf, Fin a =>
      if Qeq_bool a 0 then NaN else inf_of_sign (Qltb 0 a)
  | Fin a, NInf | NInf, Fin a =>
      if Qeq_bool a 0 then NaN else inf_of_sign (Qltb a 0)
  | PInf, PInf | NInf, NInf => PInf
  | PInf, NInf | NInf, PInf => NInf
  end.

(** True division.  A zero divisor gives [nan] for [0/0] and an infinity
    with the sign of the dividend otherwise. *)
Definition fdiv (x y : fnum) : fnum :=
  match x, y with
  | NaN, _ | _, NaN => NaN
  | Fin a, Fin b =>
      if Qeq_bool b 0
      then (if Qeq_bool a 0 then NaN else inf_of_sign (Qltb 0 a))
      else Fin (a / b)
  | Fin _, (PInf | NInf) => Fin 0
  | PInf, Fin b => inf_of_sign (Qle_bool 0 b)
  | NInf, Fin b => inf_of_sign (Qltb b 0)
  | (PInf | NInf), (PInf | NInf) => NaN
  end.

(** Comparisons: every comparison with [nan] is false. *)
Definition fltb (x y : fnum) : bool :=
  match x, y with
  | NaN, _ | _, NaN => false
  | Fin a, Fin b => Qltb a b
  | NInf, NInf | PInf, _ | _, NInf => false
  | NInf, _ | _, PInf => true
  end.

Definition fleb (x y : fnum) : bool :=
  match x, y with
  | NaN, _ | _, NaN => false
  | Fin a, Fin b => Qle_bool a b
  | NInf, _ | _, PInf => true
  | PInf, _ | _, NInf => false
  end.

Definition fgeb (x y : fnum) : bool := fleb y x.

Definition feqb (x y : fnum) : bool :=
  match x, y with
  | Fin a, Fin b => Qeq_bool a b
  | PInf, PInf | NInf, NInf => true
  | _, _ => false
  end.

(** [np.maximum] and [np.minimum]: [nan] propagates. *)
Definition np_maximum (x y : fnum) : fnum :=
  if is_nan x then NaN else if is_nan y then NaN
  else if fltb x y then y else x.
Definition np_minimum (x y : fnum) : fnum :=
  if is_nan x then NaN else if is_nan y then NaN
  else if fltb y x then y else x.

Definition fabs (x : fnum) : fnum :=
  match x with
  | Fin a => Fin (Qabs a)
  | PInf | NInf => PInf
  | NaN => NaN
  end.

(** The value of [np.sqrt] is kept symbolic: [Sqrt r] is the non-negative
    square root of [r]. *)
Inductive surd := Sqrt (radicand : fnum).

(** ** numpy reductions over a vector *)

Definition zero_size (op : string) : exn :=
  ValueError ("zero-size array to reduction operation " +:+ op +:+
              " which has no identity").

Definition np_sum (v : list fnum) : fnum := foldr fadd fzero v.

Definition np_max (v : list fnum) : result fnum :=
  match v with
  | [] => Raise (zero_size "maximum")
  | x :: v' => Ok (foldl np_maximum x v')
  end.

Definition np_min (v : list fnum) : result fnum :=
  match v with
  | [] => Raise (zero_size "minimum")
  | x :: v' => Ok (foldl np_minimum x v')
  end.

(** [np.sum] of a boolean vector: the number of [True] entries. *)
Definition count_true (bs : list bool) : nat := length (List.filter (λ b : bool, b) bs).

Definition np_mean (v : list fnum) : fnum := fdiv (np_sum v) (of_nat (length v)).

(** [np.std]: the root of the mean of the squared absolute deviations. *)
Definition np_std (v : list fnum) : surd :=
  let m := np_mean v in
  Sqrt (np_mean (map (λ x, let d := fabs (fsub x m) in fmul d d) v)).

(** [np.argmin]: the first index of the minimum; a [nan] counts as the
    minimum, so the first [nan] wins. *)
Fixpoint argmin_from (best : fnum) (bi i : nat) (v : list fnum) : nat :=
  match v with
  | [] => bi
  | x :: v' =>
      if is_nan best then bi
      else if is_nan x || fltb x best then argmin_from x i (S i) v'
      else argmin_from best bi (S i) v'
  end.

Definition np_argmin (v : list fnum) : result nat :=
  match v with
  | [] => Raise (ValueError "attempt to get argmin of an empty sequence")
  | x :: v' => Ok (argmin_from x 0 1 v')
  end.

(** ** 2-D arrays *)

Abbreviation matrix := (list (list fnum)).

Definition rect (k : nat) (M : matrix) : Prop := Forall (λ r, length r = k) M.
Definition all_finite (M : matrix) : Prop :=
  Forall (Forall (λ x, is_finite x = true)) M.

(** [np.zeros((n, k))] *)
Definition np_zeros (n k : nat) : matrix := replicate n (replicate k fzero).

(** [M[:, j]] *)
Definition column (j : nat) (M : matrix) : result (list fnum) :=
  traverse (λ r, match r !! j with
                 | Some x => Ok x
                 | None => Raise (IndexError "index is out of bounds for axis 1")
                 end) M.

(** [M[:, j] = c] for a vector [c] with one entry per row of [M]. *)
Definition set_column (j : nat) (c : list fnum) (M : matrix) : matrix :=
  zip_with (λ r x, <[j := x]> r) M c.

(** [M[i]] *)
Definition row {A} (i : nat) (M : list A) : result A :=
  match M !! i with
  | Some r => Ok r
  | None => Raise (IndexError "index is out of bounds for axis 0")
  end.

(** ** Parameter dictionaries *)

(** [params.get(key, default)] on the parameter dictionary; the UI fills it
    with the numbers of its spin boxes. *)
Definition get (params : gmap string Q) (key : string) (dflt : Q) : Q :=
  default dflt (params !! key).

(** [int(v)]: truncation towards zero. *)
Definition int (v : Q) : Z := Z.quot (Qnum v) (Z.pos (Qden v)).

(** ** schedule_manager.py: [_ReservoirSchedulingProblem] *)

Record _ReservoirSchedulingProblem := {
  active_objs : list string;
  Q_min : Q;
  Q_max : Q;
  Q_allowed : Q;
  Q_target : Q;
  Q_eco : Q;
  Head : Q;
  (* the fields set by pymoo's [Problem.__init__] *)
  n_var : Z;
  n_obj : nat;
  n_constr : nat;
  xl : Q;
  xu : Q;
}.

(** [_ReservoirSchedulingProblem.__init__] *)
Definition new_problem (n_var : Z) (active_objs : list string)
    (Q_min Q_max : Q) (params : gmap string Q) : _ReservoirSchedulingProblem :=
  {| active_objs := active_objs;
     Q_min := Q_min;
     Q_max := Q_max;
     Q_allowed := get params "Q_allowed" Q_max;
     Q_target := get params "Q_target" ((Q_min + Q_max) / 2);
     Q_eco := get params "Q_eco" Q_min;
     Head := get params "head" 50;
     n_var := n_var;
     n_obj := length active_objs;
     n_constr := 0;
     xl := Q_min;
     xu := Q_max |}.

(** One pass of the loop body of [_evaluate]: the column of objective
    [obj] for the whole batch. *)
Definition objective_column (p : _ReservoirSchedulingProblem) (obj : string)
    (X : matrix) : result (list fnum) :=
  if decide (obj = "flood") then
    m ← traverse np_max X;
    Ok (map (λ v, fdiv v (Fin (Q_allowed p))) m)
  else if decide (obj = "power") then
    let total_energy := map (λ x, np_sum (map (λ v, fmul v (Fin (Head p))) x)) X in
    Ok (map fneg total_energy)
  else if decide (obj = "supply") then
    let deficit := map (map (λ v, np_maximum (fsub (Fin (Q_target p)) v) fzero)) X in
    Ok (map (λ d, fdiv (np_sum d) (fmul (Fin (Q_target p)) (of_Z (n_var p)))) deficit)
  else if decide (obj = "ecology") then
    let unsatisfied := map (λ x, count_true (map (λ v, fltb v (Fin (Q_eco p))) x)) X in
    Ok (map (λ c, fdiv (of_nat c) (of_Z (n_var p))) unsatisfied)
  else Raise (ValueError ("未知目标: " +:+ obj)).

(** [for i, obj in enumerate(self.active_objs)], from index [i] on. *)
Fixpoint evaluate_loop (p : _ReservoirSchedulingProblem) (X : matrix)
    (i : nat) (objs : list string) (F : matrix) : result matrix :=
  match objs with
  | [] => Ok F
  | obj :: objs' =>
      c ← objective_column p obj X;
      evaluate_loop p X (S i) objs' (set_column i c F)
  end.

(** [_evaluate]: the value is what the method stores in [out["F"]]. *)
Definition _evaluate (p : _ReservoirSchedulingProblem) (X : matrix) : result matrix :=
  let pop_size := length X in
  let F := np_zeros pop_size (length (active_objs p)) in
  evaluate_loop p X 0 (active_objs p) F.


(** ** strategy.py: [analyze_single_solution] *)

Record flow_statistics := {
  min_flow : fnum;
  max_flow : fnum;
  mean_flow : fnum;
  std_flow : surd;
  total_volume : fnum;
}.

Record constraint_satisfaction := {
  min_flow_violation : fnum;
  max_flow_violation : fnum;
  flood_risk : fnum;
  supply_deficit : fnum;
  ecology_violation : fnum;
}.

Record performance_metrics := {
  power_generation : fnum;
  supply_reliability : fnum;
  ecology_satisfaction : fnum;
}.

Record analysis := {
  a_flow_statistics : flow_statistics;
  a_constraint_satisfaction : constraint_satisfaction;
  a_performance_metrics : performance_metrics;
}.

(** The dictionary literal is evaluated entry by entry, so [np.min(x)] is
    the first reduction to run and the first to raise on an empty [x]. *)
Definition analyze_single_solution (x f : list fnum) (active_objs : list string)
    (params : gmap string Q) : result analysis :=
  let Q_min := get params "Q_min" 0 in
  let Q_max := get params "Q_max" 1000 in
  let Q_allowed := get params "Q_allowed" Q_max in
  let Q_target := get params "Q_target" ((Q_min + Q_max) / 2) in
  let Q_eco := get params "Q_eco" Q_min in
  let Head := get params "head" 50 in
  mn ← np_min x;
  mx ← np_max x;
  Ok {| a_flow_statistics :=
          {| min_flow := mn;
             max_flow := mx;
             mean_flow := np_mean x;
             std_flow := np_std x;
             total_volume := np_sum x |};
        a_constraint_satisfaction :=
          {| min_flow_violation := fsub mn (Fin Q_min);
             max_flow_violation := fsub mx (Fin Q_max);
             flood_risk := fdiv mx (Fin Q_allowed);
             supply_deficit :=
               np_sum (map (λ v, np_maximum (fsub (Fin Q_target) v) fzero) x);
             ecology_violation :=
               of_nat (count_true (map (λ v, fltb v (Fin Q_eco)) x)) |};
        a_performance_metrics :=
          {| power_generation := np_sum (map (λ v, fmul v (Fin Head)) x);
             supply_reliability :=
               fdiv (of_nat (count_true (map (λ v, fgeb v (Fin Q_target)) x)))
                    (of_nat (length x));
             ecology_satisfaction :=
               fdiv (of_nat (count_true (map (λ v, fgeb v (Fin Q_eco)) x)))
                    (of_nat (length x)) |} |}.

(** ** strategy.py: [recommend_strategies] *)

Record recommendation := {
  strategy_type : string;
  description : string;
  solution_id : nat;
  decision_variables : list fnum;
  objective_values : list fnum;
}.

(** numpy broadcasting of an elementwise operation on two vectors. *)
Definition broadcast (op : fnum → fnum → fnum) (a b : list fnum) : result (list fnum) :=
  if decide (length a = length b) then Ok (zip_with op a b)
  else match a, b with
       | [x], _ => Ok (map (op x) b)
       | _, [y] => Ok (map (λ x, op x y) a)
       | _, _ => Raise (ValueError "operands could not be broadcast together")
       end.

(** [np.max(M, axis=0)] of an array with at least one row. *)
Definition np_max_axis0 (M : matrix) : result (list fnum) :=
  match M with
  | [] => Raise (zero_size "maximum")
  | r :: M' => Ok (foldl (zip_with np_maximum) r M')
  end.

(** One of the four priority blocks: [if name in active_objs: ...].
    [list_find] gives the first position of [name], which is
    [active_objs.index(name)]. *)
Definition priority_block (name stype descr : string)
    (pareto_X pareto_F : matrix) (active_objs : list string)
    (recommendations : list recommendation) : result (list recommendation) :=
  match list_find (λ o, o = name) active_objs with
  | None => Ok recommendations
  | Some (obj_idx, _) =>
      c ← column obj_idx pareto_F;
      min_idx ← np_argmin c;
      x ← row min_idx pareto_X;
      f ← row min_idx pareto_F;
      Ok (recommendations ++
          [ {| strategy_type := stype;
               description := descr;
               solution_id := min_idx + 1;
               decision_variables := x;
               objective_values := f |} ])
  end.

(** The vector [weighted_sum] of the balanced block. *)
Definition weighted_sum (pareto_F : matrix) (active_objs : list string)
    : result (list fnum) :=
  max_values ← np_max_axis0 pareto_F;
  let max_values := map (λ m, if feqb m fzero then fone else m) max_values in
  normalized_F ← traverse (λ r, broadcast fdiv r max_values) pareto_F;
  let weights :=
    map (λ w, fdiv w (of_nat (length active_objs)))
        (replicate (length active_objs) fone) in
  weighted ← traverse (λ r, broadcast fmul r weights) normalized_F;
  Ok (map np_sum weighted).

Definition balanced_block (pareto_X pareto_F : matrix) (active_objs : list string)
    (recommendations : list recommendation) : result (list recommendation) :=
  if decide (1 < length active_objs ∧ 0 < length pareto_F) then
    ws ← weighted_sum pareto_F active_objs;
    balanced_idx ← np_argmin ws;
    x ← row balanced_idx pareto_X;
    f ← row balanced_idx pareto_F;
    Ok (recommendations ++
        [ {| strategy_type := "balanced_strategy";
             description := "平衡策略：综合考虑所有目标";
             solution_id := balanced_idx + 1;
             decision_variables := x;
             objective_values := f |} ])
  else Ok recommendations.

Definition recommend_strategies (pareto_X pareto_F : matrix)
    (active_objs : list string) (reservoir_id : nat) : result (list recommendation) :=
  let recommendations := [] in
  recommendations ←
    priority_block "flood" "flood_control_priority"
      "防洪优先策略：最小化最大下泄流量"
      pareto_X pareto_F active_objs recommendations;
  recommendations ←
    priority_block "power" "power_generation_priority"
      "发电优先策略：最大化发电量"
      pareto_X pareto_F active_objs recommendations;
  recommendations ←
    priority_block "supply" "water_supply_priority"
      "供水优先策略：最小化供水缺口"
      pareto_X pareto_F active_objs recommendations;
  recommendations ←
    priority_block "ecology" "ecology_priority"
      "生态优先策略：最大化生态基流满足度"
      pareto_X pareto_F active_objs recommendations;
  balanced_block pareto_X pareto_F active_objs recommendations.

(** ** strategy.py: [get_pareto_front] and [build_reservoir_strategy] *)

Record solution := {
  s_solution_id : nat;
  s_decision_variables : list fnum;
  s_objective_values : list fnum;
  s_objective_dict : gmap string fnum;
  s_analysis : analysis;
}.

Record strategy_info := {
  si_reservoir_id : nat;
  si_pareto_solutions_count : nat;
  si_total_solutions : nat;
  si_horizon : Z;
  si_objectives : list string;
  si_pareto_solutions : list solution;
  si_recommended_strategies : list recommendation;
}.

(** [dict(zip(keys, values))]: a later pair overwrites an earlier one with
    the same key. *)
Definition dict_of_zip (keys : list string) (values : list fnum) : gmap string fnum :=
  foldl (λ d kv, <[kv.1 := kv.2]> d) ∅ (zip keys values).

(** The body of the [for i, (x, f) in enumerate(zip(pareto_X, pareto_F))]
    loop, for the pairs from position [i] on. *)
Fixpoint pareto_solutions_from (i : nat) (xfs : list (list fnum * list fnum))
    (active_objs : list string) (params : gmap string Q) : result (list solution) :=
  match xfs with
  | [] => Ok []
  | (x, f) :: xfs' =>
      a ← analyze_single_solution x f active_objs params;
      rest ← pareto_solutions_from (S i) xfs' active_objs params;
      Ok ({| s_solution_id := i + 1;
             s_decision_variables := x;
             s_objective_values := f;
             s_objective_dict := dict_of_zip active_objs f;
             s_analysis := a |} :: rest)
  end.

Section Strategy.
(** pymoo's [fast_non_dominated_sort]: the list of fronts, each a list
    of row indices. *)
Variable fast_non_dominated_sort : matrix → list (list nat).

Definition get_pareto_front (F : matrix) : result (list nat) :=
  match fast_non_dominated_sort F with
  | [] => Raise (IndexError "list index out of range")
  | front0 :: _ => Ok front0
  end.

Definition build_reservoir_strategy (X F : matrix) (reservoir_id : nat)
    (active_objs : list string) (params : gmap string Q) (horizon : Z)
    : result strategy_info :=
  pareto_indices ← get_pareto_front F;
  pareto_X ← traverse (λ i, row i X) pareto_indices;
  pareto_F ← traverse (λ i, row i F) pareto_indices;
  sols ← pareto_solutions_from 0 (zip pareto_X pareto_F) active_objs params;
  recs ← recommend_strategies pareto_X pareto_F active_objs reservoir_id;
  Ok {| si_reservoir_id := reservoir_id;
        si_pareto_solutions_count := length pareto_indices;
        si_total_solutions := length X;
        si_horizon := horizon;
        si_objectives := active_objs;
        si_pareto_solutions := sols;
        si_recommended_strategies := recs |}.
End Strategy.

(** ** strategy.py: the comprehensive report *)

Record coordination_opportunity := {
  reservoir_pair : string;
  co_analysis : string;
}.

Inductive cross_reservoir_analysis :=
| CoordinationMessage (message : string)
| CoordinationAnalysis
    (coordination_opportunities : list coordination_opportunity)
    (potential_conflicts : list string)
    (recommended_coordination_strategies : list string).

Definition show (n : nat) : string := pretty n.

(** The pairs [(strategy1, strategy2)] with [strategy2] after [strategy1]. *)
Fixpoint coordination_pairs (all_strategies : list strategy_info)
    : list coordination_opportunity :=
  match all_strategies with
  | [] => []
  | strategy1 :: later =>
      map (λ strategy2,
             let res1_id := si_reservoir_id strategy1 in
             let res2_id := si_reservoir_id strategy2 in
             {| reservoir_pair := show res1_id +:+ "-" +:+ show res2_id;
                co_analysis := "水库" +:+ show res1_id +:+ "和水库" +:+
                               show res2_id +:+ "的协调调度分析" |}) later
      ++ coordination_pairs later
  end.

Definition analyze_cross_reservoir_coordination (all_strategies : list strategy_info)
    : cross_reservoir_analysis :=
  if decide (length all_strategies ≤ 1) then
    CoordinationMessage "单水库系统，无需协调分析"
  else CoordinationAnalysis (coordination_pairs all_strategies) [] [].

Record guidance := {
  operational_recommendations : list (nat * list string);
  monitoring_requirements : list (nat * list string);
  adjustment_criteria : list (nat * list string);
}.

Definition generate_implementation_guidance (all_strategies : list strategy_info)
    (params : gmap string Q) : guidance :=
  let ids := map si_reservoir_id all_strategies in
  {| operational_recommendations :=
       map (λ res_id,
              (res_id, [ "水库" +:+ show res_id +:+ "建议采用平衡策略进行日常调度";
                         "在汛期优先考虑防洪策略";
                         "在枯水期优先考虑供水策略" ])) ids;
     monitoring_requirements :=
       map (λ res_id,
              (res_id, [ "实时监测水库水位和下泄流量";
                         "监测下游河道流量和水质";
                         "监测发电效率和供水可靠性" ])) ids;
     adjustment_criteria :=
       map (λ res_id,
              (res_id, [ "当防洪风险超过阈值时调整调度策略";
                         "当供水缺口超过10%时启动应急调度";
                         "当生态基流不满足时优先保障生态需求" ])) ids |}.

Record summary := {
  total_reservoirs : nat;
  active_objectives : list string;
  optimization_parameters : gmap string Q;
  total_pareto_solutions : nat;
}.

Record report := {
  r_summary : summary;
  reservoir_strategies : list strategy_info;
  cross_reservoir_analysis_of : cross_reservoir_analysis;
  implementation_guidance : guidance;
}.

Definition build_comprehensive_strategy_report (all_strategies : list strategy_info)
    (reservoir_count : nat) (active_objs : list string) (params : gmap string Q)
    : report :=
  {| r_summary :=
       {| total_reservoirs := reservoir_count;
          active_objectives := active_objs;
          optimization_parameters := params;
          total_pareto_solutions :=
            foldr Nat.add 0 (map (λ s, length (si_pareto_solutions s)) all_strategies) |};
     reservoir_strategies := all_strategies;
     cross_reservoir_analysis_of := analyze_cross_reservoir_coordination all_strategies;
     implementation_guidance := generate_implementation_guidance all_strategies params |}.

(** ** pandas and pymoo objects seen by [ScheduleManager.optimize] *)

Inductive cell :=
| Float (v : fnum)
| Int (n : Z).

Record DataFrame := {
  columns : list string;
  rows : list (list cell);
  (* [attrs['schedule_strategy']], when set *)
  attrs : option report;
}.

(** [pd.DataFrame(F, columns=cols)] *)
Definition new_frame (F : matrix) (cols : list string) : result DataFrame :=
  if decide (rect (length cols) F) then
    Ok {| columns := cols; rows := map (map Float) F; attrs := None |}
  else Raise (ValueError "Shape of passed values does not match the indices").

(** [df[name] = vals] for one value per row: an existing column of that
    name is overwritten, a new name is appended on the right. *)
Definition assign_column (name : string) (vals : list cell) (df : DataFrame) : DataFrame :=
  if decide (name ∈ columns df) then
    {| columns := columns df;
       rows := zip_with (λ r v,
                 zip_with (λ c old, if decide (c = name) then v else old)
                          (columns df) r) (rows df) vals;
       attrs := attrs df |}
  else
    {| columns := columns df ++ [name];
       rows := zip_with (λ r v, r ++ [v]) (rows df) vals;
       attrs := attrs df |}.

(** [pd.concat(frames, ignore_index=True)] for frames that carry the same
    column labels, which is the case for the frames of one [optimize] call. *)
Definition concat_frames (first : DataFrame) (others : list DataFrame) : DataFrame :=
  {| columns := columns first;
     rows := rows first ++ concat (map rows others);
     attrs := None |}.

(** [NSGA3(pop_size=..., ref_dirs=...)] *)
Record NSGA3 := {
  pop_size : Z;
  ref_dirs : matrix;
}.

(** [res.pop], with the two entries [optimize] reads from it. *)
Record Population := {
  pop_F : option matrix;  (* pop.get("F") *)
  pop_X : option matrix;  (* pop.get("X") *)
}.

(** The object returned by [minimize]. *)
Record Result := {
  pop : option Population;
}.

(** What [optimize] inspects of its [data] argument: whether it is a
    non-empty dictionary, and the [len] of each of its values. *)
Inductive py_data :=
| NotADict
| Dict (lens : gmap string nat).

(** ** Output and library calls as a trace *)

Inductive event :=
| Print (line : string)
| Minimize (problem : _ReservoirSchedulingProblem) (algorithm : NSGA3)
           (n_gen : Z) (seed : nat).

Definition io (A : Type) : Type := (list event * result A)%type.

Global Instance io_ret : MRet io := λ A a, ([], Ok a).
Global Instance io_bind : MBind io := λ A B f m,
  match m with
  | (t, Ok a) => let '(t', r) := f a in (t ++ t', r)
  | (t, Raise e) => (t, Raise e)
  end.

Definition print (line : string) : io unit := ([Print line], Ok tt).
Definition lift {A} (r : result A) : io A := ([], r).

(** ** schedule_manager.py: [ScheduleManager] *)

Record ScheduleManager := {
  results : option DataFrame;
}.

(** [ScheduleManager.__init__] *)
Definition new_manager : ScheduleManager := {| results := None |}.

Section Optimize.
(** pymoo's [minimize(problem, algorithm, ("n_gen", n_gen), seed=seed,
    verbose=False)], [get_reference_directions(name, n_dim,
    n_partitions=n)] and [fast_non_dominated_sort]. *)
Variable minimize :
  _ReservoirSchedulingProblem → NSGA3 → Z → nat → result (option Result).
Variable get_reference_directions : string → nat → Z → result matrix.
Variable fast_non_dominated_sort : matrix → list (list nat).

Definition call_minimize (problem : _ReservoirSchedulingProblem)
    (algorithm : NSGA3) (n_gen : Z) (seed : nat) : io (option Result) :=
  ([Minimize problem algorithm n_gen seed], minimize problem algorithm n_gen seed).

Section Loop.
Variables (active_objs : list string) (params : gmap string Q).
Variables (pop_size n_gen n_ref horizon : Z) (Q_min Q_max : Q).

(** One iteration of the [for reservoir_id in range(...)] loop: the
    frame and the strategy record appended to [all_results] and
    [all_strategies], or [None] on the two failure branches. *)
Definition optimize_reservoir (reservoir_id : nat)
    : io (option (DataFrame * strategy_info)) :=
  _ ← print ("正在为水库 " +:+ show reservoir_id +:+ " 执行调度优化...");
  let problem := new_problem horizon active_objs Q_min Q_max params in
  ref_dirs ← lift (get_reference_directions "das-dennis" (length active_objs) n_ref);
  let algorithm := Build_NSGA3 pop_size ref_dirs in
  res ← call_minimize problem algorithm n_gen reservoir_id;
  match res with
  | Some {| pop := Some {| pop_F := Some F; pop_X := Some X |} |} =>
      df ← lift (new_frame F active_objs);
      let df := assign_column "reservoir_id"
                  (replicate (length (rows df)) (Int (Z.of_nat reservoir_id))) df in
      let df := assign_column "time_step"
                  (map (λ t, Int (Z.of_nat t)) (seq 0 (length (rows df)))) df in
      strategy_info ← lift (build_reservoir_strategy fast_non_dominated_sort
                              X F reservoir_id active_objs params horizon);
      _ ← print ("水库 " +:+ show reservoir_id +:+ " 优化完成");
      mret (Some (df, strategy_info))
  | _ =>
      _ ← print ("水库 " +:+ show reservoir_id +:+ " 优化失败");
      mret None
  end.

Fixpoint reservoir_loop (ids : list nat) (all_results : list DataFrame)
    (all_strategies : list strategy_info)
    : io (list DataFrame * list strategy_info) :=
  match ids with
  | [] => mret (all_results, all_strategies)
  | reservoir_id :: ids' =>
      r ← optimize_reservoir reservoir_id;
      match r with
      | Some (df, strategy_info) =>
          reservoir_loop ids' (all_results ++ [df]) (all_strategies ++ [strategy_info])
      | None => reservoir_loop ids' all_results all_strategies
      end
  end.
End Loop.

(** [active_objs = [k for k, enabled in objectives.items() if enabled]];
    the dictionary is the list of its items in insertion order. *)
Definition enabled_objectives (objectives : list (string * bool)) : list string :=
  (filter (λ kv, kv.2 = true) objectives).*1.

(** The reservoir count of step 3. *)
Definition count_reservoirs (data : py_data) : io nat :=
  match data with
  | Dict lens =>
      match lens !! "model_results" with
      | Some reservoir_count =>
          _ ← print ("检测到 " +:+ show reservoir_count +:+ " 个水库的模型结果");
          mret reservoir_count
      | None => mret 1
      end
  | NotADict => mret 1
  end.

(** [ScheduleManager.optimize]: the manager after the call, the trace of
    the call and its outcome.  [self.results] and the returned frame are
    one object, so the report attached to the frame after the assignment
    is visible through [self.results] as well. *)
Definition optimize (self : ScheduleManager) (data : py_data)
    (objectives : list (string * bool)) (params : gmap string Q)
    : ScheduleManager * io (option DataFrame) :=
  let active_objs := enabled_objectives objectives in
  if decide (active_objs = []) then
    (self, (_ ← print "警告：未选择任何优化目标，已跳过优化。"; mret None))
  else
    let pop_size := int (get params "population_size" 100) in
    let n_gen := int (get params "iterations" 100) in
    let n_ref := int (get params "reference_points" 12) in
    let horizon := int (get params "horizon" 24) in
    let Q_min := get params "Q_min" 0 in
    let Q_max := get params "Q_max" 1000 in
    let run : io (nat * (list DataFrame * list strategy_info)) :=
      reservoir_count ← count_reservoirs data;
      acc ← reservoir_loop active_objs params pop_size n_gen n_ref horizon
              Q_min Q_max (seq 1 reservoir_count) [] [];
      mret (reservoir_count, acc) in
    match run with
    | (t, Raise e) => (self, (t, Raise e))
    | (t, Ok (reservoir_count, ([], _))) =>
        (self, (t ++ [Print "所有水库优化均失败"], Ok None))
    | (t, Ok (reservoir_count, (first :: others, all_strategies))) =>
        let combined_df := concat_frames first others in
        let strategy_report :=
          build_comprehensive_strategy_report all_strategies reservoir_count
            active_objs params in
        let combined_df :=
          {| columns := columns combined_df;
             rows := rows combined_df;
             attrs := Some strategy_report |} in
        ({| results := Some combined_df |},
         (t ++ [ Print ("多水库调度优化完成，共 " +:+
                        show (length (first :: others)) +:+ " 个水库");
                 Print "调度策略报告已生成" ],
          Ok (Some combined_df)))
    end.
End Optimize.

(** ** The reference-direction generator *)

(** Modelled from the spec: the generator behind pymoo's
    [get_reference_directions("das-dennis", ...)] is not among the
    repository's sources.  Section 4.1 of the specification: all
    compositions of [num_partitions] into [num_objectives] non-negative
    integer parts, each divided by [num_partitions]; a single point [1.0]
    for one objective; [InvalidParameterError] when either argument is
    below 1.

    [compositions d total] lists the compositions of [total] into [d + 1]
    parts: the first part runs over [0 .. total] and the last part takes
    what is left. *)
Fixpoint compositions (d total : nat) : list (list nat) :=
  match d with
  | 0 => [[total]]
  | S d' =>
      flat_map (λ i, map (cons i) (compositions d' (total - i))) (seq 0 (S total))
  end.

(** Modelled from the spec: the generator of section 4.1.  Both arguments
    must be at least 1; every composition is divided by [num_partitions]. *)
Definition generate (num_objectives : nat) (num_partitions : Z) : result matrix :=
  if decide ((num_partitions < 1)%Z ∨ num_objectives < 1) then
    Raise (InvalidParameterError "num_partitions and num_objectives must be at least 1")
  else
    Ok (map (map (λ c, fdiv (of_nat c) (of_Z num_partitions)))
            (compositions (num_objectives - 1) (Z.to_nat num_partitions))).

(** Modelled from the spec: [get_reference_directions], restricted to the
    one method the optimiser asks for. *)
Definition das_dennis (name : string) (n_dim : nat) (n_partitions : Z) : result matrix :=
  if decide (name = "das-dennis") then generate n_dim n_partitions
  else Raise (InvalidParameterError "unknown reference direction method").

(** ** Dominance and non-dominated sorting *)

(** Modelled from the spec: pymoo's sorting routine is not among the
    repository's sources.  Section 4.3: [a] dominates [b] iff [a_i <= b_i]
    for all objectives and [a_i < b_i] for at least one; front 0 is the
    non-dominated set of the pool, front 1 that of the rest, and so on. *)
Definition dominates (a b : list fnum) : bool :=
  forallb (λ ab, fleb ab.1 ab.2) (zip a b) && existsb (λ ab, fltb ab.1 ab.2) (zip a b).

(** Modelled from the spec: no row of the pool dominates row [i]. *)
Definition non_dominated_in (F : matrix) (pool : list nat) (i : nat) : bool :=
  forallb (λ j, negb (dominates (F !!! j) (F !!! i))) pool.

(** Modelled from the spec: the fronts of the pool, peeled off one by one. *)
Fixpoint sort_fronts (fuel : nat) (F : matrix) (pool : list nat) : list (list nat) :=
  match fuel, pool with
  | 0, _ | _, [] => []
  | S fuel', _ =>
      let front := List.filter (non_dominated_in F pool) pool in
      front :: sort_fronts fuel' F (List.filter (λ i, negb (non_dominated_in F pool i)) pool)
  end.

(** Modelled from the spec: the ranked fronts of the rows of [F]. *)
Definition non_dominated_sort (F : matrix) : list (list nat) :=
  sort_fronts (length F) F (seq 0 (length F)).

(** ** Vocabulary of the statements *)

(** The canonical objective names, in their canonical order. *)
Definition objective_names : list string := ["flood"; "power"; "supply"; "ecology"].

Definition no_nan (v : list fnum) : Prop := Forall (λ x, is_nan x = false) v.
Definition finite_vec (v : list fnum) : Prop := Forall (λ x, is_finite x = true) v.

(** [m] is the maximum of the vector [v]: its largest entry, or [nan] as
    soon as one entry is [nan]. *)
Definition is_max (v : list fnum) (m : fnum) : Prop :=
  (¬ no_nan v ∧ m = NaN) ∨
  (no_nan v ∧ m ∈ v ∧ Forall (λ x, fleb x m = true) v).

Definition is_min (v : list fnum) (m : fnum) : Prop :=
  (¬ no_nan v ∧ m = NaN) ∨
  (no_nan v ∧ m ∈ v ∧ Forall (λ x, fleb m x = true) v).

(** The number of entries of [v] that satisfy the test [t]. *)
Definition count (t : fnum → bool) (v : list fnum) : nat :=
  length (List.filter t v).

(** The objective formulas of the specification, for one decision vector
    [x] whose length is the horizon. *)
Definition objective_formula (p : _ReservoirSchedulingProblem) (obj : string)
    (x : list fnum) (v : fnum) : Prop :=
  let horizon := length x in
  if decide (obj = "flood") then
    ∃ m, is_max x m ∧ v = fdiv m (Fin (Q_allowed p))
  else if decide (obj = "power") then
    v = fneg (np_sum (map (λ xt, fmul xt (Fin (Head p))) x))
  else if decide (obj = "supply") then
    v = fdiv (np_sum (map (λ xt, np_maximum (fsub (Fin (Q_target p)) xt) fzero) x))
             (Fin (Q_target p * inject_Z (Z.of_nat horizon)))
  else if decide (obj = "ecology") then
    v = fdiv (of_nat (count (λ xt, fltb xt (Fin (Q_eco p))) x)) (of_nat horizon)
  else False.

(** The entry of objective [obj] for one decision vector [x]: the value
    that the column computed by [objective_column] holds in the row of [x]. *)
Definition objective_entry (p : _ReservoirSchedulingProblem) (obj : string)
    (x : list fnum) : result fnum :=
  if decide (obj = "flood") then
    np_max x ≫= λ m, Ok (fdiv m (Fin (Q_allowed p)))
  else if decide (obj = "power") then
    Ok (fneg (np_sum (map (λ v, fmul v (Fin (Head p))) x)))
  else if decide (obj = "supply") then
    Ok (fdiv (np_sum (map (λ v, np_maximum (fsub (Fin (Q_target p)) v) fzero) x))
             (fmul (Fin (Q_target p)) (of_Z (n_var p))))
  else if decide (obj = "ecology") then
    Ok (fdiv (of_nat (count_true (map (λ v, fltb v (Fin (Q_eco p))) x)))
             (of_Z (n_var p)))
  else Raise (ValueError ("未知目标: " +:+ obj)).

(** The mean and the (population) variance of a vector; the standard
    deviation is the square root of the variance. *)
Definition mean (v : list fnum) : fnum := fdiv (np_sum v) (of_nat (length v)).
Definition variance (v : list fnum) : fnum :=
  mean (map (λ x, fmul (fsub x (mean v)) (fsub x (mean v))) v).

(** The fraction of the entries of [v] that satisfy the test [t]. *)
Definition fraction (t : fnum → bool) (v : list fnum) : fnum :=
  fdiv (of_nat (count t v)) (of_nat (length v)).

(** The strategy type of the priority recommendation of an objective. *)
Definition priority_type (obj : string) : string :=
  if decide (obj = "flood") then "flood_control_priority"
  else if decide (obj = "power") then "power_generation_priority"
  else if decide (obj = "supply") then "water_supply_priority"
  else "ecology_priority".

(** The recommendation [rec] carries member [idx] of the front: its
    1-based index, its decision vector and its objective vector. *)
Definition reports_member (X F : matrix) (idx : nat) (rec : recommendation) : Prop :=
  solution_id rec = idx + 1 ∧
  X !! idx = Some (decision_variables rec) ∧
  F !! idx = Some (objective_values rec).

(** The objective vector [f] attains the minimum of column [c] of [F]. *)
Definition minimises_column (F : matrix) (c : nat) (f : list fnum) : Prop :=
  ∃ m col, f !! c = Some m ∧ column c F = Ok col ∧ is_min col m.

(** [maxima] holds the maximum of every column of the [k]-column array [F]. *)
Definition column_maxima (k : nat) (F : matrix) (maxima : list fnum) : Prop :=
  length maxima = k ∧
  ∀ j m, maxima !! j = Some m → ∃ col, column j F = Ok col ∧ is_max col m.

(** The equal-weighted sum of the objectives [f] over [k] objectives, each
    normalised by its column maximum, a zero maximum counting as 1. *)
Definition weighted_normalized_sum (k : nat) (maxima f : list fnum) : fnum :=
  np_sum (zip_with
            (λ fj mj, fmul (fdiv fj (if feqb mj fzero then fone else mj))
                           (fdiv fone (of_nat k)))
            f maxima).

(** The binomial coefficient [C(n, k)], by Pascal's rule. *)
Fixpoint binomial (n k : nat) : nat :=
  match n, k with
  | _, 0 => 1
  | 0, S _ => 0
  | S n', S k' => binomial n' k' + binomial n' (S k')
  end.

(** ** Vocabulary for [optimize] *)

(** The population that the test
    [res is not None and res.pop is not None], followed by
    [F is not None and X is not None], lets through. *)
Definition population_of (res : option Result) : option (matrix * matrix) :=
  match res with
  | Some {| pop := Some {| pop_F := Some F; pop_X := Some X |} |} => Some (F, X)
  | _ => None
  end.

Definition is_minimize (e : event) : bool :=
  match e with Minimize _ _ _ _ => true | Print _ => false end.

(** The seeds of the calls of [minimize] recorded in a trace, in order. *)
Definition seeds (t : list event) : list nat :=
  omap (λ e, match e with Minimize _ _ _ s => Some s | Print _ => None end) t.

(** The lines that [optimize] prints for reservoir [i]. *)
Definition start_line (i : nat) : string :=
  "正在为水库 " +:+ show i +:+ " 执行调度优化...".
Definition done_line (i : nat) : string := "水库 " +:+ show i +:+ " 优化完成".
Definition failed_line (i : nat) : string := "水库 " +:+ show i +:+ " 优化失败".

Section OptimizeVocabulary.
Variable minimize :
  _ReservoirSchedulingProblem → NSGA3 → Z → nat → result (option Result).
Variable get_reference_directions : string → nat → Z → result matrix.
Variable fast_non_dominated_sort : matrix → list (list nat).
Variables (data : py_data) (objectives : list (string * bool)).
Variable params : gmap string Q.

(** The reservoir ids that [optimize] loops over. *)
Definition reservoir_count : nat :=
  match data with
  | Dict lens => default 1 (lens !! "model_results")
  | NotADict => 1
  end.
Definition reservoir_ids : list nat := seq 1 reservoir_count.

(** The problem that [optimize] builds in every iteration. *)
Definition scheduling_problem : _ReservoirSchedulingProblem :=
  new_problem (int (get params "horizon" 24)) (enabled_objectives objectives)
    (get params "Q_min" 0) (get params "Q_max" 1000) params.

(** The reference directions that [optimize] asks for in every
    iteration. *)
Definition reference_directions : result matrix :=
  get_reference_directions "das-dennis"
    (length (enabled_objectives objectives))
    (int (get params "reference_points" 12)).

(** The optimisation run of reservoir [i]: the value of [res]. *)
Definition attempt (i : nat) : result (option Result) :=
  ref_dirs ← reference_directions;
  minimize scheduling_problem
    (Build_NSGA3 (int (get params "population_size" 100)) ref_dirs)
    (int (get params "iterations" 100)) i.

(** The loop body of [optimize] for reservoir [i]. *)
Definition reservoir_step (i : nat) : io (option (DataFrame * strategy_info)) :=
  optimize_reservoir minimize get_reference_directions fast_non_dominated_sort
    (enabled_objectives objectives) params
    (int (get params "population_size" 100))
    (int (get params "iterations" 100))
    (int (get params "reference_points" 12))
    (int (get params "horizon" 24))
    (get params "Q_min" 0) (get params "Q_max" 1000) i.

(** Reservoir [i] fails: its run returns, without a population. *)
Definition fails_to_yield (i : nat) : Prop :=
  ∃ res, attempt i = Ok res ∧ population_of res = None.

(** Reservoir [i] succeeds: its iteration appends the frame [df]. *)
Definition succeeds_with (i : nat) (df : DataFrame) : Prop :=
  ∃ t strategy_info, reservoir_step i = (t, Ok (Some (df, strategy_info))).

(** The frame appended for reservoir [i], if any. *)
Definition frame_of (i : nat) : option DataFrame :=
  match reservoir_step i with
  | (_, Ok (Some (df, _))) => Some df
  | _ => None
  end.

(** The outcome, the trace and the final manager of the call. *)
Definition outcome (self : ScheduleManager) : result (option DataFrame) :=
  (optimize minimize get_reference_directions fast_non_dominated_sort
     self data objectives params).2.2.
Definition trace (self : ScheduleManager) : list event :=
  (optimize minimize get_reference_directions fast_non_dominated_sort
     self data objectives params).2.1.
Definition manager_after (self : ScheduleManager) : ScheduleManager :=
  (optimize minimize get_reference_directions fast_non_dominated_sort
     self data objectives params).1.
End OptimizeVocabulary.

(** ** Stand-ins for [minimize]

    With [n_gen = 1] the final population of an evolutionary run is its
    initial sample, evaluated once.  [one_generation X0] is that run for
    the sample [X0]: it ignores the algorithm settings and the seed. *)
Definition one_generation (X0 : matrix) (problem : _ReservoirSchedulingProblem)
    (algorithm : NSGA3) (n_gen : Z) (seed : nat) : result (option Result) :=
  F ← _evaluate problem X0;
  Ok (Some {| pop := Some {| pop_F := Some F; pop_X := Some X0 |} |}).

(** A run of [minimize] that returns a result object without population. *)
Definition empty_handed (problem : _ReservoirSchedulingProblem)
    (algorithm : NSGA3) (n_gen : Z) (seed : nat) : result (option Result) :=
  Ok (Some {| pop := None |}).

(** A run that yields the evaluated sample [X0] for an odd seed and
    comes back without population for an even one. *)
Definition odd_seeds_only (X0 : matrix) (problem : _ReservoirSchedulingProblem)
    (algorithm : NSGA3) (n_gen : Z) (seed : nat) : result (option Result) :=
  if Nat.odd seed then one_generation X0 problem algorithm n_gen seed
  else empty_handed problem algorithm n_gen seed.

(** ** Sample inputs *)

Definition sample_problem : _ReservoirSchedulingProblem :=
  new_problem 2 ["flood"; "power"; "supply"; "ecology"] 0 1000 ∅.

Definition sample_batch : matrix :=
  [[of_Z 500; of_Z 600]; [of_Z 0; of_Z 1000]].

(** An objective list with a name that [_evaluate] does not know. *)
Definition unknown_objective_problem : _ReservoirSchedulingProblem :=
  new_problem 2 ["flood"; "navigation"] 0 1000 ∅.

(** Bounds symmetric about zero and no explicit [Q_target]: the default
    target [(Q_min + Q_max) / 2] is zero. *)
Definition zero_target_problem : _ReservoirSchedulingProblem :=
  new_problem 2 ["flood"; "supply"] (-500) 500 ∅.

Definition zero_target_batch : matrix :=
  [[of_Z 100; of_Z 200]; [of_Z (-100); of_Z 300]].

Definition sample_schedule : list fnum := [of_Z 5; of_Z 3; of_Z 10].

(** A front of three members over the objectives power and flood. *)
Definition sample_front_X : matrix := [[of_Z 1]; [of_Z 2]; [of_Z 3]].
Definition sample_front_F : matrix :=
  [[of_Z 5; of_Z (-3)]; [of_Z 4; of_Z (-1)]; [of_Z 6; of_Z (-10)]].
Definition sample_active : list string := ["power"; "flood"].

(** A front over the single objective flood. *)
Definition single_front_X : matrix := [[of_Z 1]; [of_Z 2]].
Definition single_front_F : matrix := [[of_Z 3]; [of_Z 2]].

(** Sample calls: one decision step, flood and supply enabled. *)
Definition sample_objectives : list (string * bool) :=
  [("flood", true); ("power", false); ("supply", true); ("ecology", false)].
Definition sample_params : gmap string Q :=
  <["horizon" := 1%Q]>
    (<["population_size" := 2%Q]>
       (<["iterations" := 1%Q]> (<["reference_points" := 1%Q]> ∅))).
Definition sample_population : matrix := [[of_Z 500]; [of_Z 600]].
Definition three_reservoirs : py_data := Dict (<["model_results" := 3]> ∅).

Definition no_objectives : list (string * bool) :=
  [("flood", false); ("power", false); ("supply", false); ("ecology", false)].

(** A manager that already holds a result. *)
Definition used_manager : ScheduleManager :=
  {| results := Some {| columns := ["flood"]; rows := [[Float fzero]];
                        attrs := None |} |}.

(** The two reference directions for two objectives and one partition. *)
Definition sample_directions : matrix :=
  match das_dennis "das-dennis" 2 1 with Ok rd => rd | Raise _ => [] end.

(** ** Vocabulary for value ranges *)

(** [v] is a finite number between [lo] and [hi]. *)
Definition between (lo hi : Q) (v : fnum) : Prop :=
  ∃ q, v = Fin q ∧ (lo <= q <= hi)%Q.

(** Every entry of the decision vector [x] lies between [lo] and [hi]. *)
Definition within (lo hi : Q) (x : list fnum) : Prop := Forall (between lo hi) x.

(** What rounding cannot move: the sign of an objective value and, for the
    two ratios, the bound 1.  The flood value is non-negative, and at most 1
    when no release may exceed [Q_allowed p]; the power value is
    non-positive; the supply value is non-negative; the ecology value lies
    between 0 and 1.  The comparisons are those of the floating-point
    values: an infinite value is not excluded. *)
Definition objective_bounds (p : _ReservoirSchedulingProblem) (obj : string)
    (v : fnum) : Prop :=
  if decide (obj = "flood") then
    fleb fzero v = true ∧ ((Q_max p <= Q_allowed p)%Q → fleb v fone = true)
  else if decide (obj = "power") then fleb v fzero = true
  else if decide (obj = "supply") then fleb fzero v = true
  else fleb fzero v = true ∧ fleb v fone = true.

(** ** Vocabulary for [analyze_single_solution] *)

(** The value of objective [obj] recomputed from the diagnostics [a] of a
    schedule of [horizon] steps: the flood risk, minus the generated power,
    the supply deficit over [Q_target * horizon] and the ecology violations
    over [horizon]. *)
Definition objective_of_analysis (Q_target : Q) (horizon : nat) (obj : string)
    (a : analysis) : fnum :=
  if decide (obj = "flood") then flood_risk (a_constraint_satisfaction a)
  else if decide (obj = "power") then
    fneg (power_generation (a_performance_metrics a))
  else if decide (obj = "supply") then
    fdiv (supply_deficit (a_constraint_satisfaction a))
         (fmul (Fin Q_target) (of_nat horizon))
  else fdiv (ecology_violation (a_constraint_satisfaction a)) (of_nat horizon).

(** ** Vocabulary for [recommend_strategies] *)

(** The five strategy types, in the order of their blocks. *)
Definition strategy_types : list string :=
  map priority_type objective_names ++ ["balanced_strategy"].

(** The recommendation [rec] is the priority recommendation of objective
    [obj] read off column [c] of the front [F]: its member is at the position
    that [np.argmin] returns for the column. *)
Definition picked_by_argmin (F : matrix) (active : list string) (obj : string)
    (rec : recommendation) : Prop :=
  ∃ c col idx,
    list_find (λ o, o = obj) active = Some (c, obj) ∧
    column c F = Ok col ∧ np_argmin col = Ok idx ∧ solution_id rec = idx + 1.

(** ** Vocabulary for comparing schedules *)

(** The schedule [y] releases at least as much as [x] at every step; all
    releases are finite numbers. *)
Definition releases_le (x y : list fnum) : Prop :=
  Forall2 (λ a b, ∃ p q, a = Fin p ∧ b = Fin q ∧ (p <= q)%Q) x y.

(** ** pandas operations of the worker *)

(** The exceptions that reach the handler of the worker: an exception of
    the optimisation run, the [TypeError] of [len(None)] and the
    [KeyError] of a selection of columns, which names the missing labels. *)
Inductive exception :=
| OfOptimize (e : exn)
| TypeError (msg : string)
| KeyError (missing : list string).

Inductive completion (A : Type) :=
| Returned (a : A)
| Raised (e : exception).
Arguments Returned {A} a.
Arguments Raised {A} e.

Definition of_result {A} (r : result A) : completion A :=
  match r with
  | Ok a => Returned a
  | Raise e => Raised (OfOptimize e)
  end.

(** [df.empty]: an axis of length 0. *)
Definition frame_empty (df : DataFrame) : bool :=
  bool_decide (rows df = [] ∨ columns df = []).

(** [df.head()]: the first five rows. *)
Definition frame_head (df : DataFrame) : DataFrame :=
  {| columns := columns df; rows := take 5 (rows df); attrs := attrs df |}.

(** [df.copy()]: a frame with the same labels, values and [attrs]. *)
Definition frame_copy (df : DataFrame) : DataFrame := df.

(** The cells of [row] under the label [name]; a label that occurs twice
    selects both columns. *)
Definition cells_under (name : string) (labels : list string) (row : list cell)
    : list cell :=
  (filter (λ lc, lc.1 = name) (zip labels row)).*2.

(** [df[names]] for a list of labels: the columns in the order of [names],
    or a [KeyError] that names the labels the frame does not have. *)
Definition select_columns (names : list string) (df : DataFrame)
    : completion DataFrame :=
  let missing := filter (λ n, n ∉ columns df) names in
  if decide (missing = []) then
    Returned
      {| columns := concat (map (λ n, filter (λ c, c = n) (columns df)) names);
         rows := map (λ r, concat (map (λ n, cells_under n (columns df) r) names))
                     (rows df);
         attrs := attrs df |}
  else Raised (KeyError missing).

(** ** schedule_tab.py and main.py: the arguments of the worker *)

(** [ScheduleTab.get_objectives]: the four check boxes, as a dictionary in
    the order of its literal. *)
Definition get_objectives (chk_flood chk_power chk_supply chk_ecology : bool)
    : list (string * bool) :=
  [("flood", chk_flood); ("power", chk_power); ("supply", chk_supply);
   ("ecology", chk_ecology)].

(** The entry ['model_results'] of the dictionary [schedule_input] that
    [MainWindow.run_schedule_optimization] builds.  The data manager stores
    the model results as a dictionary with one entry per reservoir;
    [stored] is the number of its entries, 0 also when nothing has been
    stored.  The entry is that dictionary, seen through its [len], or
    [None] when the dictionary is empty ([if not input_data: input_data =
    None]).  The other entry, ['reservoir_count'], is not read by
    [optimize]. *)
Definition schedule_input (stored : nat) : option nat :=
  if decide (stored = 0) then None else Some stored.

(** ** compute_thread.py: [ComputeWorker.run_schedule_optimization] *)

(** The dictionary [schedule_results] sent with [schedule_completed]. *)
Record schedule_results := {
  optimization_results : DataFrame;
  objectives_frame : DataFrame;               (* 'objectives' *)
  pareto_front : DataFrame;
  schedule_strategy : option report;          (* [None] for the default [{}] *)
}.

(** The text of an error: a literal, or [prefix + str(e)]. *)
Inductive error_message :=
| Text (s : string)
| Formatted (prefix : string) (e : exception).

(** The Qt signals of the worker. *)
Inductive signal :=
| progress_updated (percent : Z) (message : string)
| schedule_completed (results : schedule_results)
| error_occurred (error_type : string) (message : error_message)
| task_finished.

(** What the worker does that can be observed: the signals it emits, what
    the optimiser prints and calls, and its own prints. *)
Inductive action :=
| Emit (s : signal)
| Run (e : event)
| PrintFrame (first_rows : DataFrame)          (* print("调度优化结果:", results_df.head()) *)
| PrintError (m : error_message)         (* print(error_msg) *)
| PrintTraceback (e : exception).        (* print(traceback.format_exc()) *)

(** The [except Exception as e] clause. *)
Definition except (e : exception) : list action :=
  let error_msg := Formatted "调度优化过程中发生错误: " e in
  [ PrintError error_msg; PrintTraceback e;
    Emit (error_occurred "schedule_optimization" error_msg) ].

Section Worker.
Variable minimize :
  _ReservoirSchedulingProblem → NSGA3 → Z → nat → result (option Result).
Variable get_reference_directions : string → nat → Z → result matrix.
Variable fast_non_dominated_sort : matrix → list (list nat).

(** [self.schedule_manager.optimize(schedule_input, objectives, params)]
    for the dictionary of the main window.  The dictionary is not empty
    and has the key ['model_results'], so [optimize] takes the [len] of
    that entry; for [None] this is a [TypeError], raised after the test on
    the objectives, which returns before [data] is read, and before
    anything else is printed. *)
Definition optimize_schedule_input (self : ScheduleManager)
    (model_results : option nat) (objectives : list (string * bool))
    (params : gmap string Q)
    : ScheduleManager * (list event * completion (option DataFrame)) :=
  match model_results with
  | None =>
      if decide (enabled_objectives objectives = []) then
        (self, ([Print "警告：未选择任何优化目标，已跳过优化。"], Returned None))
      else
        (self, ([], Raised (TypeError "object of type 'NoneType' has no len()")))
  | Some reservoir_count =>
      let '(self', (t, r)) :=
        optimize minimize get_reference_directions fast_non_dominated_sort
          self (Dict {[ "model_results" := reservoir_count ]}) objectives params in
      (self', (t, of_result r))
  end.

(** [ComputeWorker.run_schedule_optimization].  The worker holds the
    schedule manager [self]; [cancelled_early] and [cancelled_late] are
    the values that the two reads of [self._is_cancelled] find, which
    [cancel_task] sets from another thread.  The [finally] clause emits
    [task_finished] on every path. *)
Definition run_schedule_optimization (self : ScheduleManager)
    (objectives : list (string * bool)) (params : gmap string Q)
    (model_results : option nat) (cancelled_early cancelled_late : bool)
    : ScheduleManager * list action :=
  let finally (body : ScheduleManager * list action) :=
    (body.1, body.2 ++ [Emit task_finished]) in
  finally
    (let t := [Emit (progress_updated 0 "开始调度优化...")] in
     if cancelled_early then (self, t)
     else
       let t := t ++ [Emit (progress_updated 20 "初始化优化算法...")] in
       let '(self, (t_opt, r)) :=
         optimize_schedule_input self model_results objectives params in
       let t := t ++ map Run t_opt in
       match r with
       | Raised e => (self, t ++ except e)
       | Returned results_df =>
           if cancelled_late then (self, t)
           else
             let t := t ++ [Emit (progress_updated 80 "优化计算完成，处理结果...")] in
             match results_df with
             | Some results_df =>
                 if frame_empty results_df then
                   (self, t ++ [Emit (error_occurred "schedule_optimization"
                                        (Text "调度优化失败或无结果"))])
                 else
                   let t := t ++ [PrintFrame (frame_head results_df)] in
                   let strategy := attrs results_df in
                   match select_columns
                           ["flood"; "power"; "supply"; "ecology"; "reservoir_id"]
                           results_df with
                   | Raised e => (self, t ++ except e)
                   | Returned objectives_df =>
                       let schedule_results :=
                         {| optimization_results := results_df;
                            objectives_frame := frame_copy objectives_df;
                            pareto_front := frame_copy results_df;
                            schedule_strategy := strategy |} in
                       (self,
                        t ++ [ Emit (progress_updated 95 "调度优化完成，准备结果...");
                               Emit (schedule_completed schedule_results);
                               Emit (progress_updated 100 "调度优化完成") ])
                   end
             | None =>
                 (self, t ++ [Emit (error_occurred "schedule_optimization"
                                      (Text "调度优化失败或无结果"))])
             end
       end).
End Worker.

(** ** Vocabulary for the worker *)

(** The completion and error signals of a run, in order. *)
Definition verdicts (t : list action) : list signal :=
  omap (λ a, match a with
             | Emit (schedule_completed r) => Some (schedule_completed r)
             | Emit (error_occurred ty m) => Some (error_occurred ty m)
             | _ => None
             end) t.

(** The calls of [minimize] among the actions of the worker. *)
Definition worker_seeds (t : list action) : list nat :=
  seeds (omap (λ a, match a with Run e => Some e | _ => None end) t).

(** ** Vocabulary for the report *)

(** The coordination entry of the pair of strategies [s1], [s2]. *)
Definition opportunity (s1 s2 : strategy_info) : coordination_opportunity :=
  {| reservoir_pair := show (si_reservoir_id s1) +:+ "-" +:+ show (si_reservoir_id s2);
     co_analysis := "水库" +:+ show (si_reservoir_id s1) +:+ "和水库" +:+
                    show (si_reservoir_id s2) +:+ "的协调调度分析" |}.

Section ReportVocabulary.
Variable minimize :
  _ReservoirSchedulingProblem → NSGA3 → Z → nat → result (option Result).
Variable get_reference_directions : string → nat → Z → result matrix.
Variable fast_non_dominated_sort : matrix → list (list nat).
Variables (objectives : list (string * bool)) (params : gmap string Q).

(** The strategy record appended for reservoir [i], if any. *)
Definition strategy_of (i : nat) : option strategy_info :=
  match reservoir_step minimize get_reference_directions fast_non_dominated_sort
          objectives params i with
  | (_, Ok (Some (_, s))) => Some s
  | _ => None
  end.
End ReportVocabulary.

(** ** Vocabulary for the result table *)

(** The rows that a population with objective array [F] contributes to the
    table of reservoir [i]: the objective vector of each member, the
    reservoir id and the position of the member in the population. *)
Definition population_rows (i : nat) (F : matrix) : list (list cell) :=
  imap (λ t f, map Float f ++ [Int (Z.of_nat i); Int (Z.of_nat t)]) F.

Section TableVocabulary.
Variable minimize :
  _ReservoirSchedulingProblem → NSGA3 → Z → nat → result (option Result).
Variable get_reference_directions : string → nat → Z → result matrix.
Variables (objectives : list (string * bool)) (params : gmap string Q).

(** The rows of reservoir [i]: those of the final population of its run,
    none when the run comes back without a population. *)
Definition table_of (i : nat) : list (list cell) :=
  match attempt minimize get_reference_directions objectives params i with
  | Ok res =>
      match population_of res with
      | Some (F, _) => population_rows i F
      | None => []
      end
  | Raise _ => []
  end.
End TableVocabulary.

(** ** More sample inputs *)

(** An objective dictionary with an enabled key that [_evaluate] does not
    know. *)
Definition unknown_objectives : list (string * bool) :=
  [("flood", true); ("navigation", true)].

(** All four check boxes of the schedule tab ticked, and flood alone. *)
Definition all_objectives : list (string * bool) := get_objectives true true true true.
Definition flood_only : list (string * bool) := get_objectives true false false false.

(** A run that yields the evaluated sample [X0] for an odd seed and raises
    for an even one. *)
Definition even_seeds_raise (X0 : matrix) (problem : _ReservoirSchedulingProblem)
    (algorithm : NSGA3) (n_gen : Z) (seed : nat) : result (option Result) :=
  if Nat.odd seed then one_generation X0 problem algorithm n_gen seed
  else Raise (ValueError "the optimisation run failed").

(** One decision step, releases up to 800, flood and supply active, and a
    supply target of zero. *)
Definition no_target_problem : _ReservoirSchedulingProblem :=
  new_problem 1 ["flood"; "supply"] 0 800 (<["Q_target" := 0%Q]> ∅).

(** * Properties *)

(** ** The error monad *)

Lemma bind_Ok {A B} (m : result A) (f : A → result B) b :
  (m ≫= f) = Ok b ↔ ∃ a, m = Ok a ∧ f a = Ok b.
Proof.
  destruct m as [a|e]; simpl; split.
  - intros H. by exists a.
  - by intros (a' & [= <-] & H).
  - done.
  - by intros (a' & [=] & _).
Qed.

Lemma Ok_inj {A} (a b : A) : Ok a = Ok b → a = b.
Proof. congruence. Qed.

Lemma bind_raises {A B} (m : result A) (f : A → result B) :
  raises m → raises (m ≫= f).
Proof. intros [e ->]. by exists e. Qed.

Lemma raises_not_Ok {A} (m : result A) a : raises m → m ≠ Ok a.
Proof. intros [e ->]. done. Qed.

Lemma returns_or_raises {A} (m : result A) : (∃ a, m = Ok a) ∨ raises m.
Proof. destruct m as [a|e]; [left; by exists a | right; by exists e]. Qed.

Lemma traverse_Ok {A B} (f : A → result B) l bs :
  traverse f l = Ok bs ↔ Forall2 (λ a b, f a = Ok b) l bs.
Proof.
  revert bs. induction l as [|a l IH]; intros bs; simpl.
  - split; [intros [= <-]; constructor | by inversion 1].
  - rewrite bind_Ok. split.
    + intros (b & Hb & H). apply bind_Ok in H as (bs' & Hbs & [= <-]).
      constructor; [done | by apply IH].
    + inversion 1 as [|? b ? bs' Hb Hbs]; subst. exists b. split; [done|].
      apply bind_Ok. exists bs'. split; [by apply IH | done].
Qed.

Lemma traverse_total {A B} (f : A → result B) l :
  Forall (λ a, ∃ b, f a = Ok b) l → ∃ bs, traverse f l = Ok bs.
Proof.
  induction 1 as [|a l [b Hb] _ [bs Hbs]]; simpl.
  - by exists [].
  - exists (b :: bs). by rewrite Hb, Hbs.
Qed.

Lemma traverse_pure {A B} (g : A → B) l :
  traverse (λ a, Ok (g a)) l = Ok (map g l).
Proof. induction l as [|a l IH]; simpl; [done | by rewrite IH]. Qed.

Lemma traverse_then_map {A B C} (f : A → result B) (g : B → C) l :
  (traverse f l ≫= λ bs, Ok (map g bs)) = traverse (λ a, f a ≫= λ b, Ok (g b)) l.
Proof.
  induction l as [|a l IH]; simpl; [done|].
  destruct (f a) as [b|e]; simpl; [|done].
  rewrite <- IH. by destruct (traverse f l).
Qed.

Lemma traverse_length {A B} (f : A → result B) l bs :
  traverse f l = Ok bs → length bs = length l.
Proof. rewrite traverse_Ok. intros H. symmetry. by eapply Forall2_length. Qed.

Lemma traverse_lookup {A B} (f : A → result B) l bs i a :
  traverse f l = Ok bs → l !! i = Some a → ∃ b, bs !! i = Some b ∧ f a = Ok b.
Proof.
  rewrite traverse_Ok. intros H Ha.
  destruct (Forall2_lookup_l _ _ _ _ _ H Ha) as (b & Hb & Hf). eauto.
Qed.

(** ** Order facts on [fnum] *)

Lemma Qltb_lt a b : Qltb a b = true ↔ (a < b)%Q.
Proof.
  unfold Qltb. rewrite negb_true_iff, <- not_true_iff_false, Qle_bool_iff.
  split; [apply Qnot_le_lt | apply Qlt_not_le].
Qed.

Lemma Qltb_ge a b : Qltb a b = false ↔ (b <= a)%Q.
Proof. unfold Qltb. by rewrite negb_false_iff, Qle_bool_iff. Qed.

Lemma fleb_refl x : is_nan x = false → fleb x x = true.
Proof. destruct x; simpl; try done. intros _. apply Qle_bool_iff. lra. Qed.

Lemma fleb_trans x y z : fleb x y = true → fleb y z = true → fleb x z = true.
Proof.
  destruct x, y, z; simpl; try done.
  rewrite !Qle_bool_iff. lra.
Qed.

Lemma fltb_fleb x y : fltb x y = true → fleb x y = true.
Proof.
  destruct x, y; simpl; try done.
  rewrite Qltb_lt, Qle_bool_iff. lra.
Qed.

Lemma fltb_false_fleb x y :
  is_nan x = false → is_nan y = false → fltb x y = false → fleb y x = true.
Proof.
  destruct x, y; simpl; try done.
  intros _ _. by rewrite Qltb_ge, Qle_bool_iff.
Qed.

Lemma fleb_not_nan x y : fleb x y = true → is_nan x = false ∧ is_nan y = false.
Proof. by destruct x, y. Qed.

Lemma finite_not_nan x : is_finite x = true → is_nan x = false.
Proof. by destruct x. Qed.

(** ** [np.max] and [np.min] *)

Lemma foldl_maximum_nan v : foldl np_maximum NaN v = NaN.
Proof. induction v as [|x v IH]; [done | exact IH]. Qed.

Lemma foldl_minimum_nan v : foldl np_minimum NaN v = NaN.
Proof. induction v as [|x v IH]; [done | exact IH]. Qed.

Lemma np_maximum_nan_r a x : is_nan x = true → np_maximum a x = NaN.
Proof. unfold np_maximum. intros ->. by destruct (is_nan a). Qed.

Lemma np_maximum_not_nan a x :
  is_nan a = false → is_nan x = false →
  np_maximum a x = if fltb a x then x else a.
Proof. unfold np_maximum. by intros -> ->. Qed.

Lemma np_minimum_nan_r a x : is_nan x = true → np_minimum a x = NaN.
Proof. unfold np_minimum. intros ->. by destruct (is_nan a). Qed.

Lemma np_minimum_not_nan a x :
  is_nan a = false → is_nan x = false →
  np_minimum a x = if fltb x a then x else a.
Proof. unfold np_minimum. by intros -> ->. Qed.

Lemma foldl_maximum_spec v a :
  is_nan a = false →
  (¬ no_nan v ∧ foldl np_maximum a v = NaN) ∨
  (no_nan v ∧ (foldl np_maximum a v = a ∨ foldl np_maximum a v ∈ v) ∧
   fleb a (foldl np_maximum a v) = true ∧
   Forall (λ x, fleb x (foldl np_maximum a v) = true) v).
Proof.
  revert a. induction v as [|x v IH]; intros a Ha; simpl.
  - right. repeat split; [constructor | by left | by apply fleb_refl | constructor].
  - destruct (is_nan x) eqn:Hx.
    { left. rewrite np_maximum_nan_r, foldl_maximum_nan by done. split; [|done].
      intros Hn. inversion Hn; congruence. }
    rewrite np_maximum_not_nan by done.
    destruct (fltb a x) eqn:Hax.
    + destruct (IH x Hx) as [[Hn ->]|(Hn & Hm & Hle & Hall)].
      * left. split; [|done]. intros Hn'. apply Hn. by inversion Hn'.
      * right. repeat split.
        -- by constructor.
        -- right. destruct Hm as [->|Hm]; [left | by right].
        -- apply (fleb_trans _ x); [by apply fltb_fleb | done].
        -- by constructor.
    + destruct (IH a Ha) as [[Hn ->]|(Hn & Hm & Hle & Hall)].
      * left. split; [|done]. intros Hn'. apply Hn. by inversion Hn'.
      * right. repeat split.
        -- by constructor.
        -- destruct Hm as [->|Hm]; [by left | right; by right].
        -- done.
        -- constructor; [|done].
           apply (fleb_trans _ a); [by apply fltb_false_fleb | done].
Qed.

Lemma foldl_minimum_spec v a :
  is_nan a = false →
  (¬ no_nan v ∧ foldl np_minimum a v = NaN) ∨
  (no_nan v ∧ (foldl np_minimum a v = a ∨ foldl np_minimum a v ∈ v) ∧
   fleb (foldl np_minimum a v) a = true ∧
   Forall (λ x, fleb (foldl np_minimum a v) x = true) v).
Proof.
  revert a. induction v as [|x v IH]; intros a Ha; simpl.
  - right. repeat split; [constructor | by left | by apply fleb_refl | constructor].
  - destruct (is_nan x) eqn:Hx.
    { left. rewrite np_minimum_nan_r, foldl_minimum_nan by done. split; [|done].
      intros Hn. inversion Hn; congruence. }
    rewrite np_minimum_not_nan by done.
    destruct (fltb x a) eqn:Hax.
    + destruct (IH x Hx) as [[Hn ->]|(Hn & Hm & Hle & Hall)].
      * left. split; [|done]. intros Hn'. apply Hn. by inversion Hn'.
      * right. repeat split.
        -- by constructor.
        -- right. destruct Hm as [->|Hm]; [left | by right].
        -- apply (fleb_trans _ x); [done | by apply fltb_fleb].
        -- by constructor.
    + destruct (IH a Ha) as [[Hn ->]|(Hn & Hm & Hle & Hall)].
      * left. split; [|done]. intros Hn'. apply Hn. by inversion Hn'.
      * right. repeat split.
        -- by constructor.
        -- destruct Hm as [->|Hm]; [by left | right; by right].
        -- done.
        -- constructor; [|done].
           apply (fleb_trans _ a); [done | by apply fltb_false_fleb].
Qed.

Lemma np_max_spec v m : np_max v = Ok m → is_max v m.
Proof.
  destruct v as [|a v]; simpl; [done|]. intros [= <-].
  destruct (is_nan a) eqn:Ha.
  - destruct a; try done. left. rewrite foldl_maximum_nan. split; [|done].
    intros Hn. by inversion Hn.
  - destruct (foldl_maximum_spec v a Ha) as [[Hn Hm]|(Hn & Hm & Hle & Hall)].
    + left. split; [|done]. intros Hn'. apply Hn. by inversion Hn'.
    + right. repeat split.
      * by constructor.
      * destruct Hm as [->|Hm]; [left | by right].
      * by constructor.
Qed.

Lemma np_min_spec v m : np_min v = Ok m → is_min v m.
Proof.
  destruct v as [|a v]; simpl; [done|]. intros [= <-].
  destruct (is_nan a) eqn:Ha.
  - destruct a; try done. left. rewrite foldl_minimum_nan. split; [|done].
    intros Hn. by inversion Hn.
  - destruct (foldl_minimum_spec v a Ha) as [[Hn Hm]|(Hn & Hm & Hle & Hall)].
    + left. split; [|done]. intros Hn'. apply Hn. by inversion Hn'.
    + right. repeat split.
      * by constructor.
      * destruct Hm as [->|Hm]; [left | by right].
      * by constructor.
Qed.

Lemma np_max_total v : v ≠ [] → ∃ m, np_max v = Ok m.
Proof. destruct v; [done|]. intros _. simpl. eauto. Qed.

Lemma np_min_total v : v ≠ [] → ∃ m, np_min v = Ok m.
Proof. destruct v; [done|]. intros _. simpl. eauto. Qed.

Lemma count_true_map (t : fnum → bool) v : count_true (map t v) = count t v.
Proof.
  unfold count_true, count. induction v as [|x v IH]; [done|].
  simpl. destruct (t x); simpl; by rewrite IH.
Qed.

(** ** [_evaluate] *)

Lemma objective_names_cases obj :
  obj ∈ objective_names ↔
  obj = "flood" ∨ obj = "power" ∨ obj = "supply" ∨ obj = "ecology".
Proof. unfold objective_names. rewrite !elem_of_cons, elem_of_nil. tauto. Qed.

Lemma objective_column_known p obj X :
  obj ∈ objective_names →
  objective_column p obj X = traverse (objective_entry p obj) X.
Proof.
  intros Hobj. unfold objective_column, objective_entry.
  repeat case_decide.
  - apply traverse_then_map.
  - by rewrite traverse_pure, map_map.
  - by rewrite traverse_pure, map_map.
  - by rewrite traverse_pure, map_map.
  - apply objective_names_cases in Hobj. tauto.
Qed.

Lemma objective_column_unknown p obj X :
  obj ∉ objective_names → raises (objective_column p obj X).
Proof.
  rewrite objective_names_cases. intros Hobj.
  unfold objective_column. repeat case_decide; try tauto. by eexists.
Qed.

Lemma objective_entry_total p obj x :
  obj ∈ objective_names → x ≠ [] ∨ obj ≠ "flood" →
  ∃ v, objective_entry p obj x = Ok v.
Proof.
  intros Hobj Hx. unfold objective_entry. repeat case_decide; eauto.
  - destruct Hx as [Hx|Hx]; [|done].
    destruct (np_max_total x Hx) as [m ->]. simpl. eauto.
  - apply objective_names_cases in Hobj. tauto.
Qed.

Lemma objective_entry_formula p obj x v :
  n_var p = Z.of_nat (length x) →
  objective_entry p obj x = Ok v → objective_formula p obj x v.
Proof.
  intros Hn. unfold objective_entry, objective_formula. repeat case_decide.
  - intros Hr. apply bind_Ok in Hr as (m & Hm & [= <-]).
    exists m. split; [by apply np_max_spec | done].
  - by intros [= <-].
  - intros [= <-]. by rewrite Hn.
  - intros [= <-]. by rewrite count_true_map, Hn.
  - done.
Qed.

Lemma set_column_length j c M :
  length c = length M → length (set_column j c M) = length M.
Proof. intros H. unfold set_column. rewrite length_zip_with. lia. Qed.

Lemma set_column_lookup j c (M : matrix) r fr :
  set_column j c M !! r = Some fr ↔
  ∃ fr0 x, M !! r = Some fr0 ∧ c !! r = Some x ∧ fr = <[j := x]> fr0.
Proof.
  unfold set_column. rewrite lookup_zip_with_Some. split.
  - intros (fr0 & x & -> & H0 & Hx). by exists fr0, x.
  - intros (fr0 & x & H0 & Hx & ->). by exists fr0, x.
Qed.

Lemma set_column_rect k j c M : rect k M → rect k (set_column j c M).
Proof.
  unfold rect. rewrite !Forall_lookup. intros HM r fr Hfr.
  apply set_column_lookup in Hfr as (fr0 & x & H0 & _ & ->).
  rewrite length_insert. by eapply HM.
Qed.

Lemma evaluate_loop_spec p X k objs : ∀ i F,
  Forall (λ o, o ∈ objective_names) objs →
  Forall (λ x, x ≠ []) X ∨ "flood" ∉ objs →
  length F = length X → rect k F → i + length objs ≤ k →
  ∃ F', evaluate_loop p X i objs F = Ok F' ∧ length F' = length X ∧ rect k F' ∧
    ∀ r x, X !! r = Some x →
      ∃ fr fr', F !! r = Some fr ∧ F' !! r = Some fr' ∧
        (∀ j, j < i → fr' !! j = fr !! j) ∧
        (∀ j obj, objs !! j = Some obj →
           ∃ v, fr' !! (i + j) = Some v ∧ objective_entry p obj x = Ok v).
Proof.
  induction objs as [|obj objs IH]; intros i F Hobjs HX HlF HrF Hk.
  - exists F. simpl. repeat split; try done.
    intros r x Hx. destruct (lookup_lt_is_Some_2 F r) as [fr Hfr].
    { rewrite HlF. by eapply lookup_lt_Some. }
    exists fr, fr. repeat split; try done.
  - apply Forall_cons in Hobjs as [Hobj Hobjs]. simpl in *.
    rewrite objective_column_known by done.
    destruct (traverse_total (objective_entry p obj) X) as [c Hc].
    { destruct HX as [HX|HX].
      - eapply Forall_impl; [exact HX|]. intros x Hx.
        apply objective_entry_total; [done | by left].
      - apply Forall_forall. intros x _.
        apply objective_entry_total; [done | right].
        intros ->. apply HX. by left. }
    rewrite Hc. simpl.
    pose proof (traverse_length _ _ _ Hc) as Hlc.
    destruct (IH (S i) (set_column i c F)) as (F' & HF' & HlF' & HrF' & Hrows);
      try done.
    { destruct HX as [HX|HX]; [by left | right].
      intros Hin. apply HX. by right. }
    { rewrite set_column_length; lia. }
    { by apply set_column_rect. }
    { lia. }
    exists F'. repeat split; try done.
    intros r x Hx.
    destruct (Hrows r x Hx) as (fr1 & fr' & Hfr1 & Hfr' & Hlow & Hhigh).
    apply set_column_lookup in Hfr1 as (fr & v & Hfr & Hv & ->).
    exists fr, fr'. repeat split; try done.
    + intros j Hj. rewrite Hlow by lia. apply list_lookup_insert_ne. lia.
    + intros [|j] obj' Hobj'; simpl in Hobj'.
      * injection Hobj' as <-. exists v.
        destruct (traverse_lookup _ _ _ _ _ Hc Hx) as (v' & Hv' & Hentry).
        assert (v' = v) as -> by congruence.
        split; [|done]. rewrite Nat.add_0_r, Hlow by lia.
        apply list_lookup_insert_eq.
        unfold rect in HrF. rewrite Forall_lookup in HrF.
        rewrite (HrF _ _ Hfr). lia.
      * replace (i + S j) with (S i + j) by lia. by apply Hhigh.
Qed.

Lemma evaluate_loop_unknown p X objs : ∀ i F,
  ¬ Forall (λ o, o ∈ objective_names) objs → raises (evaluate_loop p X i objs F).
Proof.
  induction objs as [|obj objs IH]; intros i F Hobjs.
  - destruct Hobjs. constructor.
  - simpl. destruct (decide (obj ∈ objective_names)) as [Hobj|Hobj].
    + destruct (returns_or_raises (objective_column p obj X)) as [[c ->]|Hc].
      * simpl. apply IH. intros H. apply Hobjs. by constructor.
      * by apply bind_raises.
    + apply bind_raises. by apply objective_column_unknown.
Qed.

Lemma np_zeros_rect n k : rect k (np_zeros n k).
Proof.
  unfold rect, np_zeros. apply Forall_forall. intros r Hr.
  apply elem_of_replicate in Hr as [-> _]. by rewrite length_replicate.
Qed.

Lemma rect_nonempty k X : 0 < k → rect k X → Forall (λ x : list fnum, x ≠ []) X.
Proof.
  intros Hk HX. eapply Forall_impl; [exact HX|].
  intros x Hx ->. simpl in Hx. lia.
Qed.

(** The characterisation of [_evaluate] that the statements below share. *)
Lemma evaluate_entries p X :
  (0 < n_var p)%Z ∨ "flood" ∉ active_objs p →
  rect (Z.to_nat (n_var p)) X →
  Forall (λ o, o ∈ objective_names) (active_objs p) →
  ∃ F, _evaluate p X = Ok F ∧ length F = length X ∧
    rect (length (active_objs p)) F ∧
    ∀ r x, X !! r = Some x →
      ∃ fr, F !! r = Some fr ∧
        ∀ i obj, active_objs p !! i = Some obj →
          ∃ v, fr !! i = Some v ∧ objective_entry p obj x = Ok v.
Proof.
  intros Hn HX Hobjs. unfold _evaluate.
  destruct (evaluate_loop_spec p X (length (active_objs p)) (active_objs p) 0
              (np_zeros (length X) (length (active_objs p))))
    as (F & HF & HlF & HrF & Hrows); try done.
  - destruct Hn as [Hn|Hn]; [left | by right].
    eapply rect_nonempty; [|exact HX]. lia.
  - unfold np_zeros. by rewrite length_replicate.
  - apply np_zeros_rect.
  - exists F. repeat split; try done.
    intros r x Hx. destruct (Hrows r x Hx) as (_ & fr & _ & Hfr & _ & Hhigh).
    exists fr. split; [done|]. intros i obj Hobj. by apply Hhigh.
Qed.

(** C1.  For a batch [X] of decision vectors of length [n_var >= 1] and
    active objectives drawn from flood, power, supply and ecology,
    [_evaluate] returns a matrix with one row per decision vector and one
    column per active objective, whose entry in the row of [x] and the
    column of objective [obj] is given by the formula of [obj]:
    [max(x)/Q_allowed], [-sum(x*head)],
    [sum(max(Q_target - x, 0))/(Q_target*horizon)] and
    [count(x < Q_eco)/horizon].  An active objective outside that set makes
    [_evaluate] raise instead of returning, whatever the batch. *)
Theorem evaluate_objective_formulas p X :
  ((0 < n_var p)%Z → rect (Z.to_nat (n_var p)) X →
   Forall (λ o, o ∈ objective_names) (active_objs p) →
   ∃ F, _evaluate p X = Ok F ∧ length F = length X ∧
     rect (length (active_objs p)) F ∧
     ∀ r x i obj, X !! r = Some x → active_objs p !! i = Some obj →
       ∃ fr v, F !! r = Some fr ∧ fr !! i = Some v ∧ objective_formula p obj x v)
  ∧ (∀ obj, obj ∈ active_objs p → obj ∉ objective_names → raises (_evaluate p X)).
Proof.
  split.
  - intros Hn HX Hobjs.
    destruct (evaluate_entries p X (or_introl Hn) HX Hobjs)
      as (F & HF & HlF & HrF & Hrows).
    exists F. repeat split; try done.
    intros r x i obj Hx Hobj.
    destruct (Hrows r x Hx) as (fr & Hfr & Hcols).
    destruct (Hcols i obj Hobj) as (v & Hv & Hentry).
    exists fr, v. repeat split; try done.
    apply objective_entry_formula; [|done].
    unfold rect in HX. rewrite Forall_lookup in HX. rewrite (HX _ _ Hx). lia.
  - intros obj Hin Hout. apply evaluate_loop_unknown.
    rewrite Forall_forall. intros H. apply Hout. by apply H.
Qed.

Lemma evaluate_objective_formulas_witness :
  (∃ F, _evaluate sample_problem sample_batch = Ok F ∧
     length F = length sample_batch ∧
     rect (length (active_objs sample_problem)) F ∧
     ∀ r x i obj, sample_batch !! r = Some x →
       active_objs sample_problem !! i = Some obj →
       ∃ fr v, F !! r = Some fr ∧ fr !! i = Some v ∧
         objective_formula sample_problem obj x v)
  ∧ raises (_evaluate unknown_objective_problem sample_batch).
Proof.
  split.
  - apply (proj1 (evaluate_objective_formulas sample_problem sample_batch)).
    + reflexivity.
    + repeat constructor.
    + vm_compute. repeat constructor.
  - apply (proj2 (evaluate_objective_formulas unknown_objective_problem
                    sample_batch) "navigation").
    + vm_compute. repeat constructor.
    + rewrite objective_names_cases. intros [H|[H|[H|H]]]; discriminate.
Defined.

(** ** Finiteness of the objective values *)

Lemma fdiv_finite a b :
  is_finite (fdiv (Fin a) (Fin b)) = true ↔ ¬ (b == 0)%Q.
Proof.
  simpl. destruct (Qeq_bool b 0) eqn:Hb.
  - apply Qeq_bool_iff in Hb. split; [|done].
    destruct (Qeq_bool a 0); [done|]. by destruct (Qltb 0 a).
  - split; [|done]. intros _ Hb'. apply Qeq_bool_iff in Hb'. congruence.
Qed.

Lemma np_sum_finite v : finite_vec v → ∃ s, np_sum v = Fin s.
Proof.
  induction 1 as [|x v Hx _ [s Hs]]; simpl.
  - by exists 0%Q.
  - destruct x as [a| | |]; try done. rewrite Hs. by exists (a + s)%Q.
Qed.


Lemma finite_vec_no_nan v : finite_vec v → no_nan v.
Proof.
  intros Hv. eapply Forall_impl; [exact Hv|]. intros x. apply finite_not_nan.
Qed.







(** With the zero default target, [_evaluate] returns and the supply
    column holds [nan] (no deficit: [0/0]) and [inf] (a deficit over zero). *)
Example supply_division_by_zero :
  _evaluate zero_target_problem zero_target_batch =
    Ok [[Fin (200 # 500); NaN]; [Fin (300 # 500); PInf]].
Proof. reflexivity. Qed.

(** ** [analyze_single_solution] *)

Lemma fmul_fabs d : fmul (fabs d) (fabs d) = fmul d d.
Proof.
  destruct d as [[n dn]| | |]; try done. simpl. f_equal.
  unfold Qmult, Qabs. simpl. f_equal. lia.
Qed.

Lemma np_std_variance v : np_std v = Sqrt (variance v).
Proof.
  unfold np_std, variance, np_mean, mean. simpl.
  by rewrite (map_ext _ _ (λ x, fmul_fabs _)).
Qed.

(** C7.  For a non-empty decision vector [x], [analyze_single_solution]
    returns the flow statistics [min(x)], [max(x)], [mean(x)], [std(x)],
    [sum(x)]; the constraint values [min(x) - Q_min], [max(x) - Q_max],
    [max(x)/Q_allowed], [sum(max(Q_target - x, 0))] and [count(x < Q_eco)];
    and the performance metrics [sum(x*head)] and the fractions of steps
    with [x >= Q_target] and with [x >= Q_eco].  The function is a pure
    function of its arguments: the parameter dictionary is only read. *)
Theorem analyze_single_solution_diagnostics x f active_objs params :
  x ≠ [] →
  let Q_min := get params "Q_min" 0 in
  let Q_max := get params "Q_max" 1000 in
  let Q_allowed := get params "Q_allowed" Q_max in
  let Q_target := get params "Q_target" ((Q_min + Q_max) / 2) in
  let Q_eco := get params "Q_eco" Q_min in
  let Head := get params "head" 50 in
  ∃ a mn mx,
    analyze_single_solution x f active_objs params = Ok a ∧
    is_min x mn ∧ is_max x mx ∧
    a_flow_statistics a =
      {| min_flow := mn; max_flow := mx; mean_flow := mean x;
         std_flow := Sqrt (variance x); total_volume := np_sum x |} ∧
    a_constraint_satisfaction a =
      {| min_flow_violation := fsub mn (Fin Q_min);
         max_flow_violation := fsub mx (Fin Q_max);
         flood_risk := fdiv mx (Fin Q_allowed);
         supply_deficit :=
           np_sum (map (λ xt, np_maximum (fsub (Fin Q_target) xt) fzero) x);
         ecology_violation := of_nat (count (λ xt, fltb xt (Fin Q_eco)) x) |} ∧
    a_performance_metrics a =
      {| power_generation := np_sum (map (λ xt, fmul xt (Fin Head)) x);
         supply_reliability := fraction (λ xt, fgeb xt (Fin Q_target)) x;
         ecology_satisfaction := fraction (λ xt, fgeb xt (Fin Q_eco)) x |}.
Proof.
  intros Hx Q_min Q_max Q_allowed Q_target Q_eco Head.
  destruct (np_min_total x Hx) as [mn Hmn].
  destruct (np_max_total x Hx) as [mx Hmx].
  unfold analyze_single_solution. rewrite Hmn, Hmx. simpl.
  eexists _, mn, mx. split; [reflexivity|].
  split; [by apply np_min_spec|]. split; [by apply np_max_spec|].
  simpl. rewrite np_std_variance, !count_true_map. done.
Qed.

Lemma analyze_single_solution_diagnostics_witness :
  ∃ a mn mx,
    analyze_single_solution sample_schedule [] ["flood"] ∅ = Ok a ∧
    is_min sample_schedule mn ∧ is_max sample_schedule mx ∧
    a_flow_statistics a =
      {| min_flow := mn; max_flow := mx; mean_flow := mean sample_schedule;
         std_flow := Sqrt (variance sample_schedule);
         total_volume := np_sum sample_schedule |} ∧
    a_constraint_satisfaction a =
      {| min_flow_violation := fsub mn (Fin 0);
         max_flow_violation := fsub mx (Fin 1000);
         flood_risk := fdiv mx (Fin 1000);
         supply_deficit :=
           np_sum (map (λ xt, np_maximum (fsub (Fin ((0 + 1000) / 2)) xt) fzero)
                       sample_schedule);
         ecology_violation :=
           of_nat (count (λ xt, fltb xt (Fin 0)) sample_schedule) |} ∧
    a_performance_metrics a =
      {| power_generation := np_sum (map (λ xt, fmul xt (Fin 50)) sample_schedule);
         supply_reliability :=
           fraction (λ xt, fgeb xt (Fin ((0 + 1000) / 2))) sample_schedule;
         ecology_satisfaction := fraction (λ xt, fgeb xt (Fin 0)) sample_schedule |}.
Proof.
  exact (analyze_single_solution_diagnostics sample_schedule [] ["flood"] ∅
           ltac:(discriminate)).
Defined.

(** ** [np.argmin] *)

Lemma argmin_from_bound v : ∀ best bi i,
  bi < i → argmin_from best bi i v < i + length v.
Proof.
  induction v as [|x v IH]; intros best bi i Hbi; simpl; [lia|].
  destruct (is_nan best); [lia|].
  destruct (is_nan x || fltb x best).
  - specialize (IH x i (S i)). lia.
  - specialize (IH best bi (S i)). lia.
Qed.

Lemma np_argmin_bound v j : np_argmin v = Ok j → j < length v.
Proof.
  destruct v as [|x v]; simpl; [done|]. intros [= <-].
  pose proof (argmin_from_bound v x 0 1). lia.
Qed.

Lemma np_argmin_total v : v ≠ [] → ∃ j, np_argmin v = Ok j.
Proof. destruct v; [done|]. intros _. simpl. eauto. Qed.

Lemma argmin_from_min (l : list fnum) : ∀ v best bi i,
  no_nan l → drop i l = v → l !! bi = Some best →
  Forall (λ x, fleb best x = true) (take i l) →
  ∃ m, l !! argmin_from best bi i v = Some m ∧ Forall (λ x, fleb m x = true) l.
Proof.
  intros v. induction v as [|x v IH]; intros best bi i Hl Hv Hbest Hle; simpl.
  - exists best. split; [done|].
    rewrite <- (take_drop i l), Hv, app_nil_r. exact Hle.
  - assert (l !! i = Some x) as Hx.
    { rewrite <- (Nat.add_0_r i), <- lookup_drop, Hv. done. }
    assert (drop (S i) l = v) as Hv'.
    { rewrite <- (Nat.add_1_r i), <- drop_drop, Hv. done. }
    unfold no_nan in Hl. rewrite Forall_lookup in Hl.
    rewrite (Hl _ _ Hbest), (Hl _ _ Hx). simpl.
    destruct (fltb x best) eqn:Hlt.
    + apply (IH x i (S i)); try done.
      { by apply Forall_lookup. }
      rewrite (take_S_r _ _ _ Hx). apply Forall_app. split.
      * eapply Forall_impl; [exact Hle|]. intros y Hy. simpl in Hy.
        apply (fleb_trans _ best); [by apply fltb_fleb | done].
      * constructor; [|constructor]. apply fleb_refl. by eapply Hl.
    + apply (IH best bi (S i)); try done.
      { by apply Forall_lookup. }
      rewrite (take_S_r _ _ _ Hx). apply Forall_app. split; [done|].
      constructor; [|constructor].
      apply fltb_false_fleb; [by eapply Hl | by eapply Hl | done].
Qed.

Lemma np_argmin_min v j :
  no_nan v → np_argmin v = Ok j →
  ∃ m, v !! j = Some m ∧ Forall (λ x, fleb m x = true) v.
Proof.
  destruct v as [|x v]; simpl; [done|]. intros Hv [= <-].
  apply (argmin_from_min (x :: v) v x 0 1); try done.
  constructor; [|constructor]. apply fleb_refl. by inversion Hv.
Qed.

Lemma argmin_from_nan (l : list fnum) : ∀ v best bi i,
  drop i l = v → l !! bi = Some best →
  is_nan best = true ∨ Exists (λ x, is_nan x = true) v →
  l !! argmin_from best bi i v = Some NaN.
Proof.
  intros v. induction v as [|x v IH]; intros best bi i Hv Hbest Hnan; simpl.
  - destruct Hnan as [Hnan|Hnan]; [|by inversion Hnan]. by destruct best.
  - destruct (is_nan best) eqn:Hb; [by destruct best|].
    assert (l !! i = Some x) as Hx.
    { rewrite <- (Nat.add_0_r i), <- lookup_drop, Hv. done. }
    assert (drop (S i) l = v) as Hv'.
    { rewrite <- (Nat.add_1_r i), <- drop_drop, Hv. done. }
    destruct Hnan as [Hnan|Hnan]; [done|].
    destruct (is_nan x) eqn:Hnx; simpl.
    + apply IH; try done. by left.
    + apply Exists_cons in Hnan as [Hnan|Hnan]; [congruence|].
      destruct (fltb x best); apply IH; try done; by right.
Qed.

(** The entry at [np.argmin] is the minimum of the vector, in the sense of
    [np.min]: with a [nan] in the vector both are [nan]. *)
Lemma np_argmin_is_min v j :
  np_argmin v = Ok j → ∃ m, v !! j = Some m ∧ is_min v m.
Proof.
  intros Hj. destruct (decide (Forall (λ x, is_nan x = false) v)) as [Hv|Hv].
  - destruct (np_argmin_min v j Hv Hj) as (m & Hm & Hle).
    exists m. split; [done|]. right. split; [done|]. split; [|done].
    by eapply list_elem_of_lookup_2.
  - exists NaN. split; [|by left].
    destruct v as [|x v]; simpl in Hj; [done|]. apply Ok_inj in Hj as <-.
    apply (argmin_from_nan (x :: v) v x 0 1); try done.
    apply not_Forall_Exists in Hv; [|apply _].
    apply Exists_cons in Hv as [Hx|Hv].
    + left. simpl in Hx. by destruct (is_nan x).
    + right. eapply Exists_impl; [exact Hv|].
      intros y Hy. simpl in Hy. by destruct (is_nan y).
Qed.

(** ** [recommend_strategies]: the priority blocks *)

Lemma column_total k c (F : matrix) :
  rect k F → c < k → ∃ col, column c F = Ok col.
Proof.
  intros HF Hc. apply traverse_total.
  eapply Forall_impl; [exact HF|]. intros r Hr. simpl in Hr.
  destruct (lookup_lt_is_Some_2 r c) as [x Hx]; [lia|].
  rewrite Hx. eauto.
Qed.

Lemma column_lookup c (F : matrix) col i f :
  column c F = Ok col → F !! i = Some f → col !! i = f !! c.
Proof.
  intros Hcol Hf.
  destruct (traverse_lookup _ _ _ _ _ Hcol Hf) as (x & Hx & Hfx).
  rewrite Hx. simpl in Hfx. destruct (f !! c); [congruence | done].
Qed.

Lemma column_no_nan c (F : matrix) col :
  Forall no_nan F → column c F = Ok col → no_nan col.
Proof.
  intros HF Hcol. apply Forall_lookup. intros i x Hx.
  destruct (lookup_lt_is_Some_2 F i) as [f Hf].
  { rewrite <- (traverse_length _ _ _ Hcol). by eapply lookup_lt_Some. }
  rewrite (column_lookup _ _ _ _ _ Hcol Hf) in Hx.
  rewrite Forall_lookup in HF. specialize (HF _ _ Hf).
  unfold no_nan in HF. rewrite Forall_lookup in HF. by eapply HF.
Qed.

Lemma row_total {A} (M : list A) i : i < length M → ∃ r, row i M = Ok r ∧ M !! i = Some r.
Proof.
  intros Hi. destruct (lookup_lt_is_Some_2 M i Hi) as [r Hr].
  exists r. unfold row. by rewrite Hr.
Qed.

Lemma priority_block_absent name stype descr X F active recs :
  name ∉ active →
  priority_block name stype descr X F active recs = Ok recs.
Proof.
  intros Hname. unfold priority_block.
  destruct (list_find _ active) as [[c o]|] eqn:Hfind; [|done].
  apply list_find_Some in Hfind as (Ho & -> & _).
  destruct Hname. by eapply list_elem_of_lookup_2.
Qed.

Lemma priority_block_present name stype descr X F active recs :
  name ∈ active → F ≠ [] → length X = length F → rect (length active) F →
  ∃ c idx x f col,
    list_find (λ o, o = name) active = Some (c, name) ∧
    column c F = Ok col ∧ np_argmin col = Ok idx ∧
    X !! idx = Some x ∧ F !! idx = Some f ∧
    priority_block name stype descr X F active recs =
      Ok (recs ++ [ {| strategy_type := stype; description := descr;
                       solution_id := idx + 1; decision_variables := x;
                       objective_values := f |} ]).
Proof.
  intros Hname HF HX Hrect. unfold priority_block.
  destruct (list_find _ active) as [[c o]|] eqn:Hfind.
  - pose proof Hfind as Hfind'.
    apply list_find_Some in Hfind' as (Ho & -> & _).
    destruct (column_total (length active) c F) as [col Hcol]; [done| |].
    { by eapply lookup_lt_Some. }
    pose proof (traverse_length _ _ _ Hcol) as Hlen.
    destruct (np_argmin_total col) as [idx Hidx].
    { destruct col; [|done]. destruct F; [done|]. simpl in Hlen. lia. }
    pose proof (np_argmin_bound _ _ Hidx) as Hb.
    destruct (row_total X idx) as (x & Hrx & Hx); [lia|].
    destruct (row_total F idx) as (f & Hrf & Hf); [lia|].
    exists c, idx, x, f, col. rewrite Hcol. simpl. rewrite Hidx. simpl.
    by rewrite Hrx, Hrf.
  - apply list_find_None in Hfind. rewrite Forall_forall in Hfind.
    destruct (Hfind name Hname). done.
Qed.

Lemma argmin_minimises_column (F : matrix) c col idx f :
  column c F = Ok col → np_argmin col = Ok idx →
  F !! idx = Some f → minimises_column F c f.
Proof.
  intros Hcol Hidx Hf.
  destruct (np_argmin_is_min col idx Hidx) as (m & Hm & Hmin).
  exists m, col. split; [|by split].
  by rewrite <- (column_lookup _ _ _ _ _ Hcol Hf).
Qed.

(** ** [recommend_strategies]: the balanced block *)

Lemma foldl_zip_maximum_length k (M : matrix) : ∀ r,
  rect k M → length r = k → length (foldl (zip_with np_maximum) r M) = k.
Proof.
  induction M as [|r1 M IH]; intros r HM Hr; simpl; [done|].
  apply Forall_cons in HM as [Hr1 HM]. apply IH; [done|].
  rewrite length_zip_with. lia.
Qed.

Lemma foldl_zip_maximum_lookup k (M : matrix) j : ∀ r a,
  rect k M → length r = k → r !! j = Some a →
  ∃ col, column j M = Ok col ∧
    foldl (zip_with np_maximum) r M !! j = Some (foldl np_maximum a col).
Proof.
  induction M as [|r1 M IH]; intros r a HM Hr Ha; simpl.
  - by exists [].
  - apply Forall_cons in HM as [Hr1 HM].
    destruct (lookup_lt_is_Some_2 r1 j) as [a1 Ha1].
    { rewrite Hr1, <- Hr. by eapply lookup_lt_Some. }
    destruct (IH (zip_with np_maximum r r1) (np_maximum a a1)) as (col & Hcol & Hj).
    + done.
    + rewrite length_zip_with. lia.
    + apply lookup_zip_with_Some. by exists a, a1.
    + exists (a1 :: col). unfold column in *. simpl. rewrite Ha1. simpl.
      rewrite Hcol. simpl. by split.
Qed.

Lemma np_max_axis0_maxima k (F : matrix) :
  F ≠ [] → rect k F → ∃ maxima, np_max_axis0 F = Ok maxima ∧ column_maxima k F maxima.
Proof.
  destruct F as [|r M]; [done|]. intros _ HF.
  apply Forall_cons in HF as [Hr HM]. simpl.
  eexists. split; [reflexivity|]. split.
  - by apply foldl_zip_maximum_length.
  - intros j m Hm.
    destruct (lookup_lt_is_Some_2 r j) as [a Ha].
    { rewrite Hr, <- (foldl_zip_maximum_length k M r HM Hr).
      by eapply lookup_lt_Some. }
    destruct (foldl_zip_maximum_lookup k M j r a HM Hr Ha) as (col & Hcol & Hj).
    rewrite Hj in Hm. injection Hm as <-.
    exists (a :: col). split.
    + unfold column in *. simpl. rewrite Ha. simpl. by rewrite Hcol.
    + by apply np_max_spec.
Qed.

Lemma broadcast_same_length op (a b : list fnum) :
  length a = length b → broadcast op a b = Ok (zip_with op a b).
Proof. intros H. unfold broadcast. by rewrite decide_True. Qed.

Lemma traverse_broadcast op (M : matrix) w :
  rect (length w) M →
  traverse (λ r, broadcast op r w) M = Ok (map (λ r, zip_with op r w) M).
Proof.
  intros HM. apply traverse_Ok. apply Forall2_fmap_r, Forall_Forall2_diag.
  eapply Forall_impl; [exact HM|]. intros r Hr.
  by apply broadcast_same_length.
Qed.

Lemma zip_with_weights (g : fnum → fnum) (w : fnum) (f : list fnum) : ∀ maxima,
  length maxima = length f →
  zip_with fmul (zip_with fdiv f (map g maxima)) (replicate (length f) w) =
  zip_with (λ fj mj, fmul (fdiv fj (g mj)) w) f maxima.
Proof.
  induction f as [|fj f IH]; intros [|mj maxima] Hlen; simpl in *; try done.
  f_equal. apply IH. lia.
Qed.

Lemma weighted_sum_rows (F : matrix) active :
  F ≠ [] → rect (length active) F →
  ∃ maxima, column_maxima (length active) F maxima ∧
    weighted_sum F active =
      Ok (map (weighted_normalized_sum (length active) maxima) F).
Proof.
  intros HF Hrect.
  destruct (np_max_axis0_maxima _ F HF Hrect) as (maxima & Hmax & Hcm).
  exists maxima. split; [done|]. destruct Hcm as [Hlen _].
  unfold weighted_sum. rewrite Hmax. simpl.
  rewrite traverse_broadcast by (by rewrite length_map, Hlen). simpl.
  rewrite traverse_broadcast.
  2:{ rewrite length_map, length_replicate.
      apply Forall_fmap. eapply Forall_impl; [exact Hrect|].
      intros r Hr. simpl in *. rewrite length_zip_with, length_map. lia. }
  simpl. f_equal. rewrite !map_map. apply map_ext_in. intros f Hf.
  unfold weighted_normalized_sum. f_equal.
  unfold rect in Hrect. rewrite Forall_forall in Hrect.
  apply list_elem_of_In in Hf. specialize (Hrect f Hf). simpl in Hrect.
  rewrite <- Hrect.
  change (map (λ w, fdiv w (of_nat (length f))) (replicate (length f) fone))
    with ((λ w, fdiv w (of_nat (length f))) <$> replicate (length f) fone).
  rewrite fmap_replicate.
  apply zip_with_weights. lia.
Qed.

Lemma normalised_finite a m :
  is_finite a = true → is_finite m = true →
  is_finite (fdiv a (if feqb m fzero then fone else m)) = true.
Proof.
  destruct a as [a| | |], m as [m| | |]; try done. intros _ _.
  unfold feqb, fzero, fone. destruct (Qeq_bool m 0) eqn:Hm.
  - by apply fdiv_finite.
  - apply fdiv_finite. intros Hm'. apply Qeq_bool_iff in Hm'. congruence.
Qed.

Lemma weight_finite k : 0 < k → ∃ w, fdiv fone (of_nat k) = Fin w.
Proof.
  intros Hk. destruct (fdiv fone (of_nat k)) as [w| | |] eqn:Hw; eauto;
    exfalso;
    (assert (is_finite (fdiv fone (of_nat k)) = true) as Hfin;
     [ apply fdiv_finite; unfold Qeq; simpl; lia | by rewrite Hw in Hfin ]).
Qed.

Lemma column_maxima_finite k (F : matrix) maxima :
  all_finite F → column_maxima k F maxima → finite_vec maxima.
Proof.
  intros HF [_ Hcm]. apply Forall_lookup. intros j m Hm.
  destruct (Hcm j m Hm) as (col & Hcol & [[Hn _]|(_ & Hin & _)]).
  - destruct Hn. apply (column_no_nan j F); [|done].
    eapply Forall_impl; [exact HF|]. intros r. apply finite_vec_no_nan.
  - apply list_elem_of_lookup_1 in Hin as [i Hi].
    destruct (lookup_lt_is_Some_2 F i) as [f Hf].
    { rewrite <- (traverse_length _ _ _ Hcol). by eapply lookup_lt_Some. }
    rewrite (column_lookup _ _ _ _ _ Hcol Hf) in Hi.
    unfold all_finite in HF. rewrite Forall_lookup in HF. specialize (HF _ _ Hf).
    rewrite Forall_lookup in HF. by eapply HF.
Qed.

Lemma weighted_normalized_sum_finite k maxima f :
  0 < k → finite_vec maxima → finite_vec f →
  is_finite (weighted_normalized_sum k maxima f) = true.
Proof.
  intros Hk Hm Hf. unfold weighted_normalized_sum.
  destruct (weight_finite k Hk) as [w ->].
  match goal with |- is_finite (np_sum ?v) = true =>
    destruct (np_sum_finite v) as [s ->]; [|done] end.
  revert maxima Hm. induction Hf as [|fj f Hfj Hf IH]; intros maxima Hm.
  - constructor.
  - destruct Hm as [|mj maxima Hmj Hm]; simpl; constructor.
    + pose proof (normalised_finite fj mj Hfj Hmj) as Hn.
      by destruct (fdiv fj _).
    + by apply IH.
Qed.

Lemma balanced_block_skipped X F active recs :
  ¬ (1 < length active ∧ 0 < length F) →
  balanced_block X F active recs = Ok recs.
Proof. intros H. unfold balanced_block. by rewrite decide_False. Qed.

Lemma balanced_block_emitted X F active recs :
  1 < length active → F ≠ [] → length X = length F →
  rect (length active) F →
  ∃ maxima idx x f,
    column_maxima (length active) F maxima ∧
    np_argmin (map (weighted_normalized_sum (length active) maxima) F) = Ok idx ∧
    X !! idx = Some x ∧ F !! idx = Some f ∧
    balanced_block X F active recs =
      Ok (recs ++ [ {| strategy_type := "balanced_strategy";
                       description := "平衡策略：综合考虑所有目标";
                       solution_id := idx + 1; decision_variables := x;
                       objective_values := f |} ]).
Proof.
  intros Hk HF HX Hrect. unfold balanced_block.
  rewrite decide_True.
  2:{ split; [done|]. destruct F; [done | simpl; lia]. }
  destruct (weighted_sum_rows F active HF Hrect) as (maxima & Hcm & ->). simpl.
  destruct (np_argmin_total (map (weighted_normalized_sum (length active) maxima) F))
    as [idx Hidx].
  { by destruct F. }
  pose proof (np_argmin_bound _ _ Hidx) as Hb. rewrite length_map in Hb.
  destruct (row_total X idx) as (x & Hrx & Hx); [lia|].
  destruct (row_total F idx) as (f & Hrf & Hf); [lia|].
  exists maxima, idx, x, f. rewrite Hidx. simpl. by rewrite Hrx, Hrf.
Qed.

Lemma balanced_pick_is_min k (F : matrix) maxima idx f :
  np_argmin (map (weighted_normalized_sum k maxima) F) = Ok idx →
  F !! idx = Some f →
  is_min (map (weighted_normalized_sum k maxima) F)
         (weighted_normalized_sum k maxima f).
Proof.
  intros Hidx Hf. destruct (np_argmin_is_min _ _ Hidx) as (m & Hm & Hmin).
  rewrite list_lookup_fmap, Hf in Hm. by injection Hm as <-.
Qed.

Lemma balanced_pick_minimal k (F : matrix) maxima idx f :
  0 < k → all_finite F → column_maxima k F maxima →
  np_argmin (map (weighted_normalized_sum k maxima) F) = Ok idx →
  F !! idx = Some f →
  ∀ f', f' ∈ F →
    fleb (weighted_normalized_sum k maxima f)
         (weighted_normalized_sum k maxima f') = true.
Proof.
  intros Hk HF Hcm Hidx Hf f' Hf'.
  pose proof (column_maxima_finite k F maxima HF Hcm) as Hm.
  destruct (np_argmin_min (map (weighted_normalized_sum k maxima) F) idx)
    as (m & Hmi & Hle); [|done|].
  { apply Forall_fmap. eapply Forall_impl; [exact HF|]. intros r Hr. simpl.
    apply finite_not_nan. by apply weighted_normalized_sum_finite. }
  rewrite list_lookup_fmap, Hf in Hmi. injection Hmi as <-.
  rewrite Forall_fmap, Forall_forall in Hle. by apply Hle.
Qed.

(** ** [recommend_strategies]: the list of recommendations *)

Lemma priority_block_types name stype descr X F active recs recs' :
  priority_block name stype descr X F active recs = Ok recs' →
  recs' = recs ∨ ∃ rec, recs' = recs ++ [rec] ∧ strategy_type rec = stype.
Proof.
  unfold priority_block. destruct (list_find _ active) as [[c o]|].
  - intros H. apply bind_Ok in H as (col & _ & H).
    apply bind_Ok in H as (idx & _ & H). apply bind_Ok in H as (x & _ & H).
    apply bind_Ok in H as (f & _ & H). apply Ok_inj in H as <-.
    right. by eexists.
  - intros H. apply Ok_inj in H as <-. by left.
Qed.

Lemma priority_block_step name stype descr X F active recs :
  F ≠ [] → length X = length F → rect (length active) F →
  ∃ recs',
    priority_block name stype descr X F active recs = Ok recs' ∧
    map strategy_type recs' =
      map strategy_type recs ++ (if decide (name ∈ active) then [stype] else []) ∧
    recs `prefix_of` recs' ∧
    (name ∈ active →
     ∃ rec idx c, rec ∈ recs' ∧ strategy_type rec = stype ∧
       list_find (λ o, o = name) active = Some (c, name) ∧
       reports_member X F idx rec ∧
       minimises_column F c (objective_values rec)).
Proof.
  intros HF HX Hrect. destruct (decide (name ∈ active)) as [Hin|Hout].
  - destruct (priority_block_present name stype descr X F active recs)
      as (c & idx & x & f & col & Hfind & Hcol & Hidx & Hx & Hf & ->); try done.
    eexists. split; [reflexivity|]. split; [|split].
    + by rewrite map_app.
    + by apply prefix_app_r.
    + intros _. eexists _, idx, c. split; [|split; [|split; [|split]]].
      * apply elem_of_app. right. by apply list_elem_of_singleton.
      * done.
      * done.
      * by repeat split.
      * simpl. by eapply argmin_minimises_column.
  - rewrite priority_block_absent by done.
    exists recs. split; [done|]. split; [|split]; [by rewrite app_nil_r|done|done].
Qed.

Lemma expected_priority_types (active : list string) :
  (if decide ("flood" ∈ active) then ["flood_control_priority"] else []) ++
  (if decide ("power" ∈ active) then ["power_generation_priority"] else []) ++
  (if decide ("supply" ∈ active) then ["water_supply_priority"] else []) ++
  (if decide ("ecology" ∈ active) then ["ecology_priority"] else []) =
  map priority_type
      (List.filter (λ o, bool_decide (o ∈ active)) objective_names).
Proof.
  unfold objective_names. simpl.
  destruct (decide ("flood" ∈ active)), (decide ("power" ∈ active)),
    (decide ("supply" ∈ active)), (decide ("ecology" ∈ active));
    repeat (first [ rewrite bool_decide_eq_true_2 by done
                  | rewrite bool_decide_eq_false_2 by done ]);
    reflexivity.
Qed.

Lemma priority_types_distinct (active tail : list string) :
  tail = [] ∨ tail = ["balanced_strategy"] →
  NoDup (map priority_type
             (List.filter (λ o, bool_decide (o ∈ active)) objective_names)
         ++ tail).
Proof.
  intros Htail. rewrite <- expected_priority_types.
  destruct Htail as [-> | ->];
    destruct (decide ("flood" ∈ active)), (decide ("power" ∈ active)),
      (decide ("supply" ∈ active)), (decide ("ecology" ∈ active));
    compute_done.
Qed.

Lemma Forall_not_balanced_step name stype descr X F active recs recs' :
  stype ≠ "balanced_strategy" →
  priority_block name stype descr X F active recs = Ok recs' →
  Forall (λ r, strategy_type r ≠ "balanced_strategy") recs →
  Forall (λ r, strategy_type r ≠ "balanced_strategy") recs'.
Proof.
  intros Hst Hblock Hrecs.
  destruct (priority_block_types _ _ _ _ _ _ _ _ Hblock) as [->|(rec & -> & Hrec)];
    [done|].
  apply Forall_app. split; [done|]. constructor; [congruence | constructor].
Qed.

(** The recommendations before the balanced block are priority picks. *)
Lemma recommend_strategies_split X F active rid recs :
  recommend_strategies X F active rid = Ok recs →
  ∃ pri, Forall (λ r, strategy_type r ≠ "balanced_strategy") pri ∧
         balanced_block X F active pri = Ok recs.
Proof.
  unfold recommend_strategies. intros H.
  apply bind_Ok in H as (r1 & H1 & H). apply bind_Ok in H as (r2 & H2 & H).
  apply bind_Ok in H as (r3 & H3 & H). apply bind_Ok in H as (r4 & H4 & H).
  exists r4. split; [|done].
  eapply Forall_not_balanced_step; [|exact H4|]; [done|].
  eapply Forall_not_balanced_step; [|exact H3|]; [done|].
  eapply Forall_not_balanced_step; [|exact H2|]; [done|].
  eapply Forall_not_balanced_step; [|exact H1|]; [done|].
  constructor.
Qed.

Lemma recommend_strategies_returns X F active rid :
  F ≠ [] → length X = length F → rect (length active) F →
  ∃ recs, recommend_strategies X F active rid = Ok recs.
Proof.
  intros HF HX Hrect. unfold recommend_strategies.
  destruct (priority_block_step "flood" "flood_control_priority"
              "防洪优先策略：最小化最大下泄流量" X F active [])
    as (r1 & -> & _); try done; cbn [mbind result_bind].
  destruct (priority_block_step "power" "power_generation_priority"
              "发电优先策略：最大化发电量" X F active r1)
    as (r2 & -> & _); try done; cbn [mbind result_bind].
  destruct (priority_block_step "supply" "water_supply_priority"
              "供水优先策略：最小化供水缺口" X F active r2)
    as (r3 & -> & _); try done; cbn [mbind result_bind].
  destruct (priority_block_step "ecology" "ecology_priority"
              "生态优先策略：最大化生态基流满足度" X F active r3)
    as (r4 & -> & _); try done; cbn [mbind result_bind].
  destruct (decide (1 < length active)) as [Hk|Hk].
  - destruct (balanced_block_emitted X F active r4)
      as (maxima & idx & x & f & _ & _ & _ & _ & ->); try done. eauto.
  - rewrite balanced_block_skipped by tauto. eauto.
Qed.

(** C4.  With at least two active objectives and a non-empty front,
    [recommend_strategies] emits exactly one balanced recommendation, as
    its last entry; it carries a member of the front whose equal-weighted
    sum of objectives, each normalised by its column maximum (a zero
    maximum counting as 1), is the minimum of these sums over the front:
    for finite objective values it is less than or equal to the sum of
    every member of the front.  With fewer than two active objectives no
    balanced recommendation is emitted. *)
Theorem balanced_recommendation X F active rid :
  (1 < length active → F ≠ [] → length X = length F →
   rect (length active) F →
   ∃ pri b maxima idx,
     recommend_strategies X F active rid = Ok (pri ++ [b]) ∧
     Forall (λ r, strategy_type r ≠ "balanced_strategy") pri ∧
     strategy_type b = "balanced_strategy" ∧
     reports_member X F idx b ∧
     column_maxima (length active) F maxima ∧
     is_min (map (weighted_normalized_sum (length active) maxima) F)
            (weighted_normalized_sum (length active) maxima (objective_values b)) ∧
     (all_finite F →
      ∀ f, f ∈ F →
        fleb (weighted_normalized_sum (length active) maxima (objective_values b))
             (weighted_normalized_sum (length active) maxima f) = true))
  ∧ (length active < 2 →
     ∀ recs, recommend_strategies X F active rid = Ok recs →
       Forall (λ r, strategy_type r ≠ "balanced_strategy") recs).
Proof.
  split.
  - intros Hk HF HX Hrect.
    destruct (recommend_strategies_returns X F active rid) as [recs Hrecs];
      try done.
    destruct (recommend_strategies_split _ _ _ _ _ Hrecs) as (pri & Hpri & Hbal).
    destruct (balanced_block_emitted X F active pri)
      as (maxima & idx & x & f & Hcm & Hidx & Hx & Hf & Hbal'); try done.
    rewrite Hbal' in Hbal. apply Ok_inj in Hbal as <-.
    eexists pri, _, maxima, idx. split; [exact Hrecs|].
    split; [done|]. split; [done|]. split; [by repeat split|]. split; [done|].
    simpl. split; [by eapply balanced_pick_is_min|].
    intros Hfin. eapply balanced_pick_minimal; try done. lia.
  - intros Hk recs Hrecs.
    destruct (recommend_strategies_split _ _ _ _ _ Hrecs) as (pri & Hpri & Hbal).
    rewrite balanced_block_skipped in Hbal by lia.
    by apply Ok_inj in Hbal as <-.
Qed.

Lemma balanced_recommendation_witness :
  (∃ pri b maxima idx,
     recommend_strategies sample_front_X sample_front_F sample_active 1
       = Ok (pri ++ [b]) ∧
     Forall (λ r, strategy_type r ≠ "balanced_strategy") pri ∧
     strategy_type b = "balanced_strategy" ∧
     reports_member sample_front_X sample_front_F idx b ∧
     column_maxima (length sample_active) sample_front_F maxima ∧
     is_min (map (weighted_normalized_sum (length sample_active) maxima)
                 sample_front_F)
            (weighted_normalized_sum (length sample_active) maxima
               (objective_values b)) ∧
     ∀ f, f ∈ sample_front_F →
       fleb (weighted_normalized_sum (length sample_active) maxima
               (objective_values b))
            (weighted_normalized_sum (length sample_active) maxima f) = true)
  ∧ match recommend_strategies single_front_X single_front_F ["flood"] 1 with
    | Ok recs => Forall (λ r, strategy_type r ≠ "balanced_strategy") recs
    | Raise _ => True
    end.
Proof.
  split.
  - destruct (proj1 (balanced_recommendation sample_front_X sample_front_F
                       sample_active 1))
      as (pri & b & maxima & idx & Hrecs & Hpri & Hb & Hidx & Hmax & Hmin & Hle).
    + simpl. lia.
    + discriminate.
    + reflexivity.
    + repeat constructor.
    + exists pri, b, maxima, idx.
      split; [exact Hrecs|]. split; [exact Hpri|]. split; [exact Hb|].
      split; [exact Hidx|]. split; [exact Hmax|]. split; [exact Hmin|].
      apply Hle. repeat constructor.
  - destruct (recommend_strategies single_front_X single_front_F ["flood"] 1)
      as [recs|e] eqn:Hrecs; [|exact I].
    apply (proj2 (balanced_recommendation single_front_X single_front_F
                    ["flood"] 1)); [simpl; lia | exact Hrecs].
Defined.

(** C4, as stated, fails on a front with [nan].  With a supply target of
    zero the supply value of both members of the sample population is
    [0/0]; every weighted sum is [nan], the balanced recommendation is the
    first member, and its sum is not less than or equal to the sum of the
    other member. *)
Lemma balanced_recommendation_counterexample :
  ∃ F pri b s0 s1,
    _evaluate no_target_problem sample_population = Ok F ∧
    recommend_strategies sample_population F (active_objs no_target_problem) 1
      = Ok (pri ++ [b]) ∧
    strategy_type b = "balanced_strategy" ∧ solution_id b = 1 ∧
    weighted_sum F (active_objs no_target_problem) = Ok [s0; s1] ∧
    fleb s0 s1 = false.
Proof.
  destruct (_evaluate no_target_problem sample_population) as [F|] eqn:HF;
    [|vm_compute in HF; discriminate].
  exists F. vm_compute in HF. injection HF as <-.
  eexists [_; _], _, _, _. split; [reflexivity|].
  split; [vm_compute; reflexivity|]. split; [reflexivity|].
  split; [reflexivity|]. split; [vm_compute; reflexivity | reflexivity].
Qed.

Lemma elem_of_prefix {A} (l1 l2 : list A) x : l1 `prefix_of` l2 → x ∈ l1 → x ∈ l2.
Proof. intros [k ->] Hx. apply elem_of_app. by left. Qed.

(** C5.  On a non-empty front, [recommend_strategies] emits one priority
    recommendation for every active objective among flood, power, supply
    and ecology, in that canonical order, followed by the balanced
    recommendation when two or more objectives are active; no strategy
    type occurs twice.  The priority recommendation of an objective
    carries the 1-based index, the decision vector and the objective
    vector of a member of the front whose value in the column of that
    objective is the minimum of the column. *)
Theorem priority_recommendations X F active rid :
  F ≠ [] → length X = length F → rect (length active) F →
  ∃ recs,
    recommend_strategies X F active rid = Ok recs ∧
    map strategy_type recs =
      map priority_type
          (List.filter (λ o, bool_decide (o ∈ active)) objective_names)
      ++ (if decide (1 < length active) then ["balanced_strategy"] else []) ∧
    NoDup (map strategy_type recs) ∧
    ∀ obj, obj ∈ objective_names → obj ∈ active →
      ∃ rec idx c,
        rec ∈ recs ∧ strategy_type rec = priority_type obj ∧
        list_find (λ o, o = obj) active = Some (c, obj) ∧
        reports_member X F idx rec ∧
        minimises_column F c (objective_values rec).
Proof.
  intros HF HX Hrect. unfold recommend_strategies.
  destruct (priority_block_step "flood" "flood_control_priority"
              "防洪优先策略：最小化最大下泄流量" X F active [])
    as (r1 & -> & T1 & P1 & M1); try done; cbn [mbind result_bind].
  destruct (priority_block_step "power" "power_generation_priority"
              "发电优先策略：最大化发电量" X F active r1)
    as (r2 & -> & T2 & P2 & M2); try done; cbn [mbind result_bind].
  destruct (priority_block_step "supply" "water_supply_priority"
              "供水优先策略：最小化供水缺口" X F active r2)
    as (r3 & -> & T3 & P3 & M3); try done; cbn [mbind result_bind].
  destruct (priority_block_step "ecology" "ecology_priority"
              "生态优先策略：最大化生态基流满足度" X F active r3)
    as (r4 & -> & T4 & P4 & M4); try done; cbn [mbind result_bind].
  assert (∃ r5 tail,
            balanced_block X F active r4 = Ok r5 ∧ r4 `prefix_of` r5 ∧
            map strategy_type r5 = map strategy_type r4 ++ tail ∧
            tail = (if decide (1 < length active)
                    then ["balanced_strategy"] else []))
    as (r5 & tail & -> & P5 & T5 & Htail).
  { destruct (decide (1 < length active)) as [Hk|Hk].
    - destruct (balanced_block_emitted X F active r4)
        as (maxima & idx & x & f & _ & _ & _ & _ & ->); try done.
      eexists _, _. split; [reflexivity|]. split; [by apply prefix_app_r|].
      split; [|reflexivity]. by rewrite map_app.
    - rewrite balanced_block_skipped by tauto.
      exists r4, []. split; [done|]. split; [done|]. by rewrite app_nil_r. }
  assert (map strategy_type r5 =
          map priority_type
              (List.filter (λ o, bool_decide (o ∈ active)) objective_names)
          ++ tail) as Htypes.
  { rewrite T5, T4, T3, T2, T1, <- expected_priority_types. simpl.
    by rewrite <- !app_assoc. }
  exists r5. split; [done|]. split; [by rewrite Htypes, Htail|]. split.
  { rewrite Htypes. apply priority_types_distinct.
    rewrite Htail. case_decide; [by right | by left]. }
  intros obj Hobj Hin. apply objective_names_cases in Hobj.
  destruct Hobj as [-> | [-> | [-> | ->]]].
  - destruct (M1 Hin) as (rec & idx & c & Hrec & Hty & Hfind & Hrep & Hmin).
    exists rec, idx, c.
    split; [|split; [done|split; [done|split; [done|exact Hmin]]]].
    repeat first [ assumption | eapply elem_of_prefix; [eassumption|] ].
  - destruct (M2 Hin) as (rec & idx & c & Hrec & Hty & Hfind & Hrep & Hmin).
    exists rec, idx, c.
    split; [|split; [done|split; [done|split; [done|exact Hmin]]]].
    repeat first [ assumption | eapply elem_of_prefix; [eassumption|] ].
  - destruct (M3 Hin) as (rec & idx & c & Hrec & Hty & Hfind & Hrep & Hmin).
    exists rec, idx, c.
    split; [|split; [done|split; [done|split; [done|exact Hmin]]]].
    repeat first [ assumption | eapply elem_of_prefix; [eassumption|] ].
  - destruct (M4 Hin) as (rec & idx & c & Hrec & Hty & Hfind & Hrep & Hmin).
    exists rec, idx, c.
    split; [|split; [done|split; [done|split; [done|exact Hmin]]]].
    repeat first [ assumption | eapply elem_of_prefix; [eassumption|] ].
Qed.

Lemma priority_recommendations_witness :
  ∃ recs,
    recommend_strategies sample_front_X sample_front_F sample_active 1 = Ok recs ∧
    map strategy_type recs =
      map priority_type
          (List.filter (λ o, bool_decide (o ∈ sample_active)) objective_names)
      ++ (if decide (1 < length sample_active) then ["balanced_strategy"] else []) ∧
    NoDup (map strategy_type recs) ∧
    ∀ obj, obj ∈ objective_names → obj ∈ sample_active →
      ∃ rec idx c,
        rec ∈ recs ∧ strategy_type rec = priority_type obj ∧
        list_find (λ o, o = obj) sample_active = Some (c, obj) ∧
        reports_member sample_front_X sample_front_F idx rec ∧
        minimises_column sample_front_F c (objective_values rec).
Proof.
  apply (priority_recommendations sample_front_X sample_front_F sample_active 1).
  - discriminate.
  - reflexivity.
  - repeat constructor.
Defined.

(** ** The reference directions *)

Lemma binomial_zero_r n : binomial n 0 = 1.
Proof. by destruct n. Qed.

Lemma binomial_gt n : ∀ k, n < k → binomial n k = 0.
Proof.
  induction n as [|n IH]; intros [|k] Hk; simpl; try lia.
  rewrite !IH by lia. done.
Qed.

Lemma binomial_pascal n k :
  binomial (S n) (S k) = binomial n k + binomial n (S k).
Proof. done. Qed.

(** [binomial] is the binomial coefficient: [C(n, k) k! (n - k)! = n!]. *)
Lemma binomial_factorial n : ∀ k,
  k ≤ n → binomial n k * (fact k * fact (n - k)) = fact n.
Proof.
  induction n as [|n IH]; intros [|k] Hk; try lia.
  - simpl. lia.
  - rewrite Nat.sub_0_r, binomial_zero_r. simpl fact at 1. lia.
  - rewrite binomial_pascal. destruct (decide (k = n)) as [->|Hne].
    + rewrite (binomial_gt n (S n)) by lia. specialize (IH n (le_n n)).
      rewrite Nat.sub_diag in *. change (fact 0) with 1 in *.
      change (fact (S n)) with (S n * fact n). nia.
    + pose proof (IH k ltac:(lia)) as IH1. pose proof (IH (S k) ltac:(lia)) as IH2.
      replace (n - k) with (S (n - S k)) in IH1 by lia.
      replace (S n - S k) with (S (n - S k)) by lia.
      change (fact (S ?m)) with (S m * fact m) in *.
      nia.
Qed.

(** The count of the lists built by one level of the recursion, by the
    hockey-stick identity. *)
Lemma first_part_count (d : nat) (count_d : nat → nat) :
  (∀ total, count_d total = binomial (total + d) d) →
  ∀ total,
    list_sum (map (λ i, count_d (total - i)) (seq 0 (S total))) =
    binomial (total + S d) (S d).
Proof.
  intros Hd. induction total as [|t IH].
  - change (count_d 0 + 0 = binomial (S d) (S d)).
    rewrite Hd, binomial_pascal, (binomial_gt d (S d)) by lia.
    replace (0 + d) with d by lia. lia.
  - change (seq 0 (S (S t))) with (0 :: seq 1 (S t)).
    rewrite <- seq_shift, map_cons, map_map. simpl list_sum.
    change (λ x, count_d (S t - S x)) with (λ x, count_d (t - x)).
    simpl in IH. rewrite IH, Hd.
    replace (S t + S d) with (S (t + S d)) by lia.
    rewrite binomial_pascal. replace (S t + d) with (t + S d) by lia. done.
Qed.

Lemma compositions_length d : ∀ total,
  length (compositions d total) = binomial (total + d) d.
Proof.
  induction d as [|d IH]; intros total.
  - simpl. by rewrite binomial_zero_r.
  - cbn [compositions]. rewrite length_flat_map.
    rewrite <- (first_part_count d (λ t, length (compositions d t)) IH total).
    f_equal. apply map_ext. intros i. by rewrite length_map.
Qed.

Lemma compositions_parts d : ∀ total c,
  c ∈ compositions d total → length c = S d ∧ list_sum c = total.
Proof.
  induction d as [|d IH]; intros total c Hc.
  - simpl in Hc. apply list_elem_of_singleton in Hc as ->. simpl. lia.
  - cbn [compositions] in Hc. apply list_elem_of_In, in_flat_map in Hc
      as (i & Hi & Hc).
    apply in_seq in Hi. apply in_map_iff in Hc as (c' & <- & Hc').
    apply list_elem_of_In, IH in Hc' as [Hlen Hsum]. simpl. lia.
Qed.

Lemma scaled_sum (p : Z) (c : list nat) :
  (1 ≤ p)%Z →
  ∃ s, np_sum (map (λ ci, fdiv (of_nat ci) (of_Z p)) c) = Fin s ∧
       (s == inject_Z (Z.of_nat (list_sum c)) / inject_Z p)%Q.
Proof.
  intros Hp.
  assert (¬ (inject_Z p == 0)%Q) as Hp0.
  { unfold Qeq. simpl. lia. }
  induction c as [|ci c (s & Hs & Hq)].
  - exists 0%Q. split; [done|]. simpl. by field.
  - change (np_sum (map (λ ci, fdiv (of_nat ci) (of_Z p)) (ci :: c)))
      with (fadd (fdiv (of_nat ci) (of_Z p))
                 (np_sum (map (λ ci, fdiv (of_nat ci) (of_Z p)) c))).
    rewrite Hs. unfold of_nat, of_Z. cbn [fdiv].
    destruct (Qeq_bool (inject_Z p) 0) eqn:Hz.
    { apply Qeq_bool_iff in Hz. done. }
    eexists. split; [reflexivity|].
    change (list_sum (ci :: c)) with (ci + list_sum c).
    rewrite Hq, Nat2Z.inj_add, inject_Z_plus. by field.
Qed.

(** C6.  For [p >= 1] partitions and [m >= 1] objectives the generator
    returns exactly [C(p + m - 1, m - 1)] points; every point has [m]
    coordinates and its coordinates sum to 1.  The generator is a function
    of [m] and [p] alone: no seed or other state enters it. *)
Theorem reference_directions_simplex (m : nat) (p : Z) :
  1 ≤ m → (1 ≤ p)%Z →
  ∃ points,
    generate m p = Ok points ∧
    length points = binomial (Z.to_nat p + m - 1) (m - 1) ∧
    ∀ point, point ∈ points →
      length point = m ∧ ∃ s, np_sum point = Fin s ∧ (s == 1)%Q.
Proof.
  intros Hm Hp. unfold generate. rewrite decide_False by lia.
  eexists. split; [reflexivity|]. split.
  - rewrite length_map, compositions_length. f_equal. lia.
  - intros point Hpoint. apply list_elem_of_fmap in Hpoint as (c & -> & Hc).
    apply compositions_parts in Hc as [Hlen Hsum]. split.
    + rewrite length_map. lia.
    + destruct (scaled_sum p c Hp) as (s & Hs & Hq).
      exists s. split; [done|]. rewrite Hq, Hsum, Z2Nat.id by lia.
      field. unfold Qeq. simpl. lia.
Qed.

Lemma reference_directions_simplex_witness :
  ∃ points,
    generate 4 12 = Ok points ∧
    length points = binomial (Z.to_nat 12 + 4 - 1) (4 - 1) ∧
    ∀ point, point ∈ points →
      length point = 4 ∧ ∃ s, np_sum point = Fin s ∧ (s == 1)%Q.
Proof. apply (reference_directions_simplex 4 12); lia. Defined.

(** The default setting of the optimiser, 12 partitions, gives 13, 91 and
    455 directions for two, three and four objectives. *)
Example reference_direction_counts :
  binomial 13 1 = 13 ∧ binomial 14 2 = 91 ∧ binomial 15 3 = 455.
Proof. done. Qed.

(** ** [ScheduleManager.optimize] *)

Lemma assign_column_rows_length name vals df :
  length vals = length (rows df) →
  length (rows (assign_column name vals df)) = length (rows df).
Proof.
  intros Hlen. unfold assign_column.
  case_decide; simpl; rewrite length_zip_with; lia.
Qed.

Section OptimizeFacts.
Variable minimize :
  _ReservoirSchedulingProblem → NSGA3 → Z → nat → result (option Result).
Variable get_reference_directions : string → nat → Z → result matrix.
Variable fast_non_dominated_sort : matrix → list (list nat).
Variables (data : py_data) (objectives : list (string * bool)).
Variable params : gmap string Q.

Abbreviation step := (reservoir_step minimize get_reference_directions
                    fast_non_dominated_sort objectives params).
Abbreviation run := (attempt minimize get_reference_directions objectives params).
Abbreviation directions := (reference_directions get_reference_directions
                          objectives params).
Abbreviation problem := (scheduling_problem objectives params).
Abbreviation ids := (reservoir_ids data).
Abbreviation loop := (reservoir_loop minimize get_reference_directions
                    fast_non_dominated_sort
                    (enabled_objectives objectives) params
                    (int (get params "population_size" 100))
                    (int (get params "iterations" 100))
                    (int (get params "reference_points" 12))
                    (int (get params "horizon" 24))
                    (get params "Q_min" 0) (get params "Q_max" 1000)).

(** The shape of one iteration, by the outcome of its library calls. *)
Lemma reservoir_step_shape i :
  match directions with
  | Raise e => step i = ([Print (start_line i)], Raise e)
  | Ok rd =>
      let call := Minimize problem
                    (Build_NSGA3 (int (get params "population_size" 100)) rd)
                    (int (get params "iterations" 100)) i in
      match run i with
      | Raise e => step i = ([Print (start_line i); call], Raise e)
      | Ok res =>
          match population_of res with
          | None =>
              step i = ([Print (start_line i); call; Print (failed_line i)],
                        Ok None)
          | Some (F, X) =>
              (∃ e, step i = ([Print (start_line i); call], Raise e)) ∨
              (∃ df s, step i = ([Print (start_line i); call;
                                  Print (done_line i)], Ok (Some (df, s))) ∧
                 ∃ df0, new_frame F (enabled_objectives objectives) = Ok df0 ∧
                   df = assign_column "time_step"
                          (map (λ t, Int (Z.of_nat t)) (seq 0 (length F)))
                          (assign_column "reservoir_id"
                             (replicate (length F) (Int (Z.of_nat i))) df0))
          end
      end
  end.
Proof.
  unfold attempt, reservoir_step, optimize_reservoir, reference_directions,
    scheduling_problem, call_minimize, lift, print.
  destruct (get_reference_directions _ _ _) as [rd|e]; [|reflexivity].
  cbn [mbind result_bind io_bind mret io_ret app].
  destruct (minimize _ _ _ _) as [res|e]; [|reflexivity].
  destruct res as [[[[[F|] [X|]]|]]|]; try reflexivity.
  cbn [population_of].
  destruct (new_frame F _) as [df0|e] eqn:Hframe; [|left; by eexists].
  cbn [mbind result_bind io_bind mret io_ret app].
  destruct (build_reservoir_strategy _ _ _ _ _ _ _) as [s|e];
    [|left; by eexists].
  right. eexists _, s. split; [reflexivity|].
  exists df0. split; [done|].
  assert (length (rows df0) = length F) as Hrows.
  { unfold new_frame in Hframe. case_decide; [|done].
    apply Ok_inj in Hframe as <-. simpl. by rewrite length_map. }
  rewrite assign_column_rows_length by (by rewrite length_replicate).
  by rewrite Hrows.
Qed.

Lemma fails_to_yield_step i :
  fails_to_yield minimize get_reference_directions objectives params i ↔
  ∃ t, step i = (t, Ok None).
Proof.
  unfold fails_to_yield. pose proof (reservoir_step_shape i) as Hshape.
  destruct directions as [rd|e] eqn:Hd.
  - cbn zeta in Hshape. destruct (run i) as [res|e] eqn:Hrun.
    + destruct (population_of res) as [[F X]|] eqn:Hpop.
      * split.
        -- intros (res' & [= <-] & Hpop'). congruence.
        -- intros [t Ht]. destruct Hshape as [[e He]|(df & s & Hs & _)];
             congruence.
      * split; [eauto|]. intros _. by exists res.
    + split; [by intros (res & [=] & _)|]. intros [t Ht]. congruence.
  - assert (run i = Raise e) as Hrun.
    { unfold attempt. by rewrite Hd. }
    split; [|intros [t Ht]; congruence].
    intros (res & Hres & _). congruence.
Qed.

Lemma failed_step_trace i :
  fails_to_yield minimize get_reference_directions objectives params i →
  ∃ call, is_minimize call = true ∧
    step i = ([Print (start_line i); call; Print (failed_line i)], Ok None).
Proof.
  intros (res & Hres & Hpop). pose proof (reservoir_step_shape i) as Hshape.
  destruct directions as [rd|e] eqn:Hd.
  - cbn zeta in Hshape. rewrite Hres, Hpop in Hshape.
    eexists. split; [|exact Hshape]. reflexivity.
  - unfold attempt in Hres. by rewrite Hd in Hres.
Qed.

(** The calls of [minimize] in the trace of one iteration: a single call,
    on the shared problem and algorithm, seeded with the reservoir id. *)
Lemma reservoir_step_calls i :
  ∃ prints, Forall (λ e, is_minimize e = false) prints ∧
    (step i).1 =
      Print (start_line i) ::
      match directions with
      | Ok rd =>
          Minimize problem
            (Build_NSGA3 (int (get params "population_size" 100)) rd)
            (int (get params "iterations" 100)) i :: prints
      | Raise _ => []
      end.
Proof.
  pose proof (reservoir_step_shape i) as Hshape.
  destruct directions as [rd|e] eqn:Hd.
  - cbn zeta in Hshape. destruct (run i) as [res|e] eqn:Hrun.
    + destruct (population_of res) as [[F X]|] eqn:Hpop.
      * destruct Hshape as [[e ->]|(df & s & -> & _)].
        -- by exists [].
        -- exists [Print (done_line i)]. split; [|done]. by repeat constructor.
      * rewrite Hshape. exists [Print (failed_line i)].
        split; [|done]. by repeat constructor.
    + rewrite Hshape. by exists [].
  - rewrite Hshape. by exists [].
Qed.

Lemma seeds_app t1 t2 : seeds (t1 ++ t2) = seeds t1 ++ seeds t2.
Proof. unfold seeds. apply omap_app. Qed.

Lemma seeds_prints t : Forall (λ e, is_minimize e = false) t → seeds t = [].
Proof.
  induction 1 as [|e t He _ IH]; [done|].
  destruct e; [|done]. exact IH.
Qed.

Lemma reservoir_step_seeds i :
  seeds (step i).1 = match directions with Ok _ => [i] | Raise _ => [] end.
Proof.
  destruct (reservoir_step_calls i) as (prints & Hprints & ->).
  destruct directions; [|done].
  change (seeds (Print (start_line i) :: ?c :: prints)) with (i :: seeds prints).
  by rewrite seeds_prints.
Qed.

(** The loop: every iteration returns and the frames of the successful
    ones are appended in order, or the loop stops at the first
    iteration that raises. *)
Lemma reservoir_loop_spec l : ∀ acc_r acc_s,
  (Forall (λ i, ∃ r, (step i).2 = Ok r) l ∧
   ∃ ss, loop l acc_r acc_s =
           (concat (map (λ i, (step i).1) l),
            Ok (acc_r ++ omap (frame_of minimize get_reference_directions
                                 fast_non_dominated_sort objectives params) l,
                acc_s ++ ss)))
  ∨ (∃ pre i post e,
       l = pre ++ i :: post ∧ (step i).2 = Raise e ∧
       loop l acc_r acc_s =
         (concat (map (λ i, (step i).1) (pre ++ [i])), Raise e)).
Proof.
  induction l as [|i l IH]; intros acc_r acc_s.
  - left. split; [constructor|]. exists []. simpl. by rewrite !app_nil_r.
  - cbn [reservoir_loop]. unfold frame_of at 1.
    change (optimize_reservoir _ _ _ _ _ _ _ _ _ _ _ i) with (step i).
    cbn [omap list_omap].
    change (reservoir_step _ _ _ _ _ i) with (step i).
    destruct (step i) as [t [[[df s]|]|e]] eqn:Hstep.
    + destruct (IH (acc_r ++ [df]) (acc_s ++ [s]))
        as [[Hall (ss & Hloop)]|(pre & j & post & e & -> & Hj & Hloop)].
      * left. split.
        { constructor; [|done]. rewrite Hstep. by eexists. }
        exists (s :: ss). cbn [mbind io_bind]. rewrite Hloop.
        cbn [map concat]. rewrite Hstep. cbn [fst].
        by rewrite <- !app_assoc.
      * right. exists (i :: pre), j, post, e. split; [done|]. split; [done|].
        cbn [mbind io_bind]. rewrite Hloop.
        cbn [app map concat]. by rewrite Hstep.
    + destruct (IH acc_r acc_s)
        as [[Hall (ss & Hloop)]|(pre & j & post & e & -> & Hj & Hloop)].
      * left. split.
        { constructor; [|done]. rewrite Hstep. by eexists. }
        exists ss. cbn [mbind io_bind]. rewrite Hloop.
        cbn [map concat]. by rewrite Hstep.
      * right. exists (i :: pre), j, post, e. split; [done|]. split; [done|].
        cbn [mbind io_bind]. rewrite Hloop.
        cbn [app map concat]. by rewrite Hstep.
    + right. exists [], i, l, e. split; [done|]. rewrite Hstep.
      split; [done|]. cbn [mbind io_bind app map concat]. rewrite Hstep.
      cbn [fst]. by rewrite app_nil_r.
Qed.

(** [optimize] in terms of its loop. *)
Lemma optimize_spec self t r :
  enabled_objectives objectives ≠ [] →
  loop ids [] [] = (t, r) →
  ∃ pre post,
    Forall (λ e, is_minimize e = false) pre ∧
    Forall (λ e, is_minimize e = false) post ∧
    trace minimize get_reference_directions fast_non_dominated_sort
      data objectives params self = pre ++ t ++ post ∧
    match r with
    | Raise e =>
        outcome minimize get_reference_directions fast_non_dominated_sort
          data objectives params self = Raise e ∧
        manager_after minimize get_reference_directions fast_non_dominated_sort
          data objectives params self = self
    | Ok ([], _) =>
        post = [Print "所有水库优化均失败"] ∧
        outcome minimize get_reference_directions fast_non_dominated_sort
          data objectives params self = Ok None ∧
        manager_after minimize get_reference_directions fast_non_dominated_sort
          data objectives params self = self
    | Ok (first :: others, all_strategies) =>
        ∃ df,
          outcome minimize get_reference_directions fast_non_dominated_sort
            data objectives params self = Ok (Some df) ∧
          manager_after minimize get_reference_directions
            fast_non_dominated_sort data objectives params self
            = {| results := Some df |} ∧
          columns df = columns first ∧
          rows df = concat (map rows (first :: others)) ∧
          attrs df = Some (build_comprehensive_strategy_report all_strategies
                             (reservoir_count data)
                             (enabled_objectives objectives) params)
    end.
Proof.
  intros Hactive Hloop.
  unfold trace, outcome, manager_after, optimize.
  rewrite decide_False by done.
  assert (∃ pre, Forall (λ e, is_minimize e = false) pre ∧
                 count_reservoirs data = (pre, Ok (reservoir_count data)))
    as (pre & Hpre & ->).
  { unfold count_reservoirs, reservoir_count.
    destruct data as [|lens]; [by exists []|].
    destruct (lens !! "model_results") as [n|]; [|by exists []].
    eexists. split; [|reflexivity]. by repeat constructor. }
  cbn [mbind io_bind]. unfold reservoir_ids in Hloop. rewrite Hloop.
  destruct r as [[[|first others] ss]|e];
    cbn [mbind io_bind mret io_ret fst snd].
  - exists pre, [Print "所有水库优化均失败"].
    split; [done|]. split; [by repeat constructor|].
    split; [by rewrite app_nil_r, app_assoc|]. done.
  - exists pre, [ Print ("多水库调度优化完成，共 " +:+
                          show (length (first :: others)) +:+ " 个水库");
                   Print "调度策略报告已生成" ].
    split; [done|]. split; [by repeat constructor|].
    split; [by rewrite app_nil_r, app_assoc|].
    eexists. split; [reflexivity|]. split; [reflexivity|]. done.
  - exists pre, []. split; [done|]. split; [constructor|].
    split; [by rewrite app_nil_r|]. done.
Qed.

Lemma optimize_no_objective self :
  enabled_objectives objectives = [] →
  optimize minimize get_reference_directions fast_non_dominated_sort
    self data objectives params
  = (self, ([Print "警告：未选择任何优化目标，已跳过优化。"], Ok None)).
Proof. intros Hactive. unfold optimize. by rewrite decide_True. Qed.

Lemma loop_seeds l :
  seeds (concat (map (λ i, (step i).1) l)) =
    match directions with Ok _ => l | Raise _ => [] end.
Proof.
  induction l as [|i l IH]; simpl.
  - by destruct directions.
  - rewrite seeds_app, reservoir_step_seeds, IH. by destruct directions.
Qed.

Lemma step_returns_directions i r :
  (step i).2 = Ok r → ∃ rd, directions = Ok rd.
Proof.
  pose proof (reservoir_step_shape i) as Hshape.
  destruct directions as [rd|e]; [eauto|]. rewrite Hshape. done.
Qed.

Lemma frame_of_None i r :
  (step i).2 = Ok r →
  frame_of minimize get_reference_directions fast_non_dominated_sort
    objectives params i = None ↔
  fails_to_yield minimize get_reference_directions objectives params i.
Proof.
  intros Hr. rewrite fails_to_yield_step. unfold frame_of.
  destruct (step i) as [t [[[df s]|]|e]]; simpl in Hr; try done.
  - split; [done|]. by intros [t' [=]].
  - split; [eauto|done].
Qed.

Lemma omap_nil_iff {A B} (f : A → option B) l :
  omap f l = [] ↔ Forall (λ a, f a = None) l.
Proof.
  induction l as [|a l IH]; simpl.
  - split; [constructor | done].
  - destruct (f a) eqn:Hfa.
    + split; [done|]. inversion 1; congruence.
    + rewrite IH. split; [by constructor | by inversion 1].
Qed.

(** The trace of the loop is the concatenation of the traces of the
    iterations it ran, a prefix of the reservoir ids. *)
Lemma loop_trace_prefix t r :
  loop ids [] [] = (t, r) →
  ∃ ran, ran `prefix_of` ids ∧ t = concat (map (λ i, (step i).1) ran) ∧
         (∀ a, r = Ok a → ran = ids).
Proof.
  intros Hloop.
  destruct (reservoir_loop_spec ids [] [])
    as [[Hall (ss & Hspec)]|(pre & i & post & e & Hids & Hi & Hspec)];
    rewrite Hspec in Hloop; injection Hloop as <- <-.
  - exists ids. done.
  - exists (pre ++ [i]). split; [|split; [done|done]].
    exists post. by rewrite Hids, <- app_assoc.
Qed.

(** An iteration whose run yields a population, and whose frame and
    strategy record can be built, appends both. *)
Lemma reservoir_step_success i res F X df0 s :
run i = Ok res → population_of res = Some (F, X) →
new_frame F (enabled_objectives objectives) = Ok df0 →
build_reservoir_strategy fast_non_dominated_sort X F i
  (enabled_objectives objectives) params (int (get params "horizon" 24)) = Ok s →
succeeds_with minimize get_reference_directions fast_non_dominated_sort
  objectives params i
  (assign_column "time_step" (map (λ t, Int (Z.of_nat t)) (seq 0 (length F)))
     (assign_column "reservoir_id" (replicate (length F) (Int (Z.of_nat i))) df0)).
Proof.
intros Hrun Hpop Hframe Hbuild.
pose proof (reservoir_step_shape i) as Hshape.
unfold attempt in Hrun. destruct directions as [rd|e] eqn:Hd; [|done].
cbn zeta in Hshape. unfold attempt in Hshape. rewrite Hd in Hshape.
cbn [mbind result_bind] in Hrun, Hshape. rewrite Hrun, Hpop in Hshape.
destruct Hshape as [[e He]|(df & s' & Hs & df0' & Hframe' & ->)].
- exfalso. revert He.
  unfold reservoir_step, optimize_reservoir, call_minimize, lift, print.
  unfold reference_directions in Hd. rewrite Hd.
  cbn [mbind result_bind io_bind mret io_ret app].
  unfold scheduling_problem in Hrun. rewrite Hrun.
  destruct res as [[[[[F'|] [X'|]]|]]|]; try done.
  cbn [population_of] in Hpop. injection Hpop as -> ->.
  rewrite Hframe. cbn [mbind result_bind io_bind mret io_ret app].
  rewrite Hbuild. done.
- assert (df0' = df0) as -> by congruence. eexists _, s'. exact Hs.
Qed.

Lemma pareto_solutions_from_returns active xfs : ∀ i,
Forall (λ xf : list fnum * list fnum, xf.1 ≠ []) xfs →
∃ sols, pareto_solutions_from i xfs active params = Ok sols.
Proof.
induction xfs as [|[x f] xfs IH]; intros i Hxfs; simpl; [eauto|].
apply Forall_cons in Hxfs as [Hx Hxfs]. simpl in Hx.
destruct (np_min_total x Hx) as [mn Hmn].
destruct (np_max_total x Hx) as [mx Hmx].
unfold analyze_single_solution. rewrite Hmn, Hmx.
cbn [mbind result_bind]. destruct (IH (S i) Hxfs) as [sols ->].
cbn [mbind result_bind]. eauto.
Qed.

(** On a well-formed population, and with a sorting routine that returns
    a non-empty first front of valid row indices, the strategy record of
    a reservoir can be built. *)
Lemma build_reservoir_strategy_returns X F i active horizon front0 fronts :
F ≠ [] → rect (length active) F → length X = length F →
Forall (λ x : list fnum, x ≠ []) X →
fast_non_dominated_sort F = front0 :: fronts →
front0 ≠ [] → Forall (λ j, j < length F) front0 →
∃ s, build_reservoir_strategy fast_non_dominated_sort X F i active params horizon
     = Ok s.
Proof.
intros HF Hrect HX Hrows Hsort Hfront Hvalid.
unfold build_reservoir_strategy, get_pareto_front. rewrite Hsort.
cbn [mbind result_bind].
destruct (traverse_total (λ j, row j X) front0) as [pX HpX].
{ eapply Forall_impl; [exact Hvalid|]. intros j Hj. simpl in Hj.
  destruct (row_total X j) as (x & Hx & _); [lia | eauto]. }
destruct (traverse_total (λ j, row j F) front0) as [pF HpF].
{ eapply Forall_impl; [exact Hvalid|]. intros j Hj. simpl in Hj.
  destruct (row_total F j) as (f & Hf & _); [lia | eauto]. }
rewrite HpX, HpF. cbn [mbind result_bind].
pose proof (traverse_length _ _ _ HpX) as HlX.
pose proof (traverse_length _ _ _ HpF) as HlF.
assert (Forall (λ x : list fnum, x ≠ []) pX) as HpXrows.
{ apply Forall_lookup. intros n x Hx.
  apply traverse_Ok in HpX.
  destruct (Forall2_lookup_r _ _ _ _ _ HpX Hx) as (j & _ & Hj).
  unfold row in Hj. destruct (X !! j) as [x'|] eqn:Hx'; [|done].
  apply Ok_inj in Hj as ->. rewrite Forall_lookup in Hrows. by eapply Hrows. }
assert (rect (length active) pF) as HpFrect.
{ apply Forall_lookup. intros n f Hf.
  apply traverse_Ok in HpF.
  destruct (Forall2_lookup_r _ _ _ _ _ HpF Hf) as (j & _ & Hj).
  unfold row in Hj. destruct (F !! j) as [f'|] eqn:Hf'; [|done].
  apply Ok_inj in Hj as ->. unfold rect in Hrect.
  rewrite Forall_lookup in Hrect. by eapply Hrect. }
destruct (pareto_solutions_from_returns active (zip pX pF) 0) as [sols ->].
{ apply Forall_lookup. intros n [x f] Hxf. simpl.
  apply lookup_zip_with_Some in Hxf as (x' & f' & [= -> ->] & Hx & _).
  rewrite Forall_lookup in HpXrows. by eapply HpXrows. }
cbn [mbind result_bind].
destruct (recommend_strategies_returns pX pF active i) as [recs ->].
- destruct pF; [|done]. destruct front0; [done | simpl in HlF; lia].
- lia.
- done.
- cbn [mbind result_bind]. eauto.
Qed.

Lemma well_formed_population_succeeds i res F X front0 fronts :
run i = Ok res → population_of res = Some (F, X) →
F ≠ [] → rect (length (enabled_objectives objectives)) F →
length X = length F → Forall (λ x : list fnum, x ≠ []) X →
fast_non_dominated_sort F = front0 :: fronts →
front0 ≠ [] → Forall (λ j, j < length F) front0 →
∃ df, succeeds_with minimize get_reference_directions fast_non_dominated_sort
        objectives params i df.
Proof.
intros Hrun Hpop HF Hrect HX Hrows Hsort Hfront Hvalid.
destruct (build_reservoir_strategy_returns X F i (enabled_objectives objectives)
            (int (get params "horizon" 24)) front0 fronts) as [s Hs]; try done.
eexists. eapply (reservoir_step_success i res F X); try done.
unfold new_frame. by rewrite decide_True.
Qed.

(** The columns of the frame of a successful reservoir: one per active
    objective, then [reservoir_id] and [time_step]. *)
Lemma successful_frame_columns (F : matrix) active df0 ids steps :
"reservoir_id" ∉ active → "time_step" ∉ active →
new_frame F active = Ok df0 →
columns (assign_column "time_step" steps
           (assign_column "reservoir_id" ids df0))
= active ++ ["reservoir_id"; "time_step"].
Proof.
intros Hid Hstep Hframe. unfold new_frame in Hframe.
case_decide; [|done]. apply Ok_inj in Hframe as <-.
unfold assign_column at 2. simpl. rewrite decide_False by done.
unfold assign_column. simpl. rewrite decide_False.
- by rewrite <- app_assoc.
- intros Hin. apply elem_of_app in Hin as [Hin|Hin]; [done|].
  apply list_elem_of_singleton in Hin. done.
Qed.

(** C2.  [optimize] returns [None] exactly when no objective is enabled,
    in which case [minimize] is never called, or when the run of every
    reservoir comes back without a population.  When every reservoir
    either succeeds or fails in that way and at least one succeeds, the
    call returns the frames of the successful reservoirs, concatenated in
    order; every reservoir has been run, and each failure has left its
    line in the output. *)
Theorem optimize_failure_signal self :
  (enabled_objectives objectives = [] →
     outcome minimize get_reference_directions fast_non_dominated_sort
       data objectives params self = Ok None ∧
     Forall (λ e, is_minimize e = false)
       (trace minimize get_reference_directions fast_non_dominated_sort
          data objectives params self))
  ∧ (enabled_objectives objectives ≠ [] →
     outcome minimize get_reference_directions fast_non_dominated_sort
       data objectives params self = Ok None ↔
     Forall (fails_to_yield minimize get_reference_directions objectives params)
       ids)
  ∧ (enabled_objectives objectives ≠ [] →
     Forall (λ i,
               fails_to_yield minimize get_reference_directions
                 objectives params i ∨
               ∃ df, succeeds_with minimize get_reference_directions
                       fast_non_dominated_sort objectives params i df) ids →
     Exists (λ i, ∃ df, succeeds_with minimize get_reference_directions
                          fast_non_dominated_sort objectives params i df) ids →
     ∃ df,
       outcome minimize get_reference_directions fast_non_dominated_sort
         data objectives params self = Ok (Some df) ∧
       rows df =
         concat (map rows
                   (omap (frame_of minimize get_reference_directions
                            fast_non_dominated_sort objectives params) ids)) ∧
       seeds (trace minimize get_reference_directions fast_non_dominated_sort
                data objectives params self) = ids ∧
       ∀ i, i ∈ ids →
         fails_to_yield minimize get_reference_directions objectives params i →
         Print (failed_line i)
         ∈ trace minimize get_reference_directions fast_non_dominated_sort
             data objectives params self).
Proof.
  split; [|split].
  - intros Hactive. unfold outcome, trace.
    rewrite optimize_no_objective by done. simpl.
    split; [done | by repeat constructor].
  - intros Hactive.
    destruct (loop ids [] []) as [t r] eqn:Hloop.
    destruct (optimize_spec self t r Hactive Hloop)
      as (pre & post & _ & _ & _ & Hr).
    destruct (reservoir_loop_spec ids [] [])
      as [[Hall (ss & Hspec)]|(pre' & i & post' & e & Hids & Hi & Hspec)];
      rewrite Hspec in Hloop; injection Hloop as <- <-.
    + simpl in Hr.
      destruct (omap _ ids) as [|first others] eqn:Hframes.
      * destruct Hr as (_ & -> & _). split; [intros _|done].
        apply omap_nil_iff in Hframes. rewrite Forall_forall in Hframes, Hall.
        apply Forall_forall. intros i Hi.
        destruct (Hall i Hi) as [r Hr]. apply (frame_of_None i r Hr).
        by apply Hframes.
      * destruct Hr as (df & -> & _). split; [done|]. intros Hfail.
        assert (omap (frame_of minimize get_reference_directions
                        fast_non_dominated_sort objectives params) ids = [])
          as Hnil; [|congruence].
        apply omap_nil_iff. rewrite Forall_forall in Hfail, Hall.
        apply Forall_forall. intros i Hi.
        destruct (Hall i Hi) as [r Hr]. apply (frame_of_None i r Hr).
        by apply Hfail.
    + destruct Hr as [-> _]. split; [done|]. intros Hfail.
      rewrite Forall_forall in Hfail.
      assert (i ∈ ids) as Hin.
      { rewrite Hids. apply elem_of_app. right. by left. }
      apply Hfail, fails_to_yield_step in Hin as [t' Ht'].
      rewrite Ht' in Hi. done.
  - intros Hactive Heach Hsome.
    assert (Forall (λ i, ∃ r, (step i).2 = Ok r) ids) as Hall.
    { eapply Forall_impl; [exact Heach|]. intros i [Hi|(df & t' & s & Hi)].
      - apply fails_to_yield_step in Hi as [t' ->]. by eexists.
      - rewrite Hi. by eexists. }
    destruct (loop ids [] []) as [t r] eqn:Hloop.
    destruct (optimize_spec self t r Hactive Hloop)
      as (pre & post & Hpre & Hpost & Htrace & Hr).
    destruct (reservoir_loop_spec ids [] [])
      as [[_ (ss & Hspec)]|(pre' & i & post' & e & Hids & Hi & Hspec)];
      rewrite Hspec in Hloop; injection Hloop as <- <-.
    2:{ rewrite Forall_forall in Hall. destruct (Hall i) as [r' Hr'].
        - rewrite Hids. apply elem_of_app. right. by left.
        - congruence. }
    simpl in Hr.
    destruct (omap _ ids) as [|first others] eqn:Hframes.
    { apply omap_nil_iff in Hframes. rewrite Forall_forall in Hframes.
      apply Exists_exists in Hsome as (i & Hi & df & t' & s & Hstep).
      specialize (Hframes i Hi). unfold frame_of in Hframes.
      by rewrite Hstep in Hframes. }
    destruct Hr as (df & Hout & _ & _ & Hrows & _).
    exists df. split; [done|]. split; [done|]. split.
    + rewrite Htrace, !seeds_app, (seeds_prints pre), (seeds_prints post),
        loop_seeds by done.
      apply Exists_exists in Hsome as (i & Hi & _).
      rewrite Forall_forall in Hall. destruct (Hall i Hi) as [r Hr].
      destruct (step_returns_directions i r Hr) as [rd ->].
      by rewrite app_nil_r.
    + intros i Hi Hfail.
      destruct (failed_step_trace i Hfail) as (call & _ & Hstep).
      rewrite Htrace. apply elem_of_app. right. apply elem_of_app. left.
      apply list_elem_of_In, in_concat. exists (step i).1. split.
      * apply in_map_iff. exists i. split; [done | by apply list_elem_of_In].
      * rewrite Hstep. simpl. auto.
Qed.

(** C9.  [optimize] assigns [self.results] only on success: when it
    returns [None] the manager is the one it was called on, and when it
    returns a frame the manager holds that frame. *)
Theorem optimize_none_keeps_results self :
  (outcome minimize get_reference_directions fast_non_dominated_sort
     data objectives params self = Ok None →
   manager_after minimize get_reference_directions fast_non_dominated_sort
     data objectives params self = self)
  ∧ (∀ df,
       outcome minimize get_reference_directions fast_non_dominated_sort
         data objectives params self = Ok (Some df) →
       manager_after minimize get_reference_directions fast_non_dominated_sort
         data objectives params self = {| results := Some df |}).
Proof.
  destruct (decide (enabled_objectives objectives = [])) as [Hactive|Hactive].
  - unfold outcome, manager_after. rewrite optimize_no_objective by done.
    simpl. split; [done|]. by intros df [=].
  - destruct (loop ids [] []) as [t r] eqn:Hloop.
    destruct (optimize_spec self t r Hactive Hloop)
      as (pre & post & _ & _ & _ & Hr).
    destruct r as [[[|first others] ss]|e].
    + destruct Hr as (_ & Hout & Hman). split; [done|].
      intros df Hdf. congruence.
    + destruct Hr as (df & Hout & Hman & _). split; [congruence|].
      intros df' Hdf'. congruence.
    + destruct Hr as [Hout Hman]. split; [done|]. intros df Hdf. congruence.
Qed.

(** C10.  Within one call every reservoir is optimised against the same
    problem: each recorded call of [minimize] receives the problem built
    from the shared horizon, objectives, bounds and parameters, the same
    algorithm settings and generation count, and the reservoir id as
    seed; the ids are run in order.  The frame of a successful reservoir
    is built from the objective matrix of its run by attaching the
    reservoir id and the row index, so that a [minimize] that ignores
    its seed gives every reservoir the same run. *)
Theorem optimize_identical_problems self :
  (∀ p a g s,
     Minimize p a g s
     ∈ trace minimize get_reference_directions fast_non_dominated_sort
         data objectives params self →
     p = problem ∧ g = int (get params "iterations" 100) ∧ s ∈ ids ∧
     ∃ rd, directions = Ok rd ∧
           a = Build_NSGA3 (int (get params "population_size" 100)) rd)
  ∧ seeds (trace minimize get_reference_directions fast_non_dominated_sort
             data objectives params self) `prefix_of` ids
  ∧ (∀ i df,
       succeeds_with minimize get_reference_directions fast_non_dominated_sort
         objectives params i df →
       ∃ res F X df0,
         run i = Ok res ∧ population_of res = Some (F, X) ∧
         new_frame F (enabled_objectives objectives) = Ok df0 ∧
         df = assign_column "time_step"
                (map (λ t, Int (Z.of_nat t)) (seq 0 (length F)))
                (assign_column "reservoir_id"
                   (replicate (length F) (Int (Z.of_nat i))) df0))
  ∧ ((∀ p a g s s', minimize p a g s = minimize p a g s') →
     ∀ i j, run i = run j).
Proof.
  split; [|split; [|split]].
  - intros p a g s Hin.
    destruct (decide (enabled_objectives objectives = [])) as [Hactive|Hactive].
    { unfold trace in Hin. rewrite optimize_no_objective in Hin by done.
      simpl in Hin. apply list_elem_of_singleton in Hin. done. }
    destruct (loop ids [] []) as [t r] eqn:Hloop.
    destruct (optimize_spec self t r Hactive Hloop)
      as (pre & post & Hpre & Hpost & Htrace & _).
    destruct (loop_trace_prefix t r Hloop) as (ran & Hran & -> & _).
    rewrite Htrace in Hin. rewrite Forall_forall in Hpre, Hpost.
    apply elem_of_app in Hin as [Hin|Hin]; [by apply Hpre in Hin|].
    apply elem_of_app in Hin as [Hin|Hin]; [|by apply Hpost in Hin].
    apply list_elem_of_In, in_concat in Hin as (ti & Hti & Hin).
    apply in_map_iff in Hti as (i & <- & Hi).
    destruct (reservoir_step_calls i) as (prints & Hprints & Hstep).
    rewrite Hstep in Hin. rewrite Forall_forall in Hprints.
    destruct Hin as [Hin|Hin]; [done|].
    destruct directions as [rd|e]; [|done].
    destruct Hin as [Hin|Hin].
    + injection Hin as <- <- <- <-. repeat split; try done.
      * destruct Hran as [post' ->]. apply elem_of_app. left.
        by apply list_elem_of_In.
      * by exists rd.
    + apply list_elem_of_In, Hprints in Hin. done.
  - destruct (decide (enabled_objectives objectives = [])) as [Hactive|Hactive].
    { unfold trace. rewrite optimize_no_objective by done. apply prefix_nil. }
    destruct (loop ids [] []) as [t r] eqn:Hloop.
    destruct (optimize_spec self t r Hactive Hloop)
      as (pre & post & Hpre & Hpost & Htrace & _).
    destruct (loop_trace_prefix t r Hloop) as (ran & Hran & -> & _).
    rewrite Htrace, !seeds_app, (seeds_prints pre), (seeds_prints post),
      loop_seeds, app_nil_r by done.
    destruct directions; [done | apply prefix_nil].
  - intros i df (t & s & Hstep).
    pose proof (reservoir_step_shape i) as Hshape.
    destruct directions as [rd|e] eqn:Hd; [|congruence].
    cbn zeta in Hshape. destruct (run i) as [res|e] eqn:Hrun; [|congruence].
    destruct (population_of res) as [[F X]|] eqn:Hpop; [|congruence].
    destruct Hshape as [[e He]|(df' & s' & Hs & df0 & Hframe & Hdf)];
      [congruence|].
    exists res, F, X, df0. repeat split; try done. congruence.
  - intros Hseed i j. unfold attempt.
    destruct directions; [apply Hseed | done].
Qed.
End OptimizeFacts.

(** ** Sample calls of [optimize] *)

Lemma sample_ids : reservoir_ids three_reservoirs = [1; 2; 3].
Proof. reflexivity. Qed.

Lemma optimize_failure_signal_witness :
  (outcome (odd_seeds_only sample_population) das_dennis non_dominated_sort
     three_reservoirs no_objectives sample_params new_manager = Ok None ∧
   Forall (λ e, is_minimize e = false)
     (trace (odd_seeds_only sample_population) das_dennis non_dominated_sort
        three_reservoirs no_objectives sample_params new_manager))
  ∧ (outcome empty_handed das_dennis non_dominated_sort
       three_reservoirs sample_objectives sample_params new_manager = Ok None ↔
     Forall (fails_to_yield empty_handed das_dennis sample_objectives sample_params)
       (reservoir_ids three_reservoirs))
  ∧ (∃ df,
       outcome (odd_seeds_only sample_population) das_dennis non_dominated_sort
         three_reservoirs sample_objectives sample_params new_manager
         = Ok (Some df) ∧
       rows df =
         concat (map rows
                   (omap (frame_of (odd_seeds_only sample_population) das_dennis
                            non_dominated_sort sample_objectives sample_params)
                         (reservoir_ids three_reservoirs))) ∧
       seeds (trace (odd_seeds_only sample_population) das_dennis
                non_dominated_sort three_reservoirs sample_objectives
                sample_params new_manager) = reservoir_ids three_reservoirs ∧
       ∀ i, i ∈ reservoir_ids three_reservoirs →
         fails_to_yield (odd_seeds_only sample_population) das_dennis
           sample_objectives sample_params i →
         Print (failed_line i)
         ∈ trace (odd_seeds_only sample_population) das_dennis
             non_dominated_sort three_reservoirs sample_objectives
             sample_params new_manager).
Proof.
  split; [|split].
  - apply (proj1 (optimize_failure_signal (odd_seeds_only sample_population)
                    das_dennis non_dominated_sort three_reservoirs no_objectives
                    sample_params new_manager)).
    reflexivity.
  - apply (proj1 (proj2 (optimize_failure_signal empty_handed
                           das_dennis non_dominated_sort three_reservoirs
                           sample_objectives sample_params new_manager))).
    discriminate.
  - apply (proj2 (proj2 (optimize_failure_signal
                           (odd_seeds_only sample_population)
                           das_dennis non_dominated_sort three_reservoirs
                           sample_objectives sample_params new_manager))).
    + discriminate.
    + rewrite sample_ids. repeat apply Forall_cons_2; [| | |constructor].
      * right. unfold succeeds_with.
        destruct (reservoir_step _ _ _ _ _ 1) as [t [[[df s]|]|e]] eqn:Hstep;
          [by eauto | vm_compute in Hstep; discriminate
                    | vm_compute in Hstep; discriminate].
      * left. eexists. split; reflexivity.
      * right. unfold succeeds_with.
        destruct (reservoir_step _ _ _ _ _ 3) as [t [[[df s]|]|e]] eqn:Hstep;
          [by eauto | vm_compute in Hstep; discriminate
                    | vm_compute in Hstep; discriminate].
    + rewrite sample_ids. apply Exists_cons_hd. unfold succeeds_with.
      destruct (reservoir_step _ _ _ _ _ 1) as [t [[[df s]|]|e]] eqn:Hstep;
        [by eauto | vm_compute in Hstep; discriminate
                  | vm_compute in Hstep; discriminate].
Defined.

(** C2, as stated, fails where a run raises.  Of three reservoirs the
    first succeeds and the run of the second raises: [optimize] raises
    that exception instead of returning the frame of the first, the third
    reservoir is never optimised, and no failure line is printed for the
    second. *)
Lemma optimize_failure_signal_counterexample :
  (∃ df, succeeds_with (even_seeds_raise sample_population) das_dennis
           non_dominated_sort sample_objectives sample_params 1 df) ∧
  outcome (even_seeds_raise sample_population) das_dennis non_dominated_sort
    three_reservoirs sample_objectives sample_params new_manager
    = Raise (ValueError "the optimisation run failed") ∧
  reservoir_ids three_reservoirs = [1; 2; 3] ∧
  seeds (trace (even_seeds_raise sample_population) das_dennis non_dominated_sort
           three_reservoirs sample_objectives sample_params new_manager) = [1; 2] ∧
  Print (failed_line 2)
  ∉ trace (even_seeds_raise sample_population) das_dennis non_dominated_sort
      three_reservoirs sample_objectives sample_params new_manager.
Proof.
  split; [|split; [|split; [|split]]].
  - unfold succeeds_with.
    destruct (reservoir_step (even_seeds_raise sample_population) das_dennis
                non_dominated_sort sample_objectives sample_params 1)
      as [t [[[df s]|]|e]] eqn:Hstep;
      [| vm_compute in Hstep; discriminate | vm_compute in Hstep; discriminate].
    by exists df, t, s.
  - vm_compute. reflexivity.
  - reflexivity.
  - vm_compute. reflexivity.
  - intros Hin. apply list_elem_of_In in Hin. vm_compute in Hin.
    repeat (destruct Hin as [Hin|Hin]; [discriminate|]). exact Hin.
Qed.

Lemma optimize_none_keeps_results_witness :
  manager_after empty_handed das_dennis non_dominated_sort three_reservoirs
    sample_objectives sample_params used_manager = used_manager
  ∧ match outcome (one_generation sample_population) das_dennis
            non_dominated_sort three_reservoirs sample_objectives
            sample_params used_manager with
    | Ok (Some df) =>
        manager_after (one_generation sample_population) das_dennis
          non_dominated_sort three_reservoirs sample_objectives sample_params
          used_manager = {| results := Some df |}
    | _ => True
    end.
Proof.
  split.
  - apply (proj1 (optimize_none_keeps_results empty_handed das_dennis
                    non_dominated_sort three_reservoirs sample_objectives
                    sample_params used_manager)).
    reflexivity.
  - destruct (outcome (one_generation sample_population) das_dennis
                non_dominated_sort three_reservoirs sample_objectives
                sample_params used_manager) as [[df|]|e] eqn:Hout;
      try exact I.
    apply (proj2 (optimize_none_keeps_results (one_generation sample_population)
                    das_dennis non_dominated_sort three_reservoirs
                    sample_objectives sample_params used_manager)).
    exact Hout.
Defined.

Lemma optimize_identical_problems_witness :
  (scheduling_problem sample_objectives sample_params
     = scheduling_problem sample_objectives sample_params ∧
   1%Z = int (get sample_params "iterations" 100) ∧
   2 ∈ reservoir_ids three_reservoirs ∧
   ∃ rd, reference_directions das_dennis sample_objectives sample_params = Ok rd ∧
         Build_NSGA3 2 sample_directions
         = Build_NSGA3 (int (get sample_params "population_size" 100)) rd)
  ∧ match reservoir_step (one_generation sample_population) das_dennis
            non_dominated_sort sample_objectives sample_params 2 with
    | (_, Ok (Some (df, _))) =>
        ∃ res F X df0,
          attempt (one_generation sample_population) das_dennis
            sample_objectives sample_params 2 = Ok res ∧
          population_of res = Some (F, X) ∧
          new_frame F (enabled_objectives sample_objectives) = Ok df0 ∧
          df = assign_column "time_step"
                 (map (λ t, Int (Z.of_nat t)) (seq 0 (length F)))
                 (assign_column "reservoir_id"
                    (replicate (length F) (Int (Z.of_nat 2))) df0)
    | _ => True
    end
  ∧ (∀ i j,
       attempt (one_generation sample_population) das_dennis
         sample_objectives sample_params i
       = attempt (one_generation sample_population) das_dennis
           sample_objectives sample_params j).
Proof.
  split; [|split].
  - apply (proj1 (optimize_identical_problems (one_generation sample_population)
                    das_dennis non_dominated_sort three_reservoirs
                    sample_objectives sample_params new_manager)
             (scheduling_problem sample_objectives sample_params)
             (Build_NSGA3 2 sample_directions) 1%Z 2).
    apply list_elem_of_In. vm_compute.
    repeat first [ left; reflexivity | right ].
  - destruct (reservoir_step (one_generation sample_population) das_dennis
                non_dominated_sort sample_objectives sample_params 2)
      as [t [[[df s]|]|e]] eqn:Hstep; try exact I.
    apply (proj1 (proj2 (proj2 (optimize_identical_problems
                                  (one_generation sample_population)
                                  das_dennis non_dominated_sort three_reservoirs
                                  sample_objectives sample_params new_manager)))).
    by exists t, s.
  - apply (proj2 (proj2 (proj2 (optimize_identical_problems
                                  (one_generation sample_population)
                                  das_dennis non_dominated_sort three_reservoirs
                                  sample_objectives sample_params new_manager)))).
    intros p a g s s'. reflexivity.
Defined.

(** C3.  One reservoir, flood and supply enabled, one decision step, and
    a run whose final population holds the releases 500 and 600: the table
    returned by [optimize] has the columns flood, supply, reservoir_id and
    time_step, and one row per member of the population.  Its second row
    is dominated by its first, so the table is the final population and
    not its Pareto front; the attached report counts one Pareto solution
    among two solutions. *)
Example optimize_table_keeps_dominated_rows :
  ∃ df rep s,
    outcome (one_generation sample_population) das_dennis non_dominated_sort
      NotADict sample_objectives sample_params new_manager = Ok (Some df) ∧
    columns df = ["flood"; "supply"; "reservoir_id"; "time_step"] ∧
    rows df = [ [Float (Fin (500 # 1000)); Float (Fin (0 # 2000)); Int 1; Int 0];
                [Float (Fin (600 # 1000)); Float (Fin (0 # 1000)); Int 1; Int 1] ] ∧
    dominates [Fin (500 # 1000); Fin (0 # 2000)]
              [Fin (600 # 1000); Fin (0 # 1000)] = true ∧
    attrs df = Some rep ∧ reservoir_strategies rep = [s] ∧
    si_pareto_solutions_count s = 1 ∧ si_total_solutions s = 2.
Proof.
  destruct (outcome _ _ _ _ _ _ _) as [[df|]|e] eqn:Hout;
    [| vm_compute in Hout; discriminate | vm_compute in Hout; discriminate].
  destruct (attrs df) as [rep|] eqn:Hattrs;
    [| vm_compute in Hout; injection Hout as <-; discriminate].
  destruct (reservoir_strategies rep) as [|s [|s' ss]] eqn:Hs;
    [ vm_compute in Hout; injection Hout as <-; injection Hattrs as <-;
      discriminate
    | | vm_compute in Hout; injection Hout as <-; injection Hattrs as <-;
        discriminate ].
  exists df, rep, s.
  vm_compute in Hout. injection Hout as <-. injection Hattrs as <-.
  injection Hs as <-. repeat split.
Qed.

(** ** [_evaluate] on a batch *)

Lemma traverse_app {A B} (f : A → result B) l1 l2 bs :
  traverse f (l1 ++ l2) = Ok bs ↔
  ∃ b1 b2, bs = b1 ++ b2 ∧ traverse f l1 = Ok b1 ∧ traverse f l2 = Ok b2.
Proof.
  rewrite traverse_Ok. split.
  - intros H. apply Forall2_app_inv_l in H as (b1 & b2 & H1 & H2 & ->).
    exists b1, b2. by rewrite !traverse_Ok.
  - intros (b1 & b2 & -> & H1 & H2). apply traverse_Ok in H1, H2.
    by apply Forall2_app.
Qed.

Lemma objective_column_Ok_known p obj X c :
  objective_column p obj X = Ok c → obj ∈ objective_names.
Proof.
  intros H. destruct (decide (obj ∈ objective_names)) as [|Hn]; [done|].
  by apply (raises_not_Ok _ c) in H; [|apply objective_column_unknown].
Qed.

Lemma objective_column_app p obj X1 X2 c :
  objective_column p obj (X1 ++ X2) = Ok c ↔
  ∃ c1 c2, c = c1 ++ c2 ∧ length c1 = length X1 ∧
    objective_column p obj X1 = Ok c1 ∧ objective_column p obj X2 = Ok c2.
Proof.
  split.
  - intros H. pose proof (objective_column_Ok_known _ _ _ _ H) as Hobj.
    rewrite objective_column_known in H by done.
    apply traverse_app in H as (c1 & c2 & -> & H1 & H2).
    exists c1, c2. rewrite !objective_column_known by done.
    repeat split; try done. by eapply traverse_length.
  - intros (c1 & c2 & -> & _ & H1 & H2).
    pose proof (objective_column_Ok_known _ _ _ _ H1) as Hobj.
    rewrite objective_column_known in * by done.
    apply traverse_app. eauto.
Qed.

Lemma set_column_app j c1 c2 (F1 F2 : matrix) :
  length c1 = length F1 →
  set_column j (c1 ++ c2) (F1 ++ F2) = set_column j c1 F1 ++ set_column j c2 F2.
Proof. intros H. unfold set_column. by apply zip_with_app. Qed.

Lemma evaluate_loop_app p X1 X2 objs : ∀ i F1 F2 R,
  length F1 = length X1 →
  evaluate_loop p (X1 ++ X2) i objs (F1 ++ F2) = Ok R ↔
  ∃ R1 R2, R = R1 ++ R2 ∧ evaluate_loop p X1 i objs F1 = Ok R1 ∧
    evaluate_loop p X2 i objs F2 = Ok R2.
Proof.
  induction objs as [|obj objs IH]; intros i F1 F2 R HF1; simpl.
  - split.
    + intros [= <-]. by exists F1, F2.
    + by intros (R1 & R2 & -> & [= <-] & [= <-]).
  - rewrite bind_Ok. split.
    + intros (c & Hc & Hloop).
      apply objective_column_app in Hc as (c1 & c2 & -> & Hl & Hc1 & Hc2).
      rewrite set_column_app in Hloop by lia.
      apply IH in Hloop as (R1 & R2 & -> & HR1 & HR2);
        [|rewrite set_column_length; lia].
      exists R1, R2. rewrite Hc1, Hc2. by simpl.
    + intros (R1 & R2 & -> & HR1 & HR2).
      apply bind_Ok in HR1 as (c1 & Hc1 & HR1).
      apply bind_Ok in HR2 as (c2 & Hc2 & HR2).
      assert (length c1 = length X1) as Hl.
      { pose proof (objective_column_Ok_known _ _ _ _ Hc1) as Hobj.
        rewrite objective_column_known in Hc1 by done.
        by eapply traverse_length. }
      exists (c1 ++ c2). split.
      * apply objective_column_app. exists c1, c2. eauto.
      * rewrite set_column_app by lia. apply IH;
          [rewrite set_column_length; lia | eauto].
Qed.

(** X1.  [_evaluate] treats the rows of a batch independently: the
    objective array of a batch [X1 ++ X2] is the array of [X1] followed by
    the array of [X2], and the batch is evaluated without an exception
    exactly when both parts are. *)
Theorem evaluate_batch_app p X1 X2 F :
  _evaluate p (X1 ++ X2) = Ok F ↔
  ∃ F1 F2, F = F1 ++ F2 ∧ _evaluate p X1 = Ok F1 ∧ _evaluate p X2 = Ok F2.
Proof.
  unfold _evaluate. rewrite length_app.
  unfold np_zeros. rewrite replicate_add.
  apply evaluate_loop_app. by rewrite length_replicate.
Qed.

(** ** Ranges of the objective values *)

Lemma np_sum_between lo hi v :
  Forall (between lo hi) v →
  between (inject_Z (Z.of_nat (length v)) * lo) (inject_Z (Z.of_nat (length v)) * hi)
          (np_sum v).
Proof.
  induction 1 as [|x v (a & -> & Ha) _ (s & Hs & Hb)].
  - exists 0%Q. split; [done|].
    change (inject_Z (Z.of_nat (length (@nil fnum)))) with 0%Q. lra.
  - exists (a + s)%Q. split.
    + unfold np_sum in *. simpl. by rewrite Hs.
    + change (length (Fin a :: v)) with (S (length v)).
      rewrite Nat2Z.inj_succ. unfold Z.succ. rewrite inject_Z_plus.
      change (inject_Z 1) with 1%Q. lra.
Qed.

Lemma fdiv_Fin a b : ¬ (b == 0)%Q → fdiv (Fin a) (Fin b) = Fin (a / b).
Proof.
  intros Hb. simpl. destruct (Qeq_bool b 0) eqn:E; [|done].
  by apply Qeq_bool_iff in E.
Qed.

Lemma Qdiv_le_compat a b c : (0 < c)%Q → (a <= b)%Q → (a / c <= b / c)%Q.
Proof.
  intros Hc Hab. unfold Qdiv. apply Qmult_le_compat_r; [done|].
  apply Qlt_le_weak. by apply Qinv_lt_0_compat.
Qed.

Lemma count_true_le bs : count_true bs ≤ length bs.
Proof.
  unfold count_true. induction bs as [|b bs IH]; simpl; [done|].
  destruct b; simpl; lia.
Qed.

Lemma rect_lookup_length k (X : matrix) r x :
  rect k X → X !! r = Some x → length x = k.
Proof. unfold rect. rewrite Forall_lookup. intros H Hx. by eapply H. Qed.

Lemma objective_entry_bounds p obj x v :
  obj ∈ objective_names →
  (0 < n_var p)%Z → n_var p = Z.of_nat (length x) →
  within (Q_min p) (Q_max p) x →
  (0 <= Q_min p)%Q → (0 < Q_allowed p)%Q → (0 < Q_target p)%Q → (0 <= Head p)%Q →
  objective_entry p obj x = Ok v → objective_bounds p obj v.
Proof.
  intros Hobj Hn Hlen Hx Hmin Hall Htar Hhead.
  assert (0 < inject_Z (n_var p))%Q as Hnq.
  { change 0%Q with (inject_Z 0). by rewrite <- Zlt_Qlt. }
  unfold objective_entry, objective_bounds. repeat case_decide.
  - intros Hv. apply bind_Ok in Hv as (m & Hm & Hv). apply Ok_inj in Hv. subst v.
    assert (between (Q_min p) (Q_max p) m) as (a & -> & Ha).
    { destruct (np_max_spec x m Hm) as [[Hnan _]|(_ & Hin & _)].
      - destruct Hnan. eapply Forall_impl; [exact Hx|]. by intros ? (q & -> & _).
      - unfold within in Hx. rewrite Forall_forall in Hx. by apply Hx. }
    rewrite fdiv_Fin by lra. simpl. rewrite !Qle_bool_iff. split.
    + apply Qle_shift_div_l; [done|]. lra.
    + intros Hcap. apply Qle_shift_div_r; [done|]. lra.
  - intros Hv. apply Ok_inj in Hv. subst v.
    destruct (np_sum_between 0 (Q_max p * Head p)
                (map (λ v, fmul v (Fin (Head p))) x)) as (s & -> & Hs).
    { apply Forall_fmap. eapply Forall_impl; [exact Hx|].
      intros y (a & -> & Ha). exists (a * Head p)%Q. split; [done|]. split.
      - apply Qmult_le_0_compat; lra.
      - apply Qmult_le_compat_r; lra. }
    simpl. apply Qle_bool_iff. lra.
  - intros Hv. apply Ok_inj in Hv. subst v.
    destruct (np_sum_between 0 (Q_target p)
                (map (λ v, np_maximum (fsub (Fin (Q_target p)) v) fzero) x))
      as (s & -> & Hs).
    { apply Forall_fmap. eapply Forall_impl; [exact Hx|].
      intros y (a & -> & Ha). simpl. unfold np_maximum. simpl.
      destruct (Qltb _ _) eqn:E.
      - exists 0%Q. split; [done|]. lra.
      - exists (Q_target p + - a)%Q. split; [done|].
        apply Qltb_ge in E. lra. }
    change (fmul (Fin (Q_target p)) (of_Z (n_var p)))
      with (Fin (Q_target p * inject_Z (n_var p))).
    assert (0 < Q_target p * inject_Z (n_var p))%Q as Hpos.
    { apply Qmult_lt_0_compat; lra. }
    rewrite fdiv_Fin by lra. simpl. apply Qle_bool_iff.
    apply Qle_shift_div_l; [done|]. lra.
  - intros Hv. apply Ok_inj in Hv. subst v.
    pose proof (count_true_le (map (λ v, fltb v (Fin (Q_eco p))) x)) as Hc.
    rewrite length_map in Hc.
    set (c := count_true _) in *.
    assert (0 <= inject_Z (Z.of_nat c) <= inject_Z (n_var p))%Q as Hcq.
    { change 0%Q with (inject_Z 0). rewrite <- !Zle_Qle. lia. }
    unfold of_nat, of_Z. rewrite fdiv_Fin by lra. simpl.
    rewrite !Qle_bool_iff. split.
    + apply Qle_shift_div_l; [done|]. lra.
    + apply Qle_shift_div_r; [done|]. lra.
  - apply objective_names_cases in Hobj. tauto.
Qed.

(** X2.  Over decision vectors inside the box [Q_min .. Q_max] that
    [optimize] hands to the search, with [0 <= Q_min], [Q_allowed > 0],
    [Q_target > 0] and [head >= 0], the objective values that [_evaluate]
    stores have fixed signs: the flood value is non-negative, and at most 1
    when [Q_max <= Q_allowed]; the power value is non-positive; the supply
    value is non-negative; the ecology value lies between 0 and 1.  Each
    bound compares with 0 or 1 through operations that are monotone
    (maximum, product and quotient by a non-negative constant, sums of
    non-negative terms, counts), so that rounding does not affect it. *)
Theorem evaluate_objective_bounds p X :
  (0 < n_var p)%Z → rect (Z.to_nat (n_var p)) X →
  Forall (within (Q_min p) (Q_max p)) X →
  Forall (λ o, o ∈ objective_names) (active_objs p) →
  (0 <= Q_min p)%Q → (0 < Q_allowed p)%Q → (0 < Q_target p)%Q → (0 <= Head p)%Q →
  ∃ F, _evaluate p X = Ok F ∧
    ∀ r fr i obj v, F !! r = Some fr → active_objs p !! i = Some obj →
      fr !! i = Some v → objective_bounds p obj v.
Proof.
  intros Hn HX Hbox Hobjs Hmin Hall Htar Hhead.
  destruct (evaluate_entries p X (or_introl Hn) HX Hobjs)
    as (F & HF & HlF & _ & Hrows).
  exists F. split; [done|]. intros r fr i obj v Hfr Hobj Hv.
  destruct (lookup_lt_is_Some_2 X r) as [x Hx].
  { rewrite <- HlF. by eapply lookup_lt_Some. }
  destruct (Hrows r x Hx) as (fr' & Hfr' & Hcols).
  assert (fr' = fr) as -> by congruence.
  destruct (Hcols i obj Hobj) as (v' & Hv' & Hentry).
  assert (v' = v) as -> by congruence.
  eapply objective_entry_bounds; try done.
  - rewrite Forall_lookup in Hobjs. by eapply Hobjs.
  - rewrite (rect_lookup_length _ _ _ _ HX Hx). lia.
  - rewrite Forall_lookup in Hbox. by eapply Hbox.
Qed.

Lemma evaluate_objective_bounds_witness :
  ∃ F, _evaluate sample_problem sample_batch = Ok F ∧
    ∀ r fr i obj v, F !! r = Some fr →
      active_objs sample_problem !! i = Some obj → fr !! i = Some v →
      objective_bounds sample_problem obj v.
Proof.
  apply (evaluate_objective_bounds sample_problem sample_batch).
  - reflexivity.
  - repeat constructor.
  - repeat constructor; eexists; (split; [reflexivity|]); vm_compute;
      split; discriminate.
  - vm_compute. repeat constructor.
  - vm_compute. discriminate.
  - reflexivity.
  - reflexivity.
  - vm_compute. discriminate.
Defined.

(** ** [_evaluate] for a horizon of zero steps *)

Lemma evaluate_loop_empty_rows p X objs : ∀ i F,
  X ≠ [] → rect 0 X → Forall (λ o, o ∈ objective_names) objs →
  "flood" ∈ objs →
  evaluate_loop p X i objs F = Raise (zero_size "maximum").
Proof.
  induction objs as [|obj objs IH]; intros i F HX Hr Hobjs Hin.
  - by apply elem_of_nil in Hin.
  - apply Forall_cons in Hobjs as [Hobj Hobjs]. simpl.
    destruct (decide (obj = "flood")) as [->|Hne].
    + destruct X as [|x X]; [done|].
      apply Forall_cons in Hr as [Hx _]. apply nil_length_inv in Hx. by subst x.
    + apply elem_of_cons in Hin as [?|Hin]; [done|].
      rewrite objective_column_known by done.
      destruct (traverse_total (objective_entry p obj) X) as [c ->].
      { apply Forall_forall. intros x _. apply objective_entry_total; auto. }
      simpl. by apply IH.
Qed.

(** X3.  A horizon of zero steps.  For a non-empty batch of empty decision
    vectors [_evaluate] raises numpy's zero-size [ValueError] as soon as
    flood is among the active objectives, wherever it stands in the list;
    without flood it returns, and the stored values are 0 for power and
    [nan] (from [0/0]) for supply and ecology. *)
Theorem evaluate_zero_horizon p X :
  n_var p = 0%Z → X ≠ [] → rect 0 X →
  Forall (λ o, o ∈ objective_names) (active_objs p) →
  ("flood" ∈ active_objs p → _evaluate p X = Raise (zero_size "maximum")) ∧
  ("flood" ∉ active_objs p →
   ∃ F, _evaluate p X = Ok F ∧ length F = length X ∧
     ∀ r fr i obj v, F !! r = Some fr → active_objs p !! i = Some obj →
       fr !! i = Some v → v = if decide (obj = "power") then fzero else NaN).
Proof.
  intros Hn HX Hr Hobjs. split.
  - intros Hin. by apply evaluate_loop_empty_rows.
  - intros Hout.
    destruct (evaluate_entries p X (or_intror Hout)) as (F & HF & HlF & _ & Hrows);
      [by rewrite Hn | done |].
    exists F. repeat split; try done. intros r fr i obj v Hfr Hobj Hv.
    destruct (lookup_lt_is_Some_2 X r) as [x Hx].
    { rewrite <- HlF. by eapply lookup_lt_Some. }
    destruct (Hrows r x Hx) as (fr' & Hfr' & Hcols).
    assert (fr' = fr) as -> by congruence.
    destruct (Hcols i obj Hobj) as (v' & Hv' & Hentry).
    assert (v' = v) as -> by congruence.
    apply (rect_lookup_length _ _ _ _ Hr) in Hx. apply nil_length_inv in Hx.
    subst x. rewrite Forall_lookup in Hobjs. specialize (Hobjs _ _ Hobj).
    apply objective_names_cases in Hobjs.
    assert (obj ≠ "flood") as Hnf.
    { intros ->. apply Hout. by eapply list_elem_of_lookup_2. }
    unfold objective_entry in Hentry. rewrite Hn in Hentry.
    destruct Hobjs as [-> | [-> | [-> | ->]]]; [done | | |].
    + rewrite decide_False, decide_True in Hentry by done.
      apply Ok_inj in Hentry. by subst v.
    + rewrite decide_False, decide_False, decide_True in Hentry by done.
      apply Ok_inj in Hentry. subst v. rewrite decide_False by done.
      change (fdiv (Fin 0) (Fin (Q_target p * 0)) = NaN). simpl.
      assert (Qeq_bool (Q_target p * 0) 0 = true) as ->; [|done].
      apply Qeq_bool_iff. ring.
    + rewrite decide_False, decide_False, decide_False, decide_True in Hentry by done.
      apply Ok_inj in Hentry. subst v. by rewrite decide_False.
Qed.

Lemma evaluate_zero_horizon_witness :
  (_evaluate (new_problem 0 ["power"; "flood"] 0 1000 ∅) [[]] =
     Raise (zero_size "maximum")) ∧
  (∃ F, _evaluate (new_problem 0 ["power"; "ecology"] 0 1000 ∅) [[]] = Ok F ∧
     length F = 1 ∧
     ∀ r fr i obj v, F !! r = Some fr → ["power"; "ecology"] !! i = Some obj →
       fr !! i = Some v → v = if decide (obj = "power") then fzero else NaN).
Proof.
  split.
  - apply (evaluate_zero_horizon (new_problem 0 ["power"; "flood"] 0 1000 ∅) [[]]).
    + reflexivity.
    + discriminate.
    + repeat constructor.
    + vm_compute. repeat constructor.
    + vm_compute. repeat constructor.
  - apply (evaluate_zero_horizon (new_problem 0 ["power"; "ecology"] 0 1000 ∅) [[]]).
    + reflexivity.
    + discriminate.
    + repeat constructor.
    + vm_compute. repeat constructor.
    + simpl. rewrite !elem_of_cons, elem_of_nil. intros [H|[H|[]]]; discriminate.
Defined.

(** ** [analyze_single_solution] and the objectives *)

Lemma analyze_single_solution_Ok x f active params a :
  analyze_single_solution x f active params = Ok a →
  ∃ mn mx, np_min x = Ok mn ∧ np_max x = Ok mx ∧ x ≠ [] ∧
    a_constraint_satisfaction a =
      {| min_flow_violation := fsub mn (Fin (get params "Q_min" 0));
         max_flow_violation := fsub mx (Fin (get params "Q_max" 1000));
         flood_risk :=
           fdiv mx (Fin (get params "Q_allowed" (get params "Q_max" 1000)));
         supply_deficit :=
           np_sum (map (λ v, np_maximum
                               (fsub (Fin (get params "Q_target"
                                  ((get params "Q_min" 0 + get params "Q_max" 1000) / 2))) v)
                               fzero) x);
         ecology_violation :=
           of_nat (count_true (map (λ v, fltb v
                     (Fin (get params "Q_eco" (get params "Q_min" 0)))) x)) |} ∧
    a_performance_metrics a =
      {| power_generation :=
           np_sum (map (λ v, fmul v (Fin (get params "head" 50))) x);
         supply_reliability :=
           fdiv (of_nat (count_true (map (λ v, fgeb v
                   (Fin (get params "Q_target"
                      ((get params "Q_min" 0 + get params "Q_max" 1000) / 2)))) x)))
                (of_nat (length x));
         ecology_satisfaction :=
           fdiv (of_nat (count_true (map (λ v, fgeb v
                   (Fin (get params "Q_eco" (get params "Q_min" 0)))) x)))
                (of_nat (length x)) |}.
Proof.
  unfold analyze_single_solution. intros H.
  apply bind_Ok in H as (mn & Hmn & H). apply bind_Ok in H as (mx & Hmx & H).
  apply Ok_inj in H. subst a. exists mn, mx. repeat split; try done.
  by intros ->.
Qed.

(** X4.  The diagnostics of a schedule and its objective values are the
    same quantities.  For the problem that [optimize] builds from the
    parameter dictionary, with the length of [x] as horizon, the row that
    [_evaluate] computes for [x] holds, for every active objective, the
    value recomputed from the analysis of [x]: [flood_risk], minus
    [power_generation], [supply_deficit / (Q_target * horizon)] and
    [ecology_violation / horizon]. *)
Theorem analysis_agrees_with_objectives x f active params a :
  analyze_single_solution x f active params = Ok a →
  Forall (λ o, o ∈ objective_names) active →
  let p := new_problem (Z.of_nat (length x)) active (get params "Q_min" 0)
             (get params "Q_max" 1000) params in
  ∃ fr, _evaluate p [x] = Ok [fr] ∧ length fr = length active ∧
    ∀ i obj, active !! i = Some obj →
      fr !! i = Some (objective_of_analysis (Q_target p) (length x) obj a).
Proof.
  intros Ha Hobjs p.
  apply analyze_single_solution_Ok in Ha as (mn & mx & Hmn & Hmx & Hx & Hc & Hp).
  destruct (evaluate_entries p [x]) as (F & HF & HlF & HrF & Hrows).
  { left. simpl. destruct x; [done | simpl; lia]. }
  { simpl. rewrite Nat2Z.id. by repeat constructor. }
  { done. }
  destruct F as [|fr [|]]; try done. exists fr. split; [done|].
  apply Forall_cons in HrF as [HrF _]. split; [done|].
  intros i obj Hobj.
  destruct (Hrows 0 x eq_refl) as (fr' & [= <-] & Hcols).
  destruct (Hcols i obj Hobj) as (v & -> & Hentry). f_equal.
  rewrite Forall_lookup in Hobjs. specialize (Hobjs _ _ Hobj).
  apply objective_names_cases in Hobjs.
  unfold objective_entry in Hentry. unfold objective_of_analysis.
  rewrite Hc, Hp. cbn [flood_risk power_generation supply_deficit ecology_violation].
  destruct Hobjs as [-> | [-> | [-> | ->]]].
  - rewrite decide_True in Hentry by done. rewrite decide_True by done.
    rewrite Hmx in Hentry. by apply Ok_inj in Hentry.
  - rewrite decide_False, decide_True in Hentry by done.
    rewrite decide_False, decide_True by done. by apply Ok_inj in Hentry.
  - rewrite decide_False, decide_False, decide_True in Hentry by done.
    rewrite decide_False, decide_False, decide_True by done.
    by apply Ok_inj in Hentry.
  - rewrite decide_False, decide_False, decide_False, decide_True in Hentry by done.
    rewrite decide_False, decide_False, decide_False by done.
    by apply Ok_inj in Hentry.
Qed.

Lemma analysis_agrees_with_objectives_witness :
  ∃ a,
    analyze_single_solution sample_schedule [] ["flood"; "supply"] ∅ = Ok a ∧
    ∃ fr,
      _evaluate (new_problem 3 ["flood"; "supply"] 0 1000 ∅) [sample_schedule] =
        Ok [fr] ∧ length fr = 2 ∧
      ∀ i obj, ["flood"; "supply"] !! i = Some obj →
        fr !! i = Some (objective_of_analysis
                          (Q_target (new_problem 3 ["flood"; "supply"] 0 1000 ∅))
                          3 obj a).
Proof.
  destruct (analyze_single_solution sample_schedule [] ["flood"; "supply"] ∅)
    as [a|] eqn:Ha; [|vm_compute in Ha; discriminate].
  exists a. split; [reflexivity|].
  apply (analysis_agrees_with_objectives sample_schedule [] ["flood"; "supply"] ∅ a Ha).
  vm_compute. repeat constructor.
Defined.

(** ** [analyze_single_solution] on a feasible schedule *)

Lemma count_true_complement (t : fnum → bool) x :
  count_true (map t x) + count_true (map (λ v, negb (t v)) x) = length x.
Proof.
  unfold count_true. induction x as [|v x IH]; simpl; [done|].
  destruct (t v); simpl; lia.
Qed.

Lemma count_true_ext (s t : fnum → bool) x :
  Forall (λ v, s v = t v) x → count_true (map s x) = count_true (map t x).
Proof.
  unfold count_true. induction 1 as [|v x Hv _ IH]; simpl; [done|].
  rewrite Hv. destruct (t v); simpl; by rewrite IH.
Qed.

Lemma count_true_all (t : fnum → bool) x :
  count_true (map t x) = length x ↔ Forall (λ v, t v = true) x.
Proof.
  unfold count_true. induction x as [|v x IH]; simpl.
  - split; [constructor | done].
  - pose proof (count_true_le (map t x)) as Hle. unfold count_true in Hle.
    rewrite length_map in Hle. rewrite Forall_cons. destruct (t v); simpl.
    + rewrite <- IH. split; [intros [= ?]; by split | intros [_ ?]; lia].
    + split; [lia | by intros [? _]].
Qed.

Lemma np_sum_nonneg v :
  Forall (λ y, ∃ q, y = Fin q ∧ (0 <= q)%Q) v →
  ∃ s, np_sum v = Fin s ∧ (0 <= s)%Q ∧
    ((s == 0)%Q ↔ Forall (λ y, feqb y fzero = true) v).
Proof.
  induction 1 as [|y v (a & -> & Ha) _ (s & Hs & Hpos & IH)].
  - exists 0%Q. repeat split; try done.
  - exists (a + s)%Q. split; [|split].
    + unfold np_sum in *. simpl. by rewrite Hs.
    + lra.
    + rewrite Forall_cons, <- IH. simpl. rewrite Qeq_bool_iff.
      split; [intros ?; split; lra | intros [? ?]; lra].
Qed.

(** X5.  For a schedule inside the box [Q_min .. Q_max] the analysis
    reports no bound violation: [min_flow_violation] is a non-negative and
    [max_flow_violation] a non-positive number.  The ecology fields count
    complementary sets of steps, [ecology_satisfaction] being
    [(horizon - ecology_violation) / horizon]; and [supply_reliability]
    equals 1 exactly when [supply_deficit] equals 0. *)
Theorem analysis_of_feasible_schedule x f active params a :
  analyze_single_solution x f active params = Ok a →
  within (get params "Q_min" 0) (get params "Q_max" 1000) x →
  (∃ lo, min_flow_violation (a_constraint_satisfaction a) = Fin lo ∧ (0 <= lo)%Q) ∧
  (∃ hi, max_flow_violation (a_constraint_satisfaction a) = Fin hi ∧ (hi <= 0)%Q) ∧
  (∃ k, k ≤ length x ∧
     ecology_violation (a_constraint_satisfaction a) = of_nat k ∧
     ecology_satisfaction (a_performance_metrics a) =
       fdiv (of_nat (length x - k)) (of_nat (length x))) ∧
  (feqb (supply_deficit (a_constraint_satisfaction a)) fzero = true ↔
   feqb (supply_reliability (a_performance_metrics a)) fone = true).
Proof.
  intros Ha Hbox.
  apply analyze_single_solution_Ok in Ha as (mn & mx & Hmn & Hmx & Hx & -> & ->).
  cbn [min_flow_violation max_flow_violation ecology_violation
       ecology_satisfaction supply_deficit supply_reliability].
  set (Qmin := get params "Q_min" 0) in *.
  set (Qmax := get params "Q_max" 1000) in *.
  set (Qt := get params "Q_target" _).
  set (Qe := get params "Q_eco" _).
  assert (no_nan x) as Hnan.
  { eapply Forall_impl; [exact Hbox|]. by intros ? (q & -> & _). }
  unfold within in Hbox. rewrite Forall_forall in Hbox.
  split; [|split; [|split]].
  - destruct (np_min_spec x mn Hmn) as [[Hn _]|(_ & Hin & _)]; [done|].
    destruct (Hbox _ Hin) as (q & -> & Hq). exists (q + - Qmin)%Q.
    split; [done | lra].
  - destruct (np_max_spec x mx Hmx) as [[Hn _]|(_ & Hin & _)]; [done|].
    destruct (Hbox _ Hin) as (q & -> & Hq). exists (q + - Qmax)%Q.
    split; [done | lra].
  - exists (count_true (map (λ v, fltb v (Fin Qe)) x)).
    pose proof (count_true_le (map (λ v, fltb v (Fin Qe)) x)) as Hle.
    rewrite length_map in Hle. split; [done|]. split; [done|].
    pose proof (count_true_complement (λ v, fltb v (Fin Qe)) x) as Hc.
    rewrite (count_true_ext (λ v, fgeb v (Fin Qe)) (λ v, negb (fltb v (Fin Qe)))).
    + do 2 f_equal. lia.
    + apply Forall_forall. intros v Hv. destruct (Hbox _ Hv) as (q & -> & _).
      unfold fgeb. simpl. unfold Qltb. by rewrite negb_involutive.
  - destruct (np_sum_nonneg (map (λ v, np_maximum (fsub (Fin Qt) v) fzero) x))
      as (s & -> & _ & Hs).
    { apply Forall_fmap, Forall_forall. intros v Hv.
      destruct (Hbox _ Hv) as (q & -> & _). simpl. unfold np_maximum. simpl.
      destruct (Qltb _ _) eqn:E.
      - exists 0%Q. split; [done | lra].
      - exists (Qt + - q)%Q. split; [done|]. apply Qltb_ge in E. lra. }
    assert (0 < inject_Z (Z.of_nat (length x)))%Q as Hn.
    { change 0%Q with (inject_Z 0). rewrite <- Zlt_Qlt. destruct x; [done|].
      simpl. lia. }
    unfold of_nat, of_Z. rewrite fdiv_Fin by lra.
    change (feqb (Fin s) fzero) with (Qeq_bool s 0).
    change (feqb (Fin ?a) fone) with (Qeq_bool a 1).
    rewrite !Qeq_bool_iff, Hs, Forall_fmap.
    transitivity (Forall (λ v, fgeb v (Fin Qt) = true) x).
    + rewrite !Forall_forall.
      assert (∀ v, v ∈ x →
                feqb (np_maximum (fsub (Fin Qt) v) fzero) fzero = true ↔
                fgeb v (Fin Qt) = true) as Hpt.
      { intros v Hv. destruct (Hbox _ Hv) as (q & -> & _).
        unfold fgeb, np_maximum. simpl. destruct (Qltb _ _) eqn:E.
        - apply Qltb_lt in E. split; [intros _ | done].
          apply Qle_bool_iff. lra.
        - apply Qltb_ge in E. simpl. rewrite Qeq_bool_iff, Qle_bool_iff.
          split; intros ?; lra. }
      split; intros H v Hv; apply (Hpt v Hv), H, Hv.
    + rewrite <- count_true_all.
      set (c := count_true _). split.
      * intros ->. field. lra.
      * intros Hq. apply Nat2Z.inj, inject_Z_injective.
        rewrite <- (Qmult_1_l (inject_Z (Z.of_nat (length x)))), <- Hq.
        field. lra.
Qed.

Lemma analysis_of_feasible_schedule_witness :
  ∃ a,
    analyze_single_solution sample_schedule [] ["flood"] ∅ = Ok a ∧
    (∃ lo, min_flow_violation (a_constraint_satisfaction a) = Fin lo ∧ (0 <= lo)%Q) ∧
    (∃ hi, max_flow_violation (a_constraint_satisfaction a) = Fin hi ∧ (hi <= 0)%Q) ∧
    (∃ k, k ≤ length sample_schedule ∧
       ecology_violation (a_constraint_satisfaction a) = of_nat k ∧
       ecology_satisfaction (a_performance_metrics a) =
         fdiv (of_nat (length sample_schedule - k))
              (of_nat (length sample_schedule))) ∧
    (feqb (supply_deficit (a_constraint_satisfaction a)) fzero = true ↔
     feqb (supply_reliability (a_performance_metrics a)) fone = true).
Proof.
  destruct (analyze_single_solution sample_schedule [] ["flood"] ∅)
    as [a|] eqn:Ha; [|vm_compute in Ha; discriminate].
  exists a. split; [reflexivity|].
  apply (analysis_of_feasible_schedule sample_schedule [] ["flood"] ∅ a Ha).
  repeat constructor; eexists; (split; [reflexivity|]); vm_compute;
    split; discriminate.
Defined.

(** ** [recommend_strategies]: what every recommendation is *)

Lemma row_Ok {A} (M : list A) i r : row i M = Ok r → M !! i = Some r.
Proof. unfold row. destruct (M !! i); [by intros [= ->] | done]. Qed.

Lemma priority_block_Ok name stype descr X F active recs recs' :
  priority_block name stype descr X F active recs = Ok recs' →
  recs' = recs ∨
  ∃ rec, recs' = recs ++ [rec] ∧ strategy_type rec = stype ∧
    picked_by_argmin F active name rec ∧
    reports_member X F (solution_id rec - 1) rec ∧ solution_id rec - 1 < length F.
Proof.
  unfold priority_block.
  destruct (list_find _ active) as [[c o]|] eqn:Hfind; [|intros [= <-]; by left].
  intros H. right.
  apply bind_Ok in H as (col & Hcol & H). apply bind_Ok in H as (idx & Hidx & H).
  apply bind_Ok in H as (x & Hx & H). apply bind_Ok in H as (f & Hf & H).
  apply Ok_inj in H. subst recs'. apply row_Ok in Hx, Hf.
  pose proof Hfind as Hfind'. apply list_find_Some in Hfind' as (_ & -> & _).
  eexists. split; [reflexivity|]. cbn [strategy_type solution_id].
  replace (idx + 1 - 1) with idx by lia.
  split; [done|]. split; [by exists c, col, idx|]. split; [done|].
  by eapply lookup_lt_Some.
Qed.

Lemma balanced_block_Ok X F active recs recs' :
  balanced_block X F active recs = Ok recs' →
  recs' = recs ∨
  ∃ rec, recs' = recs ++ [rec] ∧ strategy_type rec = "balanced_strategy" ∧
    reports_member X F (solution_id rec - 1) rec ∧ solution_id rec - 1 < length F.
Proof.
  unfold balanced_block. case_decide; [|intros [= <-]; by left].
  intros Hb. right.
  apply bind_Ok in Hb as (ws & Hws & Hb). apply bind_Ok in Hb as (idx & Hidx & Hb).
  apply bind_Ok in Hb as (x & Hx & Hb). apply bind_Ok in Hb as (f & Hf & Hb).
  apply Ok_inj in Hb. subst recs'. apply row_Ok in Hx, Hf.
  eexists. split; [reflexivity|]. cbn [strategy_type solution_id].
  replace (idx + 1 - 1) with idx by lia.
  split; [done|]. split; [done|]. by eapply lookup_lt_Some.
Qed.

Lemma block_step (G : recommendation → Prop) recs recs' n :
  recs' = recs ∨ (∃ rec, recs' = recs ++ [rec] ∧ G rec) →
  length recs ≤ n ∧ Forall G recs → length recs' ≤ S n ∧ Forall G recs'.
Proof.
  intros [->|(rec & -> & Hrec)] [Hlen HG].
  - split; [lia | done].
  - rewrite length_app. simpl. split; [lia|].
    apply Forall_app. split; [done|]. by constructor.
Qed.

Lemma priority_type_inj name obj :
  name ∈ objective_names → obj ∈ objective_names →
  priority_type name = priority_type obj → name = obj.
Proof.
  intros Hn Ho. apply objective_names_cases in Hn, Ho.
  destruct Hn as [-> | [-> | [-> | ->]]], Ho as [-> | [-> | [-> | ->]]];
    by vm_compute.
Qed.

(** The invariant of the five blocks. *)
Lemma recommend_strategies_blocks X F active rid recs :
  recommend_strategies X F active rid = Ok recs →
  length recs ≤ 5 ∧
  Forall (λ rec,
    strategy_type rec ∈ strategy_types ∧
    reports_member X F (solution_id rec - 1) rec ∧
    solution_id rec - 1 < length F ∧
    ∀ obj, obj ∈ objective_names → strategy_type rec = priority_type obj →
      picked_by_argmin F active obj rec) recs.
Proof.
  unfold recommend_strategies. intros Hr.
  apply bind_Ok in Hr as (r1 & H1 & Hr). apply bind_Ok in Hr as (r2 & H2 & Hr).
  apply bind_Ok in Hr as (r3 & H3 & Hr). apply bind_Ok in Hr as (r4 & H4 & H5).
  apply priority_block_Ok in H1, H2, H3, H4. apply balanced_block_Ok in H5.
  set (G := λ rec : recommendation, _ ∧ _).
  assert (∀ name rs rs',
            name ∈ objective_names →
            rs' = rs ∨ (∃ rec, rs' = rs ++ [rec] ∧
              strategy_type rec = priority_type name ∧
              picked_by_argmin F active name rec ∧
              reports_member X F (solution_id rec - 1) rec ∧
              solution_id rec - 1 < length F) →
            rs' = rs ∨ (∃ rec, rs' = rs ++ [rec] ∧ G rec)) as Hnew.
  { intros name rs rs' Hn [->|(rec & -> & Hty & Hpick & Hrep & Hlt)]; [by left|].
    right. exists rec. split; [done|]. unfold G.
    split; [|split; [done|split; [done|]]].
    - rewrite Hty. unfold strategy_types. apply elem_of_app. left.
      by apply list_elem_of_fmap_2.
    - intros obj Ho Hty'. rewrite Hty in Hty'.
      by rewrite <- (priority_type_inj name obj Hn Ho Hty'). }
  apply (Hnew "flood") in H1; [|by apply objective_names_cases; tauto].
  apply (Hnew "power") in H2; [|by apply objective_names_cases; tauto].
  apply (Hnew "supply") in H3; [|by apply objective_names_cases; tauto].
  apply (Hnew "ecology") in H4; [|by apply objective_names_cases; tauto].
  assert (r4' : recs = r4 ∨ (∃ rec, recs = r4 ++ [rec] ∧ G rec)).
  { destruct H5 as [->|(rec & -> & Hty & Hrep & Hlt)]; [by left|].
    right. exists rec. split; [done|]. unfold G.
    split; [|split; [done|split; [done|]]].
    - rewrite Hty. unfold strategy_types. apply elem_of_app. right.
      by apply list_elem_of_singleton.
    - intros obj Ho Hty'. rewrite Hty in Hty'.
      apply objective_names_cases in Ho.
      destruct Ho as [-> | [-> | [-> | ->]]]; by vm_compute in Hty'. }
  apply (block_step G r4 recs 4); [done|].
  apply (block_step G r3 r4 3); [done|].
  apply (block_step G r2 r3 2); [done|].
  apply (block_step G r1 r2 1); [done|].
  apply (block_step G [] r1 0); [done|].
  split; [done | constructor].
Qed.

(** X6.  Whenever [recommend_strategies] returns, it returns at most five
    recommendations, each of one of the five strategy types, and each one
    carries a member of the front it was given: its [solution_id] is the
    1-based position of a row of [pareto_F], and its decision and objective
    vectors are the rows of [pareto_X] and [pareto_F] at that position. *)
Theorem recommendations_are_front_members X F active rid recs :
  recommend_strategies X F active rid = Ok recs →
  length recs ≤ 5 ∧
  ∀ rec, rec ∈ recs →
    strategy_type rec ∈ strategy_types ∧
    1 ≤ solution_id rec ≤ length F ∧
    X !! (solution_id rec - 1) = Some (decision_variables rec) ∧
    F !! (solution_id rec - 1) = Some (objective_values rec).
Proof.
  intros H. apply recommend_strategies_blocks in H as [Hlen HG].
  split; [done|]. intros rec Hrec. rewrite Forall_forall in HG.
  destruct (HG rec Hrec) as (Hty & (Hid & HX & HF) & Hlt & _).
  repeat split; try done; lia.
Qed.

Lemma recommendations_are_front_members_witness :
  ∃ recs,
    recommend_strategies sample_front_X sample_front_F sample_active 1 = Ok recs ∧
    length recs ≤ 5 ∧
    ∀ rec, rec ∈ recs →
      strategy_type rec ∈ strategy_types ∧
      1 ≤ solution_id rec ≤ length sample_front_F ∧
      sample_front_X !! (solution_id rec - 1) = Some (decision_variables rec) ∧
      sample_front_F !! (solution_id rec - 1) = Some (objective_values rec).
Proof.
  destruct (recommend_strategies sample_front_X sample_front_F sample_active 1)
    as [recs|] eqn:Hrecs; [|vm_compute in Hrecs; discriminate].
  exists recs. split; [reflexivity|].
  exact (recommendations_are_front_members _ _ _ _ _ Hrecs).
Defined.

(** ** [recommend_strategies] on an empty front *)

Lemma priority_block_empty name stype descr X active recs :
  name ∈ active →
  priority_block name stype descr X [] active recs =
    Raise (ValueError "attempt to get argmin of an empty sequence").
Proof.
  intros Hname. unfold priority_block.
  destruct (list_find _ active) as [[c o]|] eqn:Hfind; [done|].
  apply list_find_None in Hfind. rewrite Forall_forall in Hfind.
  by destruct (Hfind name Hname).
Qed.

(** X7.  On a front without members [recommend_strategies] returns the
    empty list when none of flood, power, supply and ecology is active, and
    raises the [ValueError] of [np.argmin] on an empty sequence as soon as
    one of them is: the blocks of the priority strategies have no guard
    against an empty front, only the balanced block has. *)
Theorem recommend_strategies_empty_front X active rid :
  (Forall (λ o, o ∉ objective_names) active →
   recommend_strategies X [] active rid = Ok []) ∧
  (∀ o, o ∈ active → o ∈ objective_names →
   recommend_strategies X [] active rid =
     Raise (ValueError "attempt to get argmin of an empty sequence")).
Proof.
  split.
  - intros Hnone. rewrite Forall_forall in Hnone.
    unfold recommend_strategies.
    assert (∀ name, name ∈ objective_names → name ∉ active) as Habs.
    { intros name Hn Hin. by apply (Hnone _ Hin). }
    do 4 (rewrite priority_block_absent
            by (apply Habs, objective_names_cases; tauto);
          cbn [mbind result_bind]).
    apply balanced_block_skipped. simpl. lia.
  - intros o Hin Ho. unfold recommend_strategies.
    destruct (decide ("flood" ∈ active)) as [Hf|Hf];
      [by rewrite priority_block_empty | rewrite priority_block_absent by done].
    cbn [mbind result_bind].
    destruct (decide ("power" ∈ active)) as [Hp|Hp];
      [by rewrite priority_block_empty | rewrite priority_block_absent by done].
    cbn [mbind result_bind].
    destruct (decide ("supply" ∈ active)) as [Hs|Hs];
      [by rewrite priority_block_empty | rewrite priority_block_absent by done].
    cbn [mbind result_bind].
    destruct (decide ("ecology" ∈ active)) as [He|He];
      [by rewrite priority_block_empty|].
    apply objective_names_cases in Ho.
    destruct Ho as [-> | [-> | [-> | ->]]]; done.
Qed.

Lemma recommend_strategies_empty_front_witness :
  recommend_strategies [] [] ["navigation"] 1 = Ok [] ∧
  recommend_strategies [] [] ["power"; "flood"] 1 =
    Raise (ValueError "attempt to get argmin of an empty sequence").
Proof.
  split.
  - apply (proj1 (recommend_strategies_empty_front [] ["navigation"] 1)).
    repeat constructor. rewrite objective_names_cases.
    intros [H|[H|[H|H]]]; discriminate.
  - apply (proj2 (recommend_strategies_empty_front [] ["power"; "flood"] 1) "power").
    + left.
    + apply objective_names_cases. tauto.
Defined.

(** ** [recommend_strategies]: ties *)

Lemma fltb_fleb_trans x y z : fltb x y = true → fleb y z = true → fltb x z = true.
Proof.
  destruct x, y, z; simpl; try done.
  rewrite !Qltb_lt, Qle_bool_iff. lra.
Qed.

Lemma argmin_from_first (l : list fnum) : ∀ v best bi i,
  no_nan l → drop i l = v → l !! bi = Some best → bi < i →
  Forall (λ x, fltb best x = true) (take bi l) →
  Forall (λ x, fleb best x = true) (take i l) →
  ∃ m, l !! argmin_from best bi i v = Some m ∧
    Forall (λ x, fltb m x = true) (take (argmin_from best bi i v) l).
Proof.
  intros v. induction v as [|x v IH]; intros best bi i Hl Hv Hbest Hbi Hlt Hle; simpl.
  - by exists best.
  - assert (l !! i = Some x) as Hx.
    { rewrite <- (Nat.add_0_r i), <- lookup_drop, Hv. done. }
    assert (drop (S i) l = v) as Hv'.
    { rewrite <- (Nat.add_1_r i), <- drop_drop, Hv. done. }
    pose proof Hl as Hl'. unfold no_nan in Hl'. rewrite Forall_lookup in Hl'.
    rewrite (Hl' _ _ Hbest), (Hl' _ _ Hx). simpl.
    destruct (fltb x best) eqn:Hxb.
    + apply (IH x i (S i)); try done; [lia | |].
      * eapply Forall_impl; [exact Hle|]. intros y Hy. simpl in Hy.
        by apply (fltb_fleb_trans _ best).
      * rewrite (take_S_r _ _ _ Hx). apply Forall_app. split.
        -- eapply Forall_impl; [exact Hle|]. intros y Hy. simpl in Hy.
           apply (fleb_trans _ best); [by apply fltb_fleb | done].
        -- constructor; [|constructor]. apply fleb_refl. by eapply Hl'.
    + apply (IH best bi (S i)); try done; [lia|].
      rewrite (take_S_r _ _ _ Hx). apply Forall_app. split; [done|].
      constructor; [|constructor].
      apply fltb_false_fleb; [by eapply Hl' | by eapply Hl' | done].
Qed.

Lemma np_argmin_first v j m :
  no_nan v → np_argmin v = Ok j → v !! j = Some m →
  ∀ i x, i < j → v !! i = Some x → fltb m x = true.
Proof.
  destruct v as [|x0 v]; simpl; [done|]. intros Hv [= <-] Hm i x Hi Hx.
  destruct (argmin_from_first (x0 :: v) v x0 0 1 Hv eq_refl eq_refl)
    as (m' & Hm' & HF); [lia | constructor | |].
  { constructor; [|constructor]. apply fleb_refl. by inversion Hv. }
  assert (m' = m) as -> by congruence.
  rewrite Forall_lookup in HF. apply (HF i).
  rewrite lookup_take_lt by done. exact Hx.
Qed.

(** X8.  Ties.  The priority recommendation of an objective is the first
    member of the front that attains the minimum of the objective's
    column: when the column holds no [nan], the value of the recommended
    member is at most every value of the column and strictly below the
    value of every member that precedes it. *)
Theorem priority_pick_first_minimiser X F active rid recs rec obj :
  recommend_strategies X F active rid = Ok recs → rec ∈ recs →
  obj ∈ objective_names → strategy_type rec = priority_type obj →
  ∃ c col m,
    list_find (λ o, o = obj) active = Some (c, obj) ∧ column c F = Ok col ∧
    col !! (solution_id rec - 1) = Some m ∧
    (no_nan col → ∀ i x, col !! i = Some x →
       fleb m x = true ∧ (i < solution_id rec - 1 → fltb m x = true)).
Proof.
  intros Hrecs Hrec Hobj Hty.
  apply recommend_strategies_blocks in Hrecs as [_ HG].
  rewrite Forall_forall in HG.
  destruct (HG rec Hrec) as (_ & _ & _ & Hpick).
  destruct (Hpick obj Hobj Hty) as (c & col & idx & Hfind & Hcol & Hidx & Hid).
  replace (solution_id rec - 1) with idx by lia.
  destruct (lookup_lt_is_Some_2 col idx) as [m Hm]; [by apply np_argmin_bound|].
  exists c, col, m. repeat split; try done.
  - destruct (np_argmin_min col idx H Hidx) as (m' & Hm' & Hle).
    assert (m' = m) as -> by congruence.
    rewrite Forall_lookup in Hle. by eapply Hle.
  - intros Hi. by eapply np_argmin_first.
Qed.

Lemma priority_pick_first_minimiser_witness :
  ∃ c col m,
    list_find (λ o, o = "flood") ["flood"] = Some (c, "flood") ∧
    column c [[of_Z 2]; [of_Z 1]; [of_Z 1]] = Ok col ∧
    col !! 1 = Some m ∧
    (no_nan col → ∀ i x, col !! i = Some x →
       fleb m x = true ∧ (i < 1 → fltb m x = true)).
Proof.
  apply (priority_pick_first_minimiser [[of_Z 7]; [of_Z 8]; [of_Z 9]]
           [[of_Z 2]; [of_Z 1]; [of_Z 1]] ["flood"] 1
           [ {| strategy_type := "flood_control_priority";
                description := "防洪优先策略：最小化最大下泄流量";
                solution_id := 2;
                decision_variables := [of_Z 8];
                objective_values := [of_Z 1] |} ]
           {| strategy_type := "flood_control_priority";
              description := "防洪优先策略：最小化最大下泄流量";
              solution_id := 2;
              decision_variables := [of_Z 8];
              objective_values := [of_Z 1] |} "flood").
  - vm_compute. reflexivity.
  - apply list_elem_of_singleton. reflexivity.
  - apply objective_names_cases. tauto.
  - reflexivity.
Defined.

(** ** [build_reservoir_strategy] *)

Lemma pareto_solutions_from_Ok active params xfs : ∀ i sols,
  pareto_solutions_from i xfs active params = Ok sols →
  length sols = length xfs ∧
  ∀ n x f, xfs !! n = Some (x, f) →
    ∃ sol, sols !! n = Some sol ∧ s_solution_id sol = i + n + 1 ∧
      s_decision_variables sol = x ∧ s_objective_values sol = f ∧
      s_objective_dict sol = dict_of_zip active f ∧
      analyze_single_solution x f active params = Ok (s_analysis sol).
Proof.
  induction xfs as [|[x f] xfs IH]; intros i sols; simpl.
  - intros [= <-]. split; [done|]. by intros n x f.
  - intros H. apply bind_Ok in H as (a & Ha & H).
    apply bind_Ok in H as (rest & Hrest & H). apply Ok_inj in H. subst sols.
    destruct (IH _ _ Hrest) as [Hlen Hsols]. split; [simpl; lia|].
    intros [|n] x' f' Hn; simpl in Hn.
    + injection Hn as <- <-. eexists. split; [reflexivity|]. simpl.
      repeat split; try done. lia.
    + destruct (Hsols n x' f' Hn) as (sol & Hsol & Hid & Hrest').
      exists sol. split; [done|]. split; [lia | done].
Qed.

Lemma traverse_row_lookup {A} (M : list A) idxs rs n j :
  traverse (λ i, row i M) idxs = Ok rs → idxs !! n = Some j →
  ∃ r, rs !! n = Some r ∧ M !! j = Some r.
Proof.
  intros Hrs Hj. destruct (traverse_lookup _ _ _ _ _ Hrs Hj) as (r & Hr & Hrow).
  exists r. split; [done | by apply row_Ok].
Qed.

(** The record of a reservoir, field by field. *)
Lemma build_reservoir_strategy_Ok sort X F rid active params horizon s :
  build_reservoir_strategy sort X F rid active params horizon = Ok s →
  ∃ front0 fronts,
    sort F = front0 :: fronts ∧
    si_reservoir_id s = rid ∧ si_total_solutions s = length X ∧
    si_pareto_solutions_count s = length front0 ∧
    length (si_pareto_solutions s) = length front0 ∧
    (∀ n j, front0 !! n = Some j →
       ∃ sol, si_pareto_solutions s !! n = Some sol ∧ s_solution_id sol = n + 1 ∧
         X !! j = Some (s_decision_variables sol) ∧
         F !! j = Some (s_objective_values sol)) ∧
    (∀ rec, rec ∈ si_recommended_strategies s →
       ∃ sol, si_pareto_solutions s !! (solution_id rec - 1) = Some sol ∧
         s_solution_id sol = solution_id rec ∧
         s_decision_variables sol = decision_variables rec ∧
         s_objective_values sol = objective_values rec).
Proof.
  unfold build_reservoir_strategy, get_pareto_front. intros H.
  apply bind_Ok in H as (front0 & Hfront & H).
  destruct (sort F) as [|front0' fronts] eqn:Hsort; [done|].
  apply Ok_inj in Hfront. subst front0'.
  apply bind_Ok in H as (pX & HpX & H). apply bind_Ok in H as (pF & HpF & H).
  apply bind_Ok in H as (sols & Hsols & H). apply bind_Ok in H as (recs & Hrecs & H).
  apply Ok_inj in H. subst s. cbn.
  pose proof (traverse_length _ _ _ HpX) as HlX.
  pose proof (traverse_length _ _ _ HpF) as HlF.
  destruct (pareto_solutions_from_Ok _ _ _ _ _ Hsols) as [Hlen Hsol].
  rewrite length_zip_with in Hlen.
  exists front0, fronts. repeat split; try done; [lia | |].
  - intros n j Hj.
    destruct (traverse_row_lookup _ _ _ _ _ HpX Hj) as (x & Hx & HXj).
    destruct (traverse_row_lookup _ _ _ _ _ HpF Hj) as (f & Hf & HFj).
    destruct (Hsol n x f) as (sol & Hn & Hid & Hdv & Hov & _).
    { apply lookup_zip_with_Some. by exists x, f. }
    exists sol. subst x f. repeat split; try done.
  - intros rec Hrec.
    destruct (recommend_strategies_blocks _ _ _ _ _ Hrecs) as [_ HG].
    rewrite Forall_forall in HG.
    destruct (HG rec Hrec) as (_ & (Hid & Hx & Hf) & Hlt & _).
    destruct (Hsol (solution_id rec - 1) (decision_variables rec)
                (objective_values rec)) as (sol & Hn & Hsid & Hdv & Hov & _).
    { apply lookup_zip_with_Some. by eexists _, _. }
    exists sol. repeat split; try done. lia.
Qed.


(** X9.  The record that [build_reservoir_strategy] returns.  Its Pareto
    solutions are the members of the first front of the sorting routine,
    in the order of the front, numbered from 1: solution [n + 1] carries the
    rows of [X] and [F] at the [n]-th index of the front.  The counters are
    the size of that front and the size of the population.  The
    [solution_id] of every recommended strategy is the number of a Pareto
    solution of the record, and that solution has the decision and
    objective vectors of the recommendation. *)
Theorem build_reservoir_strategy_record sort X F rid active params horizon s :
  build_reservoir_strategy sort X F rid active params horizon = Ok s →
  ∃ front0 fronts,
    sort F = front0 :: fronts ∧
    si_reservoir_id s = rid ∧ si_total_solutions s = length X ∧
    si_pareto_solutions_count s = length front0 ∧
    length (si_pareto_solutions s) = length front0 ∧
    (∀ n j, front0 !! n = Some j →
       ∃ sol, si_pareto_solutions s !! n = Some sol ∧ s_solution_id sol = n + 1 ∧
         X !! j = Some (s_decision_variables sol) ∧
         F !! j = Some (s_objective_values sol)) ∧
    (∀ rec, rec ∈ si_recommended_strategies s →
       ∃ sol, si_pareto_solutions s !! (solution_id rec - 1) = Some sol ∧
         s_solution_id sol = solution_id rec ∧
         s_decision_variables sol = decision_variables rec ∧
         s_objective_values sol = objective_values rec).
Proof. apply build_reservoir_strategy_Ok. Qed.

Lemma build_reservoir_strategy_record_witness :
  ∃ s front0 fronts,
    build_reservoir_strategy non_dominated_sort sample_front_X sample_front_F 1
      sample_active ∅ 1 = Ok s ∧
    non_dominated_sort sample_front_F = front0 :: fronts ∧
    si_reservoir_id s = 1 ∧ si_total_solutions s = length sample_front_X ∧
    si_pareto_solutions_count s = length front0 ∧
    length (si_pareto_solutions s) = length front0 ∧
    (∀ n j, front0 !! n = Some j →
       ∃ sol, si_pareto_solutions s !! n = Some sol ∧ s_solution_id sol = n + 1 ∧
         sample_front_X !! j = Some (s_decision_variables sol) ∧
         sample_front_F !! j = Some (s_objective_values sol)) ∧
    (∀ rec, rec ∈ si_recommended_strategies s →
       ∃ sol, si_pareto_solutions s !! (solution_id rec - 1) = Some sol ∧
         s_solution_id sol = solution_id rec ∧
         s_decision_variables sol = decision_variables rec ∧
         s_objective_values sol = objective_values rec).
Proof.
  destruct (build_reservoir_strategy non_dominated_sort sample_front_X
              sample_front_F 1 sample_active ∅ 1) as [s|] eqn:Hs;
    [|vm_compute in Hs; discriminate].
  destruct (build_reservoir_strategy_record _ _ _ _ _ _ _ _ Hs)
    as (front0 & fronts & H).
  exists s, front0, fronts. split; [reflexivity | exact H].
Defined.

(** ** [dict(zip(active_objs, f))] *)

Lemma dict_of_zip_foldl_notin keys : ∀ values (d : gmap string fnum) k,
  k ∉ keys →
  foldl (λ d kv, <[kv.1 := kv.2]> d) d (zip keys values) !! k = d !! k.
Proof.
  induction keys as [|k0 keys IH]; intros values d k Hk; [done|].
  destruct values as [|v0 values]; [done|]. simpl.
  apply not_elem_of_cons in Hk as [Hne Hk].
  rewrite IH by done. by apply lookup_insert_ne.
Qed.

Lemma dict_of_zip_foldl_lookup keys : ∀ values (d : gmap string fnum) c k v,
  NoDup keys → keys !! c = Some k → values !! c = Some v →
  foldl (λ d kv, <[kv.1 := kv.2]> d) d (zip keys values) !! k = Some v.
Proof.
  induction keys as [|k0 keys IH]; intros values d c k v Hnd Hk Hv; [done|].
  destruct values as [|v0 values]; [done|]. simpl.
  apply NoDup_cons in Hnd as [Hk0 Hnd].
  destruct c as [|c]; simpl in Hk, Hv.
  - injection Hk as ->. injection Hv as ->.
    rewrite dict_of_zip_foldl_notin by done. apply lookup_insert_eq.
  - by eapply IH.
Qed.

(** X10.  The [objective_dict] of a Pareto solution.  When the active
    objective names are pairwise different and the population has one
    column per active objective, the dictionary of every Pareto solution
    of the record maps each active objective to the entry of the
    solution's objective vector in the column of that objective, and has
    no entry for any other name. *)
Theorem objective_dict_by_name sort X F rid active params horizon s sol :
  build_reservoir_strategy sort X F rid active params horizon = Ok s →
  NoDup active → rect (length active) F →
  sol ∈ si_pareto_solutions s →
  (∀ c obj, active !! c = Some obj →
     ∃ v, s_objective_values sol !! c = Some v ∧ s_objective_dict sol !! obj = Some v) ∧
  (∀ name, name ∉ active → s_objective_dict sol !! name = None).
Proof.
  unfold build_reservoir_strategy. intros H Hnd Hrect Hsol.
  apply bind_Ok in H as (front0 & Hfront & H).
  apply bind_Ok in H as (pX & HpX & H). apply bind_Ok in H as (pF & HpF & H).
  apply bind_Ok in H as (sols & Hsols & H). apply bind_Ok in H as (recs & Hrecs & H).
  apply Ok_inj in H. subst s. cbn in Hsol.
  destruct (pareto_solutions_from_Ok _ _ _ _ _ Hsols) as [Hlen Hall].
  apply list_elem_of_lookup_1 in Hsol as [n Hn].
  destruct (lookup_lt_is_Some_2 (zip pX pF) n) as [[x f] Hxf].
  { rewrite <- Hlen. by eapply lookup_lt_Some. }
  destruct (Hall n x f Hxf) as (sol' & Hn' & _ & _ & Hov & Hdict & _).
  assert (sol' = sol) as -> by congruence.
  apply lookup_zip_with_Some in Hxf as (x' & f' & [= <- <-] & _ & Hf).
  assert (length f = length active) as Hlf.
  { apply traverse_Ok in HpF.
    destruct (Forall2_lookup_r _ _ _ _ _ HpF Hf) as (j & _ & Hj).
    apply row_Ok in Hj. by eapply rect_lookup_length. }
  rewrite Hov, Hdict. split.
  - intros c obj Hobj. destruct (lookup_lt_is_Some_2 f c) as [v Hv].
    { rewrite Hlf. by eapply lookup_lt_Some. }
    exists v. split; [done|]. unfold dict_of_zip.
    by eapply dict_of_zip_foldl_lookup.
  - intros name Hname. unfold dict_of_zip.
    by rewrite dict_of_zip_foldl_notin.
Qed.

Lemma objective_dict_by_name_witness :
  ∃ s, build_reservoir_strategy non_dominated_sort sample_front_X sample_front_F 1
         sample_active ∅ 1 = Ok s ∧
    ∀ sol, sol ∈ si_pareto_solutions s →
      (∀ c obj, sample_active !! c = Some obj →
         ∃ v, s_objective_values sol !! c = Some v ∧
              s_objective_dict sol !! obj = Some v) ∧
      (∀ name, name ∉ sample_active → s_objective_dict sol !! name = None).
Proof.
  destruct (build_reservoir_strategy non_dominated_sort sample_front_X
              sample_front_F 1 sample_active ∅ 1) as [s|] eqn:Hs;
    [|vm_compute in Hs; discriminate].
  exists s. split; [reflexivity|]. intros sol Hsol.
  apply (objective_dict_by_name _ _ _ _ _ _ _ _ _ Hs); [| |exact Hsol].
  - unfold sample_active. apply NoDup_cons. split.
    + rewrite list_elem_of_singleton. discriminate.
    + apply NoDup_singleton.
  - repeat constructor.
Defined.

(** X11.  When [build_reservoir_strategy] cannot build a record.  If the
    sorting routine returns no front, [get_pareto_front] raises the
    [IndexError] of [fronts[0]].  If the decision vectors are empty (a
    horizon of zero steps), the analysis of the first member of a non-empty
    front raises numpy's zero-size [ValueError]. *)
Theorem build_reservoir_strategy_raises sort X F rid active params horizon :
  (sort F = [] →
   build_reservoir_strategy sort X F rid active params horizon =
     Raise (IndexError "list index out of range")) ∧
  (∀ front0 fronts,
     sort F = front0 :: fronts → front0 ≠ [] →
     Forall (λ j, j < length F) front0 → length X = length F → rect 0 X →
     build_reservoir_strategy sort X F rid active params horizon =
       Raise (zero_size "minimum")).
Proof.
  unfold build_reservoir_strategy, get_pareto_front. split.
  - by intros ->.
  - intros front0 fronts -> Hne Hvalid HlX Hrect. cbn [mbind result_bind].
    destruct (traverse_total (λ j, row j X) front0) as [pX HpX].
    { eapply Forall_impl; [exact Hvalid|]. intros j Hj. simpl in Hj.
      destruct (row_total X j) as (x & Hx & _); [lia | eauto]. }
    destruct (traverse_total (λ j, row j F) front0) as [pF HpF].
    { eapply Forall_impl; [exact Hvalid|]. intros j Hj. simpl in Hj.
      destruct (row_total F j) as (f & Hf & _); [lia | eauto]. }
    rewrite HpX, HpF. cbn [mbind result_bind].
    destruct front0 as [|j front0]; [done|].
    apply traverse_Ok in HpX, HpF.
    inversion HpX as [|? x ? pX' Hx _]; subst.
    inversion HpF as [|? f ? pF' Hf _]; subst.
    apply row_Ok in Hx. apply (rect_lookup_length _ _ _ _ Hrect) in Hx.
    apply nil_length_inv in Hx. by subst x.
Qed.

Lemma build_reservoir_strategy_raises_witness :
  build_reservoir_strategy (λ _, []) [[of_Z 1]] [[of_Z 2]] 1 ["flood"] ∅ 1 =
    Raise (IndexError "list index out of range") ∧
  build_reservoir_strategy non_dominated_sort [[]] [[of_Z 2]] 1 ["power"] ∅ 0 =
    Raise (zero_size "minimum").
Proof.
  split.
  - apply (proj1 (build_reservoir_strategy_raises (λ _, []) [[of_Z 1]] [[of_Z 2]]
                    1 ["flood"] ∅ 1)).
    reflexivity.
  - apply (proj2 (build_reservoir_strategy_raises non_dominated_sort [[]]
                    [[of_Z 2]] 1 ["power"] ∅ 0) [0] []).
    + reflexivity.
    + discriminate.
    + repeat constructor.
    + reflexivity.
    + repeat constructor.
Defined.

(** ** [analyze_cross_reservoir_coordination] *)

Lemma coordination_pairs_length all :
  2 * length (coordination_pairs all) = length all * (length all - 1).
Proof.
  induction all as [|s all IH]; simpl; [done|].
  rewrite length_app, length_map. nia.
Qed.

Lemma coordination_pairs_elem all opp :
  opp ∈ coordination_pairs all ↔
  ∃ i j s1 s2, i < j ∧ all !! i = Some s1 ∧ all !! j = Some s2 ∧
    opp = opportunity s1 s2.
Proof.
  induction all as [|s all IH]; simpl.
  - rewrite elem_of_nil. split; [done|]. by intros (i & j & s1 & s2 & _ & ? & _).
  - rewrite elem_of_app, list_elem_of_fmap, IH. split.
    + intros [(s2 & -> & Hs2)|(i & j & s1 & s2 & Hij & H1 & H2 & ->)].
      * apply list_elem_of_lookup_1 in Hs2 as [j Hj].
        exists 0, (S j), s, s2. repeat split; [lia | done..].
      * exists (S i), (S j), s1, s2. repeat split; [lia | done..].
    + intros (i & j & s1 & s2 & Hij & H1 & H2 & ->).
      destruct j as [|j]; [lia|]. simpl in H2. destruct i as [|i]; simpl in H1.
      * injection H1 as ->. left. exists s2. split; [done|].
        by eapply list_elem_of_lookup_2.
      * right. exists i, j, s1, s2. repeat split; [lia | done..].
Qed.

(** X12.  [analyze_cross_reservoir_coordination] answers with its fixed
    message for at most one strategy.  For [n >= 2] strategies it lists
    [n (n - 1) / 2] coordination opportunities: exactly one for every pair
    of positions [i < j], labelled with the reservoir ids of the two
    strategies in that order; the lists of conflicts and of coordination
    strategies are left empty. *)
Theorem coordination_opportunities_are_pairs all :
  (length all ≤ 1 →
   analyze_cross_reservoir_coordination all =
     CoordinationMessage "单水库系统，无需协调分析") ∧
  (1 < length all →
   ∃ opps,
     analyze_cross_reservoir_coordination all = CoordinationAnalysis opps [] [] ∧
     2 * length opps = length all * (length all - 1) ∧
     ∀ opp, opp ∈ opps ↔
       ∃ i j s1 s2, i < j ∧ all !! i = Some s1 ∧ all !! j = Some s2 ∧
         opp = opportunity s1 s2).
Proof.
  unfold analyze_cross_reservoir_coordination. split; intros Hn.
  - by rewrite decide_True.
  - rewrite decide_False by lia. eexists. split; [reflexivity|].
    split; [apply coordination_pairs_length | apply coordination_pairs_elem].
Qed.

Lemma coordination_opportunities_are_pairs_witness :
  analyze_cross_reservoir_coordination [] =
    CoordinationMessage "单水库系统，无需协调分析" ∧
  ∃ opps,
    analyze_cross_reservoir_coordination
      (map (λ i, {| si_reservoir_id := i; si_pareto_solutions_count := 0;
                    si_total_solutions := 0; si_horizon := 1;
                    si_objectives := ["flood"]; si_pareto_solutions := [];
                    si_recommended_strategies := [] |}) [1; 2; 3]) =
      CoordinationAnalysis opps [] [] ∧
    2 * length opps = 3 * (3 - 1).
Proof.
  split.
  - apply (proj1 (coordination_opportunities_are_pairs [])). simpl. lia.
  - destruct (proj2 (coordination_opportunities_are_pairs
                       (map (λ i, {| si_reservoir_id := i;
                                     si_pareto_solutions_count := 0;
                                     si_total_solutions := 0; si_horizon := 1;
                                     si_objectives := ["flood"];
                                     si_pareto_solutions := [];
                                     si_recommended_strategies := [] |})
                            [1; 2; 3])))
      as (opps & Hopps & Hlen & _).
    + simpl. lia.
    + exists opps. split; [exact Hopps | exact Hlen].
Defined.

(** ** [optimize]: the report, the table and exceptions *)

Section OptimizeReport.
Variable minimize :
  _ReservoirSchedulingProblem → NSGA3 → Z → nat → result (option Result).
Variable get_reference_directions : string → nat → Z → result matrix.
Variable fast_non_dominated_sort : matrix → list (list nat).
Variables (data : py_data) (objectives : list (string * bool)).
Variable params : gmap string Q.

Abbreviation step := (reservoir_step minimize get_reference_directions
                    fast_non_dominated_sort objectives params).
Abbreviation run := (attempt minimize get_reference_directions objectives params).
Abbreviation directions := (reference_directions get_reference_directions
                          objectives params).
Abbreviation ids := (reservoir_ids data).
Abbreviation enabled := (enabled_objectives objectives).
Abbreviation frame := (frame_of minimize get_reference_directions
                     fast_non_dominated_sort objectives params).
Abbreviation strategy := (strategy_of minimize get_reference_directions
                        fast_non_dominated_sort objectives params).
Abbreviation loop := (reservoir_loop minimize get_reference_directions
                    fast_non_dominated_sort
                    (enabled_objectives objectives) params
                    (int (get params "population_size" 100))
                    (int (get params "iterations" 100))
                    (int (get params "reference_points" 12))
                    (int (get params "horizon" 24))
                    (get params "Q_min" 0) (get params "Q_max" 1000)).
Abbreviation result_of := (outcome minimize get_reference_directions
                         fast_non_dominated_sort data objectives params).
Abbreviation trace_of := (trace minimize get_reference_directions
                        fast_non_dominated_sort data objectives params).
Abbreviation manager_of := (manager_after minimize get_reference_directions
                          fast_non_dominated_sort data objectives params).

(** What a successful iteration has computed. *)
Lemma reservoir_step_yield i t df s :
  step i = (t, Ok (Some (df, s))) →
  ∃ res F X df0,
    run i = Ok res ∧ population_of res = Some (F, X) ∧
    new_frame F enabled = Ok df0 ∧
    df = assign_column "time_step"
           (map (λ t, Int (Z.of_nat t)) (seq 0 (length F)))
           (assign_column "reservoir_id"
              (replicate (length F) (Int (Z.of_nat i))) df0) ∧
    build_reservoir_strategy fast_non_dominated_sort X F i enabled params
      (int (get params "horizon" 24)) = Ok s.
Proof.
  unfold attempt, reservoir_step, optimize_reservoir, reference_directions,
    scheduling_problem, call_minimize, lift, print.
  destruct (get_reference_directions _ _ _) as [rd|e]; [|done].
  cbn [mbind result_bind io_bind mret io_ret app].
  destruct (minimize _ _ _ _) as [res|e]; [|done].
  destruct res as [[[[[F|] [X|]]|]]|]; try done.
  destruct (new_frame F _) as [df0|e] eqn:Hframe; [|done].
  cbn [mbind result_bind io_bind mret io_ret app].
  destruct (build_reservoir_strategy _ _ _ _ _ _ _) as [s'|e] eqn:Hs; [|done].
  cbn [mbind result_bind io_bind mret io_ret app].
  intros [= <- <- <-]. eexists _, F, X, df0. repeat split; try done.
  assert (length (rows df0) = length F) as Hrows.
  { unfold new_frame in Hframe. case_decide; [|done].
    apply Ok_inj in Hframe as <-. simpl. by rewrite length_map. }
  rewrite assign_column_rows_length by (by rewrite length_replicate).
  by rewrite Hrows.
Qed.

Lemma reservoir_loop_returns l : ∀ acc_r acc_s,
  Forall (λ i, ∃ r, (step i).2 = Ok r) l →
  loop l acc_r acc_s =
    (concat (map (λ i, (step i).1) l),
     Ok (acc_r ++ omap frame l, acc_s ++ omap strategy l)).
Proof.
  induction l as [|i l IH]; intros acc_r acc_s Hall.
  - simpl. by rewrite !app_nil_r.
  - apply Forall_cons in Hall as [[r Hr] Hall].
    cbn [reservoir_loop omap list_omap map concat]. unfold frame_of, strategy_of.
    change (optimize_reservoir _ _ _ _ _ _ _ _ _ _ _ i) with (step i).
    destruct (step i) as [t [[[df s]|]|e]] eqn:Hstep; [| |done].
    + cbn [mbind io_bind]. rewrite IH by done. cbn [fst].
      by rewrite <- !app_assoc.
    + cbn [mbind io_bind]. rewrite IH by done. done.
Qed.

Lemma reservoir_loop_raises pre i post e : ∀ acc_r acc_s,
  Forall (λ j, ∃ r, (step j).2 = Ok r) pre → (step i).2 = Raise e →
  loop (pre ++ i :: post) acc_r acc_s =
    (concat (map (λ j, (step j).1) (pre ++ [i])), Raise e).
Proof.
  induction pre as [|j pre IH]; intros acc_r acc_s Hall Hi.
  - cbn [app reservoir_loop map concat].
    change (optimize_reservoir _ _ _ _ _ _ _ _ _ _ _ i) with (step i).
    destruct (step i) as [t [r|e']]; simpl in Hi; [done|].
    injection Hi as ->. cbn [mbind io_bind fst]. by rewrite app_nil_r.
  - apply Forall_cons in Hall as [[r Hr] Hall].
    cbn [app reservoir_loop map concat].
    change (optimize_reservoir _ _ _ _ _ _ _ _ _ _ _ j) with (step j).
    destruct (step j) as [t [[[df s]|]|e']] eqn:Hstep; [| |done];
      cbn [mbind io_bind]; rewrite IH by done; done.
Qed.

(** Every iteration has returned when the call has. *)
Lemma optimize_returns_steps self r :
  enabled ≠ [] → result_of self = Ok r →
  Forall (λ i, ∃ r, (step i).2 = Ok r) ids.
Proof.
  intros Hactive Hout.
  destruct (loop ids [] []) as [t lr] eqn:Hloop.
  destruct (reservoir_loop_spec minimize get_reference_directions
              fast_non_dominated_sort objectives params ids [] [])
    as [[Hall _]|(pre & i & post & e & Hids & Hi & Hspec)]; [done|].
  rewrite Hspec in Hloop. injection Hloop as <- <-.
  destruct (optimize_spec minimize get_reference_directions
              fast_non_dominated_sort data objectives params self _ _
              Hactive Hspec) as (_ & _ & _ & _ & _ & Hraise & _).
  congruence.
Qed.

Lemma strategy_of_Some i s :
  strategy i = Some s →
  is_Some (frame i) ∧ si_reservoir_id s = i ∧
  length (si_pareto_solutions s) = si_pareto_solutions_count s.
Proof.
  unfold strategy_of, frame_of.
  destruct (step i) as [t [[[df s']|]|e]] eqn:Hstep; try done.
  intros [= ->].
  destruct (reservoir_step_yield _ _ _ _ Hstep)
    as (res & F & X & df0 & _ & _ & _ & _ & Hs).
  destruct (build_reservoir_strategy_Ok _ _ _ _ _ _ _ _ Hs)
    as (front0 & fronts & _ & Hid & _ & Hcount & Hlen & _).
  split; [by eexists|]. split; [done | congruence].
Qed.

Lemma strategy_of_None i : strategy i = None → frame i = None.
Proof.
  unfold strategy_of, frame_of.
  by destruct (step i) as [t [[[df s']|]|e]].
Qed.

Lemma strategy_frame_ids l :
  map si_reservoir_id (omap strategy l) = filter (λ i, is_Some (frame i)) l ∧
  Forall (λ s, length (si_pareto_solutions s) = si_pareto_solutions_count s)
         (omap strategy l).
Proof.
  induction l as [|i l [IH1 IH2]]; [by split|].
  cbn [omap list_omap]. rewrite filter_cons.
  destruct (strategy i) as [s|] eqn:Hs.
  - apply strategy_of_Some in Hs as (Hsome & Hid & Hlen).
    rewrite decide_True by done. cbn [map]. rewrite Hid, IH1.
    split; [done|]. by constructor.
  - apply strategy_of_None in Hs. rewrite decide_False; [done|].
    rewrite Hs. by intros [? ?].
Qed.

(** X13.  The report attached to the table.  When [optimize] returns a
    table, its [attrs] hold a report whose [total_reservoirs] is the
    reservoir count of the call, failed reservoirs included, while its
    strategies are those of the successful reservoirs only, in increasing
    order of their ids.  [total_pareto_solutions] is the sum of the
    [pareto_solutions_count] fields of the strategies, and the
    implementation guidance has one entry per strategy, keyed by its
    reservoir id. *)
Theorem optimize_report self df :
  result_of self = Ok (Some df) →
  ∃ rep,
    attrs df = Some rep ∧
    total_reservoirs (r_summary rep) = reservoir_count data ∧
    map si_reservoir_id (reservoir_strategies rep) =
      filter (λ i, is_Some (frame i)) ids ∧
    total_pareto_solutions (r_summary rep) =
      list_sum (map si_pareto_solutions_count (reservoir_strategies rep)) ∧
    map fst (operational_recommendations (implementation_guidance rep)) =
      map si_reservoir_id (reservoir_strategies rep).
Proof.
  intros Hout.
  assert (enabled ≠ []) as Hactive.
  { intros Hnil. unfold outcome in Hout.
    by rewrite optimize_no_objective in Hout. }
  pose proof (optimize_returns_steps _ _ Hactive Hout) as Hall.
  pose proof (reservoir_loop_returns ids [] [] Hall) as Hloop.
  cbn [app] in Hloop.
  destruct (optimize_spec minimize get_reference_directions
              fast_non_dominated_sort data objectives params self _ _
              Hactive Hloop) as (pre & post & _ & _ & _ & Hcase).
  destruct (omap frame ids) as [|first others] eqn:Hframes.
  { destruct Hcase as (_ & Hnone & _). congruence. }
  destruct Hcase as (df' & Hdf' & _ & _ & _ & Hattrs).
  assert (df' = df) as -> by congruence.
  eexists. split; [exact Hattrs|].
  destruct (strategy_frame_ids ids) as [Hids Hcounts].
  cbn. split; [done|]. split; [done|]. split.
  - clear -Hcounts. induction Hcounts as [|s ss Hs _ IH]; [done|].
    simpl. by rewrite Hs, IH.
  - generalize (map si_reservoir_id (omap strategy ids)). intros l.
    induction l as [|i l IH]; simpl; [done | by rewrite IH].
Qed.

(** X14.  Exceptions are not caught.  When the iteration of reservoir
    [i] raises (in the reference directions, the optimisation run, the
    construction of the frame or of the strategy record) and the
    iterations before it have returned, [optimize] raises the same
    exception: the frames of the earlier reservoirs are dropped,
    [self.results] keeps its value, and no later reservoir is optimised,
    the seeds of the calls of [minimize] being those of the reservoirs up
    to [i]. *)
Theorem optimize_exception_propagates self pre i post e :
  enabled ≠ [] → ids = pre ++ i :: post →
  Forall (λ j, ∃ r, (step j).2 = Ok r) pre → (step i).2 = Raise e →
  result_of self = Raise e ∧ manager_of self = self ∧
  seeds (trace_of self) =
    match directions with Ok _ => pre ++ [i] | Raise _ => [] end.
Proof.
  intros Hactive Hids Hpre Hi.
  pose proof (reservoir_loop_raises pre i post e [] [] Hpre Hi) as Hloop.
  rewrite <- Hids in Hloop.
  destruct (optimize_spec minimize get_reference_directions
              fast_non_dominated_sort data objectives params self _ _
              Hactive Hloop) as (t1 & t2 & Ht1 & Ht2 & Htrace & Hout & Hself).
  split; [done|]. split; [done|].
  rewrite Htrace, !seeds_app, (seeds_prints t1), (seeds_prints t2) by done.
  rewrite app_nil_r. cbn [app]. apply loop_seeds.
Qed.

(** X15.  A [model_results] entry of length 0.  The loop runs over no
    reservoir: [minimize] is not called, the call prints the detected count
    of 0 and the line for the failure of all reservoirs, returns [None]
    and leaves [self.results] as it was. *)
Theorem optimize_zero_reservoirs self lens :
  data = Dict lens → lens !! "model_results" = Some 0 → enabled ≠ [] →
  result_of self = Ok None ∧ manager_of self = self ∧
  trace_of self = [ Print ("检测到 " +:+ show 0 +:+ " 个水库的模型结果");
                    Print "所有水库优化均失败" ].
Proof.
  intros -> Hlens Hactive. unfold outcome, manager_after, trace, optimize.
  rewrite decide_False by done. unfold count_reservoirs. rewrite Hlens.
  done.
Qed.

(** The rows of the frame of a successful reservoir. *)
Lemma successful_frame_rows (F : matrix) i df0 :
  "reservoir_id" ∉ enabled → "time_step" ∉ enabled →
  new_frame F enabled = Ok df0 →
  rows (assign_column "time_step"
          (map (λ t, Int (Z.of_nat t)) (seq 0 (length F)))
          (assign_column "reservoir_id"
             (replicate (length F) (Int (Z.of_nat i))) df0))
  = population_rows i F.
Proof.
  intros Hid Hstep Hframe. unfold new_frame in Hframe.
  case_decide; [|done]. apply Ok_inj in Hframe as <-.
  unfold assign_column at 2. cbn [columns rows attrs].
  rewrite decide_False by done.
  unfold assign_column. cbn [columns rows attrs]. rewrite decide_False.
  2:{ intros Hin. apply elem_of_app in Hin as [Hin|Hin]; [done|].
      by apply list_elem_of_singleton in Hin. }
  cbn [rows]. unfold population_rows.
  assert (∀ k (G : matrix),
            zip_with (λ r v, r ++ [v])
              (zip_with (λ r v, r ++ [v]) (map (map Float) G)
                 (replicate (length G) (Int (Z.of_nat i))))
              (map (λ t, Int (Z.of_nat t)) (seq k (length G)))
            = imap (λ t f, map Float f ++ [Int (Z.of_nat i); Int (Z.of_nat (k + t))]) G)
    as Hgen.
  { intros k G. revert k. induction G as [|f G IH]; intros k; [done|].
    cbn [length replicate map seq zip_with imap]. f_equal.
    - by rewrite Nat.add_0_r, <- app_assoc.
    - rewrite IH. apply imap_ext. intros t g _. simpl.
      by rewrite Nat.add_succ_r. }
  apply (Hgen 0).
Qed.

Lemma frame_rows_table i :
  "reservoir_id" ∉ enabled → "time_step" ∉ enabled →
  (∃ r, (step i).2 = Ok r) →
  from_option rows [] (frame i) =
    table_of minimize get_reference_directions objectives params i ∧
  ∀ dfi, frame i = Some dfi →
    columns dfi = enabled ++ ["reservoir_id"; "time_step"].
Proof.
  intros Hid Hts [r Hr]. unfold frame_of, table_of.
  destruct (step i) as [t [[[df s]|]|e]] eqn:Hstep; [| |done].
  - destruct (reservoir_step_yield _ _ _ _ Hstep)
      as (res & F & X & df0 & Hrun & Hpop & Hframe & -> & _).
    rewrite Hrun, Hpop. cbn [from_option]. split.
    + by apply successful_frame_rows.
    + intros dfi [= <-]. by eapply successful_frame_columns.
  - assert (fails_to_yield minimize get_reference_directions objectives params i)
      as (res & Hrun & Hpop).
    { apply (fails_to_yield_step minimize get_reference_directions
               fast_non_dominated_sort objectives params i). eauto. }
    rewrite Hrun, Hpop. split; [done | by intros dfi].
Qed.

(** X16.  The layout of the table.  With objective names other than
    [reservoir_id] and [time_step], a table that [optimize] returns has one
    column per enabled objective followed by the columns [reservoir_id] and
    [time_step], and its rows are, reservoir by reservoir in increasing
    order of the ids, the members of the whole final population of the
    reservoir's run: each row holds the objective vector of a member, the
    reservoir id and the position of the member in the population, which is
    what the column [time_step] contains. *)
Theorem optimize_table_layout self df :
  result_of self = Ok (Some df) →
  "reservoir_id" ∉ enabled → "time_step" ∉ enabled →
  columns df = enabled ++ ["reservoir_id"; "time_step"] ∧
  rows df =
    concat (map (table_of minimize get_reference_directions objectives params) ids).
Proof.
  intros Hout Hid Hts.
  assert (enabled ≠ []) as Hactive.
  { intros Hnil. unfold outcome in Hout.
    by rewrite optimize_no_objective in Hout. }
  pose proof (optimize_returns_steps _ _ Hactive Hout) as Hall.
  pose proof (reservoir_loop_returns ids [] [] Hall) as Hloop.
  cbn [app] in Hloop.
  destruct (optimize_spec minimize get_reference_directions
              fast_non_dominated_sort data objectives params self _ _
              Hactive Hloop) as (pre & post & _ & _ & _ & Hcase).
  destruct (omap frame ids) as [|first others] eqn:Hframes.
  { destruct Hcase as (_ & Hnone & _). congruence. }
  destruct Hcase as (df' & Hdf' & _ & Hcols & Hrows & _).
  assert (df' = df) as -> by congruence.
  rewrite Hcols, Hrows, <- Hframes. split.
  - assert (first ∈ omap frame ids) as Hin by (rewrite Hframes; by left).
    apply list_elem_of_omap in Hin as (i & Hi & Hfirst).
    rewrite Forall_forall in Hall.
    by apply (frame_rows_table i Hid Hts (Hall i Hi)).
  - clear Hloop Hframes Hrows Hcols Hdf' Hout.
    induction Hall as [|i l Hi _ IH]; [done|].
    destruct (frame_rows_table i Hid Hts Hi) as [Hrows _].
    cbn [omap list_omap map concat]. rewrite <- Hrows, <- IH.
    by destruct (frame i).
Qed.
End OptimizeReport.

Lemma optimize_report_witness :
  ∃ df rep,
    outcome (one_generation sample_population) das_dennis non_dominated_sort
      three_reservoirs sample_objectives sample_params new_manager = Ok (Some df) ∧
    attrs df = Some rep ∧
    total_reservoirs (r_summary rep) = reservoir_count three_reservoirs ∧
    map si_reservoir_id (reservoir_strategies rep) =
      filter (λ i, is_Some (frame_of (one_generation sample_population) das_dennis
                              non_dominated_sort sample_objectives sample_params i))
             (reservoir_ids three_reservoirs) ∧
    total_pareto_solutions (r_summary rep) =
      list_sum (map si_pareto_solutions_count (reservoir_strategies rep)) ∧
    map fst (operational_recommendations (implementation_guidance rep)) =
      map si_reservoir_id (reservoir_strategies rep).
Proof.
  destruct (outcome (one_generation sample_population) das_dennis
              non_dominated_sort three_reservoirs sample_objectives sample_params
              new_manager) as [[df|]|e] eqn:Hout;
    [| vm_compute in Hout; discriminate | vm_compute in Hout; discriminate].
  exists df.
  destruct (optimize_report (one_generation sample_population) das_dennis
              non_dominated_sort three_reservoirs sample_objectives sample_params
              new_manager df Hout) as (rep & Hrep).
  exists rep. split; [reflexivity | exact Hrep].
Defined.

Lemma optimize_exception_propagates_witness :
  outcome (one_generation sample_population) das_dennis non_dominated_sort
    three_reservoirs unknown_objectives sample_params new_manager =
    Raise (ValueError "未知目标: navigation") ∧
  manager_after (one_generation sample_population) das_dennis non_dominated_sort
    three_reservoirs unknown_objectives sample_params new_manager = new_manager ∧
  seeds (trace (one_generation sample_population) das_dennis non_dominated_sort
           three_reservoirs unknown_objectives sample_params new_manager) =
    match reference_directions das_dennis unknown_objectives sample_params with
    | Ok _ => [] ++ [1]
    | Raise _ => []
    end.
Proof.
  apply (optimize_exception_propagates (one_generation sample_population)
           das_dennis non_dominated_sort three_reservoirs unknown_objectives
           sample_params new_manager [] 1 [2; 3]).
  - discriminate.
  - reflexivity.
  - constructor.
  - vm_compute. reflexivity.
Defined.

Lemma optimize_zero_reservoirs_witness :
  outcome (one_generation sample_population) das_dennis non_dominated_sort
    (Dict {[ "model_results" := 0 ]}) sample_objectives sample_params used_manager =
    Ok None ∧
  manager_after (one_generation sample_population) das_dennis non_dominated_sort
    (Dict {[ "model_results" := 0 ]}) sample_objectives sample_params used_manager =
    used_manager ∧
  trace (one_generation sample_population) das_dennis non_dominated_sort
    (Dict {[ "model_results" := 0 ]}) sample_objectives sample_params used_manager =
    [ Print ("检测到 " +:+ show 0 +:+ " 个水库的模型结果");
      Print "所有水库优化均失败" ].
Proof.
  apply (optimize_zero_reservoirs (one_generation sample_population) das_dennis
           non_dominated_sort (Dict {[ "model_results" := 0 ]}) sample_objectives
           sample_params used_manager {[ "model_results" := 0 ]}).
  - reflexivity.
  - reflexivity.
  - discriminate.
Defined.

Lemma optimize_table_layout_witness :
  ∃ df,
    outcome (one_generation sample_population) das_dennis non_dominated_sort
      three_reservoirs sample_objectives sample_params new_manager = Ok (Some df) ∧
    columns df =
      enabled_objectives sample_objectives ++ ["reservoir_id"; "time_step"] ∧
    rows df =
      concat (map (table_of (one_generation sample_population) das_dennis
                     sample_objectives sample_params)
                  (reservoir_ids three_reservoirs)).
Proof.
  destruct (outcome (one_generation sample_population) das_dennis
              non_dominated_sort three_reservoirs sample_objectives sample_params
              new_manager) as [[df|]|e] eqn:Hout;
    [| vm_compute in Hout; discriminate | vm_compute in Hout; discriminate].
  exists df. split; [reflexivity|].
  apply (optimize_table_layout (one_generation sample_population) das_dennis
           non_dominated_sort three_reservoirs sample_objectives sample_params
           new_manager df Hout).
  - apply (bool_decide_unpack _). vm_compute. exact I.
  - apply (bool_decide_unpack _). vm_compute. exact I.
Defined.

(** ** The worker: [ComputeWorker.run_schedule_optimization] *)

Lemma assign_column_columns name vals df c :
  c ∈ columns (assign_column name vals df) → c ∈ columns df ∨ c = name.
Proof.
  unfold assign_column. case_decide; simpl; [by left|].
  rewrite elem_of_app, list_elem_of_singleton. tauto.
Qed.

Lemma verdicts_app t1 t2 : verdicts (t1 ++ t2) = verdicts t1 ++ verdicts t2.
Proof. unfold verdicts. apply omap_app. Qed.

Lemma verdicts_run t : verdicts (map Run t) = [].
Proof. induction t as [|e t IH]; [done | exact IH]. Qed.

Lemma not_finished_run t : Emit task_finished ∉ map Run t.
Proof. intros H. by apply list_elem_of_fmap in H as (e & ? & _). Qed.

Lemma not_finished_except e : Emit task_finished ∉ except e.
Proof.
  unfold except. rewrite !elem_of_cons, elem_of_nil.
  intros [?|[?|[?|[]]]]; discriminate.
Qed.

Section WorkerFacts.
Variable minimize :
  _ReservoirSchedulingProblem → NSGA3 → Z → nat → result (option Result).
Variable get_reference_directions : string → nat → Z → result matrix.
Variable fast_non_dominated_sort : matrix → list (list nat).

Abbreviation call := (optimize_schedule_input minimize
                      get_reference_directions fast_non_dominated_sort).

(** X17.  The worker always reports the end of its task: on every path,
    cancelled, failed or successful, the last thing it does is to emit
    [task_finished], and it emits that signal once. *)
Theorem worker_always_finishes self objectives params model_results
    cancelled_early cancelled_late :
  ∃ acts,
    (run_schedule_optimization minimize get_reference_directions
       fast_non_dominated_sort self objectives params model_results
       cancelled_early cancelled_late).2
      = acts ++ [Emit task_finished] ∧
    Emit task_finished ∉ acts.
Proof.
  unfold run_schedule_optimization. cbn [fst snd].
  eexists. split; [reflexivity|].
  pose proof not_finished_run as Hrun. pose proof not_finished_except as Hex.
  destruct cancelled_early; cbn [fst snd].
  { rewrite list_elem_of_singleton. discriminate. }
  destruct (call self model_results objectives params) as [self' [t r]].
  destruct r as [[df|]|e]; [| |];
    repeat match goal with
           | |- context [if ?b then _ else _] => destruct b
           | |- context [match select_columns ?n ?d with _ => _ end] =>
               destruct (select_columns n d)
           end;
    cbn [fst snd]; rewrite ?elem_of_app, ?elem_of_cons, ?elem_of_nil;
    intros Hin;
    repeat match type of Hin with
           | _ ∨ _ => destruct Hin as [Hin|Hin]
           end;
    try discriminate; try done;
    try (by eapply Hrun); try (by eapply Hex).
Qed.

(** X18.  One verdict per run.  A run of the worker emits at most one of
    the signals [schedule_completed] and [error_occurred], and exactly one
    when it is not cancelled.  A run cancelled before the optimisation
    emits neither, does not call the optimiser and leaves the manager as
    it was. *)
Theorem worker_single_verdict self objectives params model_results
    cancelled_early cancelled_late :
  let out := run_schedule_optimization minimize get_reference_directions
               fast_non_dominated_sort self objectives params model_results
               cancelled_early cancelled_late in
  length (verdicts out.2) ≤ 1 ∧
  (cancelled_early = false → cancelled_late = false →
   length (verdicts out.2) = 1) ∧
  (cancelled_early = true →
   verdicts out.2 = [] ∧ worker_seeds out.2 = [] ∧ out.1 = self).
Proof.
  unfold run_schedule_optimization. cbn [fst snd].
  destruct cancelled_early; cbn [fst snd].
  { split; [simpl; lia|]. split; [done|]. by intros _. }
  destruct (call self model_results objectives params) as [self' [t r]].
  destruct r as [[df|]|e];
    repeat match goal with
           | |- context [if ?b then _ else _] => destruct b
           | |- context [match select_columns ?n ?d with _ => _ end] =>
               destruct (select_columns n d)
           end;
    cbn [fst snd]; rewrite !verdicts_app, verdicts_run;
    (split; [simpl; lia|]); (split; [|done]); try done.
Qed.

Lemma select_columns_Returned names df sel :
  select_columns names df = Returned sel →
  Forall (λ n, n ∈ columns df) names ∧ length (rows sel) = length (rows df).
Proof.
  unfold select_columns. case_decide as Hmiss; [|done]. intros [= <-].
  split; [|simpl; by rewrite length_map].
  apply Forall_forall. intros n Hn.
  destruct (decide (n ∈ columns df)) as [|Hout]; [done|].
  assert (n ∈ filter (λ n, n ∉ columns df) names) as Hin
    by (by apply list_elem_of_filter).
  rewrite Hmiss in Hin. by apply elem_of_nil in Hin.
Qed.

(** The table that the optimiser hands to the worker. *)
Lemma call_returns_table self model_results objectives params self' t df :
  call self model_results objectives params = (self', (t, Returned (Some df))) →
  results self' = Some df ∧
  (∀ c, c ∈ columns df →
     c ∈ enabled_objectives objectives ∨ c = "reservoir_id" ∨ c = "time_step") ∧
  ("reservoir_id" ∉ enabled_objectives objectives →
   "time_step" ∉ enabled_objectives objectives →
   columns df = enabled_objectives objectives ++ ["reservoir_id"; "time_step"]).
Proof.
  unfold optimize_schedule_input.
  destruct model_results as [n|]; [|by case_decide].
  set (data := Dict _).
  destruct (optimize _ _ _ _ data _ _) as [self1 [t1 r1]] eqn:Hopt.
  intros [= -> -> Hr]. destruct r1 as [[df1|]|e]; try done.
  injection Hr as ->.
  assert (outcome minimize get_reference_directions fast_non_dominated_sort
            data objectives params self = Ok (Some df)) as Hout
    by (unfold outcome; by rewrite Hopt).
  assert (manager_after minimize get_reference_directions fast_non_dominated_sort
            data objectives params self = self') as Hman
    by (unfold manager_after; by rewrite Hopt).
  assert (enabled_objectives objectives ≠ []) as Hactive.
  { intros Hnil. unfold outcome in Hout.
    by rewrite optimize_no_objective in Hout. }
  pose proof (optimize_returns_steps _ _ _ _ _ _ _ _ Hactive Hout) as Hall.
  pose proof (reservoir_loop_returns minimize get_reference_directions
                fast_non_dominated_sort objectives params
                (reservoir_ids data) [] [] Hall) as Hloop.
  cbn [app] in Hloop.
  destruct (optimize_spec minimize get_reference_directions
              fast_non_dominated_sort data objectives params self _ _
              Hactive Hloop) as (pre & post & _ & _ & _ & Hcase).
  destruct (omap _ (reservoir_ids data)) as [|first others] eqn:Hframes.
  { destruct Hcase as (_ & Hnone & _). congruence. }
  destruct Hcase as (df' & Hdf' & Hman' & Hcols & _).
  assert (df' = df) as -> by congruence.
  split; [by rewrite <- Hman, Hman'|].
  assert (first ∈ omap (frame_of minimize get_reference_directions
                          fast_non_dominated_sort objectives params)
                       (reservoir_ids data)) as Hin
    by (rewrite Hframes; by left).
  apply list_elem_of_omap in Hin as (i & Hi & Hfirst).
  unfold frame_of in Hfirst.
  destruct (reservoir_step _ _ _ _ _ i) as [ti [[[dfi s]|]|e]] eqn:Hstep; try done.
  injection Hfirst as ->.
  destruct (reservoir_step_yield _ _ _ _ _ _ _ _ _ Hstep)
    as (res & F & X & df0 & _ & _ & Hframe & -> & _).
  split.
  - intros c Hc. rewrite Hcols in Hc.
    apply assign_column_columns in Hc as [Hc|Hc]; [|tauto].
    apply assign_column_columns in Hc as [Hc|Hc]; [|tauto].
    left. unfold new_frame in Hframe. case_decide; [|done].
    by apply Ok_inj in Hframe as <-.
  - intros Hid Hts. rewrite Hcols. by eapply successful_frame_columns.
Qed.

(** X19.  What [schedule_completed] carries, and when.  The worker emits
    [schedule_completed] only if all of flood, power, supply and ecology
    are enabled: it selects the columns of these four objectives from the
    table, and the table has no column for an objective that is not
    enabled.  The dictionary sent with the signal holds the table that the
    manager keeps in [self.results], a copy of that same table under the
    key [pareto_front], the report attached to the table, and an
    objectives frame with one row per row of the table. *)
Theorem worker_completed_needs_all_objectives self objectives params
    model_results cancelled_early cancelled_late res :
  let out := run_schedule_optimization minimize get_reference_directions
               fast_non_dominated_sort self objectives params model_results
               cancelled_early cancelled_late in
  Emit (schedule_completed res) ∈ out.2 →
  (∀ name, name ∈ objective_names → name ∈ enabled_objectives objectives) ∧
  results out.1 = Some (optimization_results res) ∧
  pareto_front res = optimization_results res ∧
  schedule_strategy res = attrs (optimization_results res) ∧
  length (rows (objectives_frame res)) = length (rows (optimization_results res)).
Proof.
  unfold run_schedule_optimization. cbn [fst snd].
  assert (∀ e, Emit (schedule_completed res) ∉ except e) as Hexc.
  { intros e. unfold except. rewrite !elem_of_cons, elem_of_nil.
    intros [?|[?|[?|[]]]]; discriminate. }
  destruct cancelled_early; cbn [fst snd].
  { rewrite ?elem_of_app, ?elem_of_cons, ?elem_of_nil.
    intros [[?|[]]|[?|[]]]; discriminate. }
  destruct (call self model_results objectives params) as [self' [t r]] eqn:Hcall.
  destruct r as [[df|]|e]; [destruct cancelled_late;
    [|destruct (frame_empty df);
       [|destruct (select_columns _ df) as [sel|e] eqn:Hsel]]
    | destruct cancelled_late |];
    cbn [fst snd]; intros Hin;
    rewrite ?elem_of_app, ?elem_of_cons, ?elem_of_nil in Hin;
    repeat match type of Hin with
           | _ ∨ _ => destruct Hin as [Hin|Hin]
           end;
    try discriminate; try done;
    try (by apply list_elem_of_fmap in Hin as (? & ? & _));
    try (by apply Hexc in Hin).
  injection Hin as ->. cbn.
  destruct (call_returns_table _ _ _ _ _ _ _ Hcall) as (Hself & Hcols & _).
  destruct (select_columns_Returned _ _ _ Hsel) as [Hnames Hrows].
  rewrite Forall_forall in Hnames.
  split; [|done]. intros name Hname.
  apply objective_names_cases in Hname.
  destruct (Hcols name) as [? | [-> | ->]]; [|done|..].
  - apply Hnames. rewrite !elem_of_cons. tauto.
  - destruct Hname as [?|[?|[?|?]]]; discriminate.
  - destruct Hname as [?|[?|[?|?]]]; discriminate.
Qed.

(** X20.  With fewer than four objectives ticked in the schedule tab, a
    run of the worker that obtains a non-empty table from the optimiser
    does not complete: the selection of the four objective columns raises
    a [KeyError] for the objectives that are not enabled, and the one
    verdict of the run is [error_occurred] with that error. *)
Theorem worker_unchecked_objective self flood power supply ecology params
    model_results self' t df :
  let objectives := get_objectives flood power supply ecology in
  optimize_schedule_input minimize get_reference_directions
    fast_non_dominated_sort self model_results objectives params
    = (self', (t, Returned (Some df))) →
  rows df ≠ [] → flood && power && supply && ecology = false →
  verdicts (run_schedule_optimization minimize get_reference_directions
              fast_non_dominated_sort self objectives params model_results
              false false).2 =
    [ error_occurred "schedule_optimization"
        (Formatted "调度优化过程中发生错误: "
           (KeyError (filter (λ n, n ∉ enabled_objectives objectives)
                             objective_names))) ].
Proof.
  intros objectives Hcall Hrows Hsome.
  destruct (call_returns_table _ _ _ _ _ _ _ Hcall) as (_ & _ & Hcols).
  assert (columns df = enabled_objectives objectives ++ ["reservoir_id"; "time_step"])
    as Hc.
  { apply Hcols; subst objectives;
      destruct flood, power, supply, ecology;
      apply (bool_decide_unpack _); by vm_compute. }
  unfold run_schedule_optimization. cbn [fst snd]. rewrite Hcall.
  assert (frame_empty df = false) as ->.
  { unfold frame_empty. apply bool_decide_eq_false_2. intros [?|Hnil]; [done|].
    rewrite Hc in Hnil. by destruct (enabled_objectives objectives). }
  unfold select_columns. rewrite Hc. subst objectives.
  destruct flood, power, supply, ecology; try done;
    (rewrite decide_False; [|by vm_compute]);
    cbn [fst snd]; rewrite !verdicts_app, verdicts_run; by vm_compute.
Qed.

(** X21.  No model results.  When the data manager holds no model
    results, the main window passes [None] under the key [model_results];
    with an objective enabled, [optimize] then raises the [TypeError] of
    [len(None)] before it prints or optimises anything.  The worker
    reports the error and finishes; [minimize] is never called and the
    manager keeps its results. *)
Theorem worker_without_model_results self objectives params cancelled_late :
  enabled_objectives objectives ≠ [] →
  run_schedule_optimization minimize get_reference_directions
    fast_non_dominated_sort self objectives params (schedule_input 0)
    false cancelled_late =
    (self,
     [ Emit (progress_updated 0 "开始调度优化...");
       Emit (progress_updated 20 "初始化优化算法...") ] ++
     except (TypeError "object of type 'NoneType' has no len()") ++
     [ Emit task_finished ]).
Proof.
  intros Hactive. unfold run_schedule_optimization, optimize_schedule_input.
  cbn [schedule_input decide]. rewrite decide_False by done. done.
Qed.
End WorkerFacts.

Lemma verdicts_elem t v : v ∈ verdicts t → Emit v ∈ t.
Proof.
  unfold verdicts. intros Hv. apply list_elem_of_omap in Hv as (a & Ha & Hav).
  destruct a as [[]| | | |]; try done; by injection Hav as <-.
Qed.

Lemma worker_completed_needs_all_objectives_witness :
  ∃ res,
    let out := run_schedule_optimization (one_generation sample_population)
                 das_dennis non_dominated_sort new_manager all_objectives
                 sample_params (schedule_input 1) false false in
    Emit (schedule_completed res) ∈ out.2 ∧
    (∀ name, name ∈ objective_names → name ∈ enabled_objectives all_objectives) ∧
    results out.1 = Some (optimization_results res) ∧
    pareto_front res = optimization_results res ∧
    schedule_strategy res = attrs (optimization_results res) ∧
    length (rows (objectives_frame res)) = length (rows (optimization_results res)).
Proof.
  destruct (verdicts
              (run_schedule_optimization (one_generation sample_population)
                 das_dennis non_dominated_sort new_manager all_objectives
                 sample_params (schedule_input 1) false false).2)
    as [|[|res| |] vs] eqn:Hv; try (vm_compute in Hv; discriminate).
  assert (Emit (schedule_completed res) ∈
            (run_schedule_optimization (one_generation sample_population)
               das_dennis non_dominated_sort new_manager all_objectives
               sample_params (schedule_input 1) false false).2) as Hin.
  { apply verdicts_elem. rewrite Hv. left. }
  exists res. cbn zeta. split; [exact Hin|].
  exact (worker_completed_needs_all_objectives (one_generation sample_population)
           das_dennis non_dominated_sort new_manager all_objectives sample_params
           (schedule_input 1) false false res Hin).
Defined.

Lemma worker_unchecked_objective_witness :
  verdicts (run_schedule_optimization (one_generation sample_population)
              das_dennis non_dominated_sort new_manager flood_only sample_params
              (schedule_input 1) false false).2 =
    [ error_occurred "schedule_optimization"
        (Formatted "调度优化过程中发生错误: "
           (KeyError (filter (λ n, n ∉ enabled_objectives flood_only)
                             objective_names))) ].
Proof.
  destruct (optimize_schedule_input (one_generation sample_population) das_dennis
              non_dominated_sort new_manager (schedule_input 1) flood_only
              sample_params) as [self' [t [[df|]|e]]] eqn:Hcall;
    [| vm_compute in Hcall; discriminate | vm_compute in Hcall; discriminate].
  apply (worker_unchecked_objective (one_generation sample_population) das_dennis
           non_dominated_sort new_manager true false false false sample_params
           (schedule_input 1) self' t df Hcall).
  - vm_compute in Hcall. injection Hcall as <- <- <-. discriminate.
  - reflexivity.
Defined.

Lemma worker_without_model_results_witness :
  run_schedule_optimization (one_generation sample_population) das_dennis
    non_dominated_sort used_manager sample_objectives sample_params
    (schedule_input 0) false false =
    (used_manager,
     [ Emit (progress_updated 0 "开始调度优化...");
       Emit (progress_updated 20 "初始化优化算法...") ] ++
     except (TypeError "object of type 'NoneType' has no len()") ++
     [ Emit task_finished ]).
Proof.
  apply (worker_without_model_results (one_generation sample_population)
           das_dennis non_dominated_sort used_manager sample_objectives
           sample_params false).
  discriminate.
Defined.

Lemma worker_single_verdict_witness :
  length (verdicts
            (run_schedule_optimization (one_generation sample_population)
               das_dennis non_dominated_sort new_manager all_objectives
               sample_params (schedule_input 1) false false).2) = 1.
Proof.
  apply (worker_single_verdict (one_generation sample_population) das_dennis
           non_dominated_sort new_manager all_objectives sample_params
           (schedule_input 1) false false); reflexivity.
Defined.

(** ** The objectives as functions of the releases *)

Lemma np_sum_le u v :
  releases_le u v → ∃ s t, np_sum u = Fin s ∧ np_sum v = Fin t ∧ (s <= t)%Q.
Proof.
  induction 1 as [|a b u v (p & q & -> & -> & Hpq) _ (s & t & Hs & Ht & Hst)].
  - exists 0%Q, 0%Q. split; [done|]. split; [done|]. lra.
  - exists (p + s)%Q, (q + t)%Q. unfold np_sum in *. simpl. rewrite Hs, Ht.
    split; [done|]. split; [done|]. lra.
Qed.

Lemma releases_le_finite x y : releases_le x y → finite_vec x ∧ finite_vec y.
Proof.
  induction 1 as [|a b u v (p & q & -> & -> & _) _ [IHx IHy]].
  - split; constructor.
  - split; by constructor.
Qed.

Lemma np_max_le x y mx my :
  releases_le x y → np_max x = Ok mx → np_max y = Ok my →
  ∃ a b, mx = Fin a ∧ my = Fin b ∧ (a <= b)%Q.
Proof.
  intros Hxy Hmx Hmy. destruct (releases_le_finite x y Hxy) as [Hfx Hfy].
  destruct (np_max_spec x mx Hmx) as [[Hn _]|(_ & Hin & _)].
  { destruct Hn. by apply finite_vec_no_nan. }
  destruct (np_max_spec y my Hmy) as [[Hn _]|(_ & Hmyin & Hle)].
  { destruct Hn. by apply finite_vec_no_nan. }
  apply list_elem_of_lookup_1 in Hin as [i Hi].
  destruct (Forall2_lookup_l _ _ _ _ _ Hxy Hi) as (b & Hb & p & q & -> & -> & Hpq).
  rewrite Forall_lookup in Hle. specialize (Hle _ _ Hb).
  unfold finite_vec in Hfy. rewrite Forall_forall in Hfy.
  specialize (Hfy _ Hmyin). destruct my as [m| | |]; try done.
  simpl in Hle. apply Qle_bool_iff in Hle. exists p, m. repeat split; try done. lra.
Qed.

Lemma count_true_antitone e x y :
  releases_le x y →
  count_true (map (λ v, fltb v (Fin e)) y) ≤ count_true (map (λ v, fltb v (Fin e)) x).
Proof.
  unfold count_true.
  induction 1 as [|a b u v (p & q & -> & -> & Hpq) _ IH]; simpl; [done|].
  destruct (Qltb q e) eqn:Hq.
  - apply Qltb_lt in Hq. assert (Qltb p e = true) as -> by (apply Qltb_lt; lra).
    simpl. lia.
  - destruct (Qltb p e); simpl; lia.
Qed.

Lemma objective_entry_monotone p obj x y vx vy :
  obj ∈ objective_names → (0 < n_var p)%Z → releases_le x y →
  (0 < Q_allowed p)%Q → (0 < Q_target p)%Q → (0 <= Head p)%Q →
  objective_entry p obj x = Ok vx → objective_entry p obj y = Ok vy →
  ∃ a b, vx = Fin a ∧ vy = Fin b ∧
    if decide (obj = "flood") then (a <= b)%Q else (b <= a)%Q.
Proof.
  intros Hobj Hn Hxy Hall Htar Hhead.
  assert (0 < inject_Z (n_var p))%Q as Hnq.
  { change 0%Q with (inject_Z 0). by rewrite <- Zlt_Qlt. }
  unfold objective_entry. repeat case_decide.
  - intros Hx Hy.
    apply bind_Ok in Hx as (mx & Hmx & Hx). apply Ok_inj in Hx. subst vx.
    apply bind_Ok in Hy as (my & Hmy & Hy). apply Ok_inj in Hy. subst vy.
    destruct (np_max_le x y mx my Hxy Hmx Hmy) as (a & b & -> & -> & Hab).
    exists (a / Q_allowed p)%Q, (b / Q_allowed p)%Q.
    rewrite !fdiv_Fin by lra. repeat split; try done.
    apply Qdiv_le_compat; lra.
  - intros Hx Hy. apply Ok_inj in Hx, Hy. subst vx vy.
    destruct (np_sum_le (map (λ v, fmul v (Fin (Head p))) x)
                (map (λ v, fmul v (Fin (Head p))) y)) as (s & t & -> & -> & Hst).
    { apply Forall2_fmap. eapply Forall2_impl; [exact Hxy|].
      intros a b (u & v & -> & -> & Huv). exists (u * Head p)%Q, (v * Head p)%Q.
      repeat split; try done. apply Qmult_le_compat_r; lra. }
    exists (- s)%Q, (- t)%Q. repeat split; try done. lra.
  - intros Hx Hy. apply Ok_inj in Hx, Hy. subst vx vy.
    destruct (np_sum_le
                (map (λ v, np_maximum (fsub (Fin (Q_target p)) v) fzero) y)
                (map (λ v, np_maximum (fsub (Fin (Q_target p)) v) fzero) x))
      as (s & t & -> & -> & Hst).
    { apply Forall2_fmap, Forall2_flip. eapply Forall2_impl; [exact Hxy|].
      intros a b (u & v & -> & -> & Huv). unfold np_maximum. simpl.
      destruct (Qltb (Q_target p + - v) 0) eqn:Ev,
               (Qltb (Q_target p + - u) 0) eqn:Eu;
        try apply Qltb_lt in Ev; try apply Qltb_lt in Eu;
        try apply Qltb_ge in Ev; try apply Qltb_ge in Eu;
        eexists _, _; (split; [reflexivity|]); (split; [reflexivity|]); lra. }
    change (fmul (Fin (Q_target p)) (of_Z (n_var p)))
      with (Fin (Q_target p * inject_Z (n_var p))).
    assert (0 < Q_target p * inject_Z (n_var p))%Q as Hpos.
    { apply Qmult_lt_0_compat; lra. }
    rewrite !fdiv_Fin by lra. eexists _, _. repeat split; try done.
    apply Qdiv_le_compat; lra.
  - intros Hx Hy. apply Ok_inj in Hx, Hy. subst vx vy.
    pose proof (count_true_antitone (Q_eco p) x y Hxy) as Hc.
    unfold of_nat, of_Z. rewrite !fdiv_Fin by lra.
    eexists _, _. repeat split; try done.
    apply Qdiv_le_compat; [lra|]. rewrite <- Zle_Qle. lia.
  - apply objective_names_cases in Hobj. tauto.
Qed.

(** X22.  The objectives as functions of the releases.  If a schedule
    [y] releases at least as much as a schedule [x] at every step then,
    with [Q_allowed > 0], [Q_target > 0] and [head >= 0], the flood
    objective of [y] is at least that of [x], while its power, supply and
    ecology objectives are at most those of [x]: flood control pulls
    against the three other objectives. *)
Theorem objectives_monotone_in_release p x y :
  (0 < n_var p)%Z → length x = Z.to_nat (n_var p) → releases_le x y →
  Forall (λ o, o ∈ objective_names) (active_objs p) →
  (0 < Q_allowed p)%Q → (0 < Q_target p)%Q → (0 <= Head p)%Q →
  ∃ fx fy, _evaluate p [x; y] = Ok [fx; fy] ∧
    ∀ i obj, active_objs p !! i = Some obj →
      ∃ a b, fx !! i = Some (Fin a) ∧ fy !! i = Some (Fin b) ∧
        if decide (obj = "flood") then (a <= b)%Q else (b <= a)%Q.
Proof.
  intros Hn Hlx Hxy Hobjs Hall Htar Hhead.
  pose proof (Forall2_length _ _ _ Hxy) as Hly.
  destruct (evaluate_entries p [x; y] (or_introl Hn))
    as (F & HF & HlF & _ & Hrows); [|done|].
  { repeat constructor; [done | by rewrite <- Hly]. }
  destruct F as [|fx [|fy [|]]]; try done.
  exists fx, fy. split; [done|]. intros i obj Hobj.
  destruct (Hrows 0 x eq_refl) as (fx' & [= <-] & Hcx).
  destruct (Hrows 1 y eq_refl) as (fy' & [= <-] & Hcy).
  destruct (Hcx i obj Hobj) as (vx & Hvx & Hex).
  destruct (Hcy i obj Hobj) as (vy & Hvy & Hey).
  rewrite Forall_lookup in Hobjs.
  destruct (objective_entry_monotone p obj x y vx vy (Hobjs _ _ Hobj) Hn Hxy
              Hall Htar Hhead Hex Hey) as (a & b & -> & -> & Hab).
  by exists a, b.
Qed.

Lemma objectives_monotone_in_release_witness :
  ∃ fx fy,
    _evaluate sample_problem [[of_Z 0; of_Z 600]; [of_Z 500; of_Z 1000]] =
      Ok [fx; fy] ∧
    ∀ i obj, active_objs sample_problem !! i = Some obj →
      ∃ a b, fx !! i = Some (Fin a) ∧ fy !! i = Some (Fin b) ∧
        if decide (obj = "flood") then (a <= b)%Q else (b <= a)%Q.
Proof.
  apply (objectives_monotone_in_release sample_problem
           [of_Z 0; of_Z 600] [of_Z 500; of_Z 1000]).
  - reflexivity.
  - reflexivity.
  - repeat constructor; eexists _, _; (split; [reflexivity|]);
      (split; [reflexivity|]); vm_compute; discriminate.
  - vm_compute. repeat constructor.
  - reflexivity.
  - reflexivity.
  - vm_compute. discriminate.
Defined.

(** ** The balanced block and negative objective values *)

Lemma np_sum_insert l : ∀ j t t' s,
  finite_vec l → l !! j = Some (Fin t) → np_sum l = Fin s →
  ∃ s', np_sum (<[j := Fin t']> l) = Fin s' ∧ (s' - s == t' - t)%Q.
Proof.
  induction l as [|x l IH]; intros j t t' s Hfin Hj Hs; [done|].
  apply Forall_cons in Hfin as [Hx Hfin].
  destruct (np_sum_finite l Hfin) as [sl Hsl].
  destruct j as [|j]; simpl in Hj.
  - injection Hj as ->. unfold np_sum in *. simpl in *. rewrite Hsl in *.
    injection Hs as <-. exists (t' + sl)%Q. split; [done | ring].
  - destruct x as [a| | |]; try done.
    destruct (IH j t t' sl Hfin Hj Hsl) as (s' & Hs' & Hd).
    unfold np_sum in *. simpl in *. rewrite Hsl in Hs. injection Hs as <-.
    rewrite Hs'. exists (a + s')%Q. split; [done|]. lra.
Qed.

Lemma weighted_normalized_sum_insert_le k maxima f j v v' m :
  0 < k → finite_vec maxima → finite_vec f → length maxima = length f →
  f !! j = Some (Fin v) → maxima !! j = Some (Fin m) → (m < 0)%Q → (v <= v')%Q →
  fleb (weighted_normalized_sum k maxima (<[j := Fin v']> f))
       (weighted_normalized_sum k maxima f) = true.
Proof.
  intros Hk Hm Hf Hlen Hv Hmj Hneg Hlt. unfold weighted_normalized_sum.
  set (term := λ fj mj, fmul (fdiv fj (if feqb mj fzero then fone else mj))
                             (fdiv fone (of_nat k))).
  assert (0 < inject_Z (Z.of_nat k))%Q as Hkq.
  { change 0%Q with (inject_Z 0). rewrite <- Zlt_Qlt. lia. }
  assert (∀ u, term (Fin u) (Fin m) = Fin (u / m * (1 / inject_Z (Z.of_nat k))))
    as Hterm.
  { intros u. unfold term, feqb, fzero, fone, of_nat, of_Z.
    assert (Qeq_bool m 0 = false) as ->.
    { apply not_true_iff_false. rewrite Qeq_bool_iff. lra. }
    rewrite !fdiv_Fin by lra. done. }
  assert (finite_vec (zip_with term f maxima)) as Hfin.
  { clear -Hk Hm Hf. revert maxima Hm.
    induction Hf as [|fj f Hfj Hf IH]; intros maxima Hm; [constructor|].
    destruct Hm as [|mj maxima Hmj Hm]; simpl; constructor; [|by apply IH].
    unfold term. destruct (weight_finite k Hk) as [w ->].
    pose proof (normalised_finite fj mj Hfj Hmj) as Hn.
    by destruct (fdiv fj _). }
  destruct (np_sum_finite _ Hfin) as [s Hs].
  assert (<[j := Fin v']> f = <[j := Fin v']> f) as _ by done.
  assert (zip_with term (<[j := Fin v']> f) maxima =
          <[j := term (Fin v') (Fin m)]> (zip_with term f maxima)) as ->.
  { clear -Hv Hmj. revert j maxima Hv Hmj.
    induction f as [|fj f IH]; intros j maxima Hv Hmj; [done|].
    destruct maxima as [|mj maxima]; [done|].
    destruct j as [|j]; simpl in *.
    - by injection Hmj as ->.
    - f_equal. by apply IH. }
  rewrite Hterm.
  destruct (np_sum_insert (zip_with term f maxima) j
              (v / m * (1 / inject_Z (Z.of_nat k)))
              (v' / m * (1 / inject_Z (Z.of_nat k))) s Hfin) as (s' & -> & Hd);
    [|done|].
  { rewrite lookup_zip_with, Hv. simpl. rewrite Hmj. simpl. by rewrite Hterm. }
  rewrite Hs. simpl. apply Qle_bool_iff.
  assert (v' / m * (1 / inject_Z (Z.of_nat k)) <=
          v / m * (1 / inject_Z (Z.of_nat k)))%Q as Hterms; [|lra].
  assert (0 < 1 / inject_Z (Z.of_nat k))%Q as Hw.
  { apply Qlt_shift_div_l; lra. }
  apply Qmult_le_compat_r; [|lra].
  assert (0 <= (v' - v) * / (- m))%Q as Hpos.
  { apply Qmult_le_0_compat; [lra|]. apply Qlt_le_weak, Qinv_lt_0_compat. lra. }
  assert ((v' - v) * / (- m) == v / m - v' / m)%Q as Heq by (field; lra).
  lra.
Qed.

Lemma fltb_fleb_absurd a b : fltb a b = true → fleb b a = true → False.
Proof.
  destruct a, b; simpl; try done.
  rewrite Qltb_lt, Qle_bool_iff. lra.
Qed.

(** X23.  The balanced block divides every objective by the maximum of
    its column.  For an objective whose values are negative throughout the
    front, as those of the power objective are, the division reverses the
    order: of two members of a finite front that differ only in such an
    objective, the one with the smaller, that is the better, value has a
    weighted sum that is at least the sum of the other.  [np.argmin]
    returns the first minimum, so the balanced recommendation is never the
    better member when the worse one stands before it in the front. *)
Theorem balanced_skips_later_better_member X F active rid recs rec j i i'
    f v v' :
  recommend_strategies X F active rid = Ok recs →
  1 < length active → length X = length F → rect (length active) F →
  all_finite F →
  (∀ g, g ∈ F → ∃ q, g !! j = Some (Fin q) ∧ (q < 0)%Q) →
  F !! i = Some f → F !! i' = Some (<[j := Fin v']> f) → i' < i →
  f !! j = Some (Fin v) → (v < v')%Q →
  rec ∈ recs → strategy_type rec = "balanced_strategy" →
  solution_id rec ≠ i + 1.
Proof.
  intros Hrecs Hk HX Hrect Hfin Hneg Hf Hf' Hii Hv Hlt Hrec Hty.
  assert (F ≠ []) as HF by (by intros ->).
  destruct (recommend_strategies_split _ _ _ _ _ Hrecs) as (pri & Hpri & Hbal).
  destruct (balanced_block_emitted X F active pri)
    as (maxima & idx & x & fb & Hcm & Hidx & Hx & Hfb & Hbal'); try done.
  rewrite Hbal' in Hbal. apply Ok_inj in Hbal. subst recs.
  apply elem_of_app in Hrec as [Hrec|Hrec].
  { rewrite Forall_forall in Hpri. by destruct (Hpri rec Hrec). }
  apply list_elem_of_singleton in Hrec. subst rec. simpl. intros Hid.
  assert (idx = i) as -> by lia.
  pose proof (column_maxima_finite _ _ _ Hfin Hcm) as Hmfin.
  (* the sum of the better member is at least the sum of the worse one *)
  assert (fleb (weighted_normalized_sum (length active) maxima (<[j := Fin v']> f))
               (weighted_normalized_sum (length active) maxima f) = true) as Hle.
  { destruct Hcm as [Hlen Hcm].
    assert (length f = length active) as Hlf by (by eapply rect_lookup_length).
    destruct (lookup_lt_is_Some_2 maxima j) as [m Hm].
    { rewrite Hlen, <- Hlf. by eapply lookup_lt_Some. }
    destruct (Hcm j m Hm) as (col & Hcol & [[Hnan _]|(_ & Hin & _)]).
    { destruct Hnan. apply (column_no_nan j F); [|done].
      eapply Forall_impl; [exact Hfin|]. intros r. apply finite_vec_no_nan. }
    apply list_elem_of_lookup_1 in Hin as [n Hn].
    destruct (lookup_lt_is_Some_2 F n) as [g Hg].
    { rewrite <- (traverse_length _ _ _ Hcol). by eapply lookup_lt_Some. }
    rewrite (column_lookup _ _ _ _ _ Hcol Hg) in Hn.
    destruct (Hneg g) as (q & Hq & Hq0); [by eapply list_elem_of_lookup_2|].
    assert (m = Fin q) as -> by congruence.
    assert (finite_vec f) as Hffin.
    { unfold all_finite in Hfin. rewrite Forall_lookup in Hfin. by eapply Hfin. }
    apply (weighted_normalized_sum_insert_le (length active) maxima f j v v' q);
      try done; [lia | lia | lra]. }
  (* [np.argmin] returns the first minimum, so every earlier sum is strictly
     larger than the sum of the pick *)
  assert (fltb (weighted_normalized_sum (length active) maxima f)
               (weighted_normalized_sum (length active) maxima (<[j := Fin v']> f))
          = true) as Hfirst.
  { apply (np_argmin_first
             (map (weighted_normalized_sum (length active) maxima) F) i _
             ) with (i := i').
    - apply Forall_fmap. eapply Forall_impl; [exact Hfin|]. intros r Hr. simpl.
      apply finite_not_nan. apply weighted_normalized_sum_finite; [lia|done|done].
    - done.
    - by rewrite list_lookup_fmap, Hf.
    - done.
    - by rewrite list_lookup_fmap, Hf'. }
  by eapply fltb_fleb_absurd.
Qed.

Lemma balanced_skips_later_better_member_witness :
  ∃ recs,
    recommend_strategies [[of_Z 1]; [of_Z 2]]
      [[of_Z (-10); of_Z 1]; [of_Z (-20); of_Z 1]] ["power"; "flood"] 1 = Ok recs ∧
    ∀ rec, rec ∈ recs → strategy_type rec = "balanced_strategy" →
      solution_id rec ≠ 1 + 1.
Proof.
  destruct (recommend_strategies [[of_Z 1]; [of_Z 2]]
              [[of_Z (-10); of_Z 1]; [of_Z (-20); of_Z 1]] ["power"; "flood"] 1)
    as [recs|] eqn:Hrecs; [|vm_compute in Hrecs; discriminate].
  exists recs. split; [reflexivity|]. intros rec Hrec Hty.
  apply (balanced_skips_later_better_member [[of_Z 1]; [of_Z 2]]
           [[of_Z (-10); of_Z 1]; [of_Z (-20); of_Z 1]] ["power"; "flood"] 1
           recs rec 0 1 0 [of_Z (-20); of_Z 1] (-20) (-10) Hrecs);
    try done.
  - simpl. lia.
  - repeat constructor.
  - repeat constructor.
  - intros g Hg. apply elem_of_cons in Hg as [->|Hg].
    + exists (-10)%Q. split; [reflexivity | reflexivity].
    + apply list_elem_of_singleton in Hg as ->.
      exists (-20)%Q. split; [reflexivity | reflexivity].
  - lia.
Defined.
